(** * trm.ultracam: the CCD container (CCD.py)

    A shallow embedding of [trm.ultracam.CCD] and the proofs of the
    properties its specification states.

    Modelling decisions, all visible in the definitions below:

    - Python objects are kept in a store and named by references: a heap
      of Window objects, which the methods of [CCD] mutate ([win += owin],
      [win.totype(...)]), and a heap of CCD objects, which they read and
      extend.  A CCD holds the {e references} of its Windows, so aliasing
      (one Window object listed twice, or shared by two CCDs, or one CCD
      on both sides of an operator) is expressible.  No modelled method
      mutates a list object, so [_data] holds the list itself.
    - Every method is a computation in a state-and-exception monad: an
      exception keeps the store as it was when it was raised.
    - [Window.py], [Uhead.py], [Time.py] and [UErrors.py] are not among
      the sources embedded here.  A Window is therefore an abstract type
      with the operations [CCD.py] calls on it ([WindowOps]); the clauses
      of the Window contract that a proof needs appear as hypotheses of
      that proof, and [SpecWindow] is one implementation of the contract,
      on which the theorems are run.  Header and time values are opaque.
    - Pixel values and scalars are rationals ([Q]), and what a Window
      computes on them is the Window's affair.  The floats that [CCD.py]
      computes with itself, in [mean], are binary64 numbers: a sum or a
      quotient is rounded to the nearest of them, or is an infinity or
      nan. *)

From Stdlib Require Import ZArith QArith Qround String DecimalString.
From Stdlib Require Import List Lia Bool.
From stdpp Require Import base list.

Close Scope Q_scope.
Open Scope Z_scope.
Open Scope nat_scope.

(** ** Python-level values *)

(** References to Window objects and to CCD objects in the store. *)
Definition loc := nat.
Definition cref := nat.

(** The exceptions the modelled code can raise.  [UltracamError] is the
    domain error of [UErrors]; [AttributeError] keeps the name of the
    missing attribute; [OverflowError] is what [float] raises for an
    integer beyond the floats; [WindowError] stands for whatever a Window
    method raises; [DanglingRef] marks a reference with no object behind
    it, which no Python program can produce. *)
Inductive exn : Type :=
| UltracamError (msg : string)
| AttributeError (attr : string)
| ZeroDivisionError
| OverflowError
| WindowError (msg : string)
| DanglingRef (l : loc).

Inductive result (A : Type) : Type :=
| Ok (a : A)
| Raise (e : exn).
Arguments Ok {A} a.
Arguments Raise {A} e.

(** Modelled from the spec: the element kinds of a Window buffer,
    "unsigned 16-bit integer, 32-bit float, 64-bit float", the numpy types
    [np.uint16], [np.float32] and [np.float64] that [CCD.py] names. *)
Inductive Kind : Type := uint16 | float32 | float64.

(** [issubclass(k, np.integer)] *)
Definition is_integer (k : Kind) : bool :=
  match k with uint16 => true | _ => false end.

(** [issubclass(k, np.floating)] *)
Definition is_floating (k : Kind) : bool :=
  match k with uint16 => false | _ => true end.

(** The four arithmetic operators. *)
Inductive binop : Type := Add | Sub | Mul | Div.

(** The right operand of a Window operator: another Window or a scalar. *)
Inductive woperand (Window : Type) : Type :=
| WWin (w : Window)
| WScalar (s : Q).
Arguments WWin {Window} w.
Arguments WScalar {Window} s.

(** [str(n)] for a non-negative integer. *)
Definition str (n : nat) : string := NilEmpty.string_of_uint (Nat.to_uint n).

(** ** The Window interface *)

(** Modelled from the spec: the operations of [Window] ([Window.py] is not
    among the sources) that [CCD.py] calls, with the signatures of the
    Window contract.  Reductions and tests read a Window; [w_totype] and
    [w_iarith] give the new contents of the Window object they are called
    on; [w_arith], [w_rarith] and [w_cropTo] give the contents of the new
    Window they return.  Reductions, tests, conversions and crops
    return; arithmetic may raise, on Windows of unequal shape for one. *)
Class WindowOps (Window : Type) : Type := {
  w_ne : Window -> Window -> bool;            (* swin != owin *)
  w_dtype : Window -> Kind;                   (* win.dtype.type *)
  w_totype : Kind -> Window -> Window;        (* win.totype(kind) *)
  w_min : Window -> Q;                        (* win.min() *)
  w_max : Window -> Q;                        (* win.max() *)
  w_sum : Window -> Q;                        (* win.sum() *)
  w_median : Window -> Q;                     (* win.median() *)
  w_size : Window -> nat;                     (* win.size *)
  w_flatten : Window -> list Q;               (* win.flatten() *)
  w_ge : Window -> Window -> bool;            (* win >= wino *)
  w_canCropTo : Window -> Window -> bool;     (* win.canCropTo(wino) *)
  w_cropTo : Window -> Window -> Window;      (* win.cropTo(wino) *)
  w_iarith : binop -> Window -> woperand Window -> result Window;
                                              (* win op= other *)
  w_arith : binop -> Window -> woperand Window -> result Window;
                                              (* win op other *)
  w_rarith : binop -> Q -> Window -> result Window
                                              (* other op win *)
}.

(** Two Windows are equal when [!=] answers [False]. *)
Definition w_eq {Window : Type} `{WindowOps Window} (a b : Window) : bool :=
  negb (w_ne a b).

(** ** The CCD object, the store and the monad *)

Record CCD (Time Uhead : Type) : Type := mkCCD {
  _data : list loc;
  time : Time;
  nxmax : Z;
  nymax : Z;
  good : bool;
  head : option Uhead
}.
Arguments mkCCD {Time Uhead} _ _ _ _ _ _.
Arguments _data {Time Uhead} _.
Arguments time {Time Uhead} _.
Arguments nxmax {Time Uhead} _.
Arguments nymax {Time Uhead} _.
Arguments good {Time Uhead} _.
Arguments head {Time Uhead} _.

(** The store: the Window objects, the CCD objects, and the warnings
    issued so far. *)
Record store (Window Time Uhead : Type) : Type := mkStore {
  heap : list Window;
  ccds : list (CCD Time Uhead);
  warnings : list string
}.
Arguments mkStore {Window Time Uhead} _ _ _.
Arguments heap {Window Time Uhead} _.
Arguments ccds {Window Time Uhead} _.
Arguments warnings {Window Time Uhead} _.

(** A computation answers a value or raises, and leaves a store. *)
Definition M (Window Time Uhead A : Type) : Type :=
  store Window Time Uhead -> result A * store Window Time Uhead.

Section Monad.

Context {Window Time Uhead : Type}.

Definition ret {A : Type} (a : A) : M Window Time Uhead A :=
  fun st => (Ok a, st).

Definition raise {A : Type} (e : exn) : M Window Time Uhead A :=
  fun st => (Raise e, st).

Definition bind {A B : Type} (m : M Window Time Uhead A)
    (k : A -> M Window Time Uhead B) : M Window Time Uhead B :=
  fun st =>
    match m st with
    | (Ok a, st') => k a st'
    | (Raise e, st') => (Raise e, st')
    end.

Definition lift {A : Type} (r : result A) : M Window Time Uhead A :=
  fun st => (r, st).

End Monad.

Declare Scope py_scope.
Delimit Scope py_scope with py.
Notation "x <- m ;; k" := (bind m (fun x => k))
  (at level 100, m at next level, right associativity) : py_scope.
Notation "m ;;; k" := (bind m (fun _ => k))
  (at level 100, right associativity) : py_scope.
Open Scope py_scope.

Section CCD.

Context {Window Time Uhead : Type} `{WindowOps Window}.

#[local] Abbreviation CCD := (CCD Time Uhead).
#[local] Abbreviation store := (store Window Time Uhead).
#[local] Abbreviation M := (M Window Time Uhead).

(** Reading the Window object behind a reference. *)
Definition deref (l : loc) : M Window :=
  fun st =>
    match heap st !! l with
    | Some w => (Ok w, st)
    | None => (Raise (DanglingRef l), st)
    end.

(** Overwriting the contents of the Window object at [l]. *)
Definition assign (l : loc) (w : Window) : M unit :=
  fun st => (Ok tt, mkStore (<[l := w]> (heap st)) (ccds st) (warnings st)).

(** Creating a new Window object. *)
Definition alloc (w : Window) : M loc :=
  fun st =>
    (Ok (length (heap st)),
     mkStore (heap st ++ [w]) (ccds st) (warnings st)).

(** [warnings.warn(msg)] *)
Definition warn (msg : string) : M unit :=
  fun st => (Ok tt, mkStore (heap st) (ccds st) (warnings st ++ [msg])).

(** Reading the CCD object behind a reference: the attributes of [self]
    and of [other]. *)
Definition get (c : cref) : M CCD :=
  fun st =>
    match ccds st !! c with
    | Some o => (Ok o, st)
    | None => (Raise (DanglingRef c), st)
    end.

(** ** Construction and equality *)

(** [CCD(wins, time, nxmax, nymax, good, head)]: [__init__] on a new CCD
    object.  Both [isinstance] checks hold by typing: [wins] holds
    references to Window objects and [head] is [None] or a header. *)
Definition __init__ (wins : list loc) (time : Time) (nxmax nymax : Z)
    (good : bool) (head : option Uhead) : M cref :=
  fun st =>
    (Ok (length (ccds st)),
     mkStore (heap st)
       (ccds st ++ [mkCCD wins time nxmax nymax good head])
       (warnings st)).

(** [CCD.__len__] *)
Definition __len__ (self : cref) : M nat :=
  s <- get self ;;
  ret (length (_data s)).

(** The loop of [__eq__] over [zip(self._data, other._data)]. *)
Fixpoint eq_windows (ps : list (loc * loc)) : M bool :=
  match ps with
  | [] => ret true
  | (s, o) :: ps' =>
      swin <- deref s ;;
      owin <- deref o ;;
      if w_ne swin owin then ret false else eq_windows ps'
  end.

(** [CCD.__eq__] *)
Definition __eq__ (self other : cref) : M bool :=
  s <- get self ;;
  o <- get other ;;
  if negb (nxmax s =? nxmax o)%Z
     || negb (nymax s =? nymax o)%Z
     || negb (length (_data s) =? length (_data o))
  then ret false
  else eq_windows (zip (_data s) (_data o)).

(** [CCD.__ne__]; [__eq__] never answers [NotImplemented]. *)
Definition __ne__ (self other : cref) : M bool :=
  result <- __eq__ self other ;;
  ret (negb result).

(** ** Type introspection and conversion *)

(** The loop of [anyInt]. *)
Fixpoint anyInt_loop (ls : list loc) : M bool :=
  match ls with
  | [] => ret false
  | l :: ls' =>
      win <- deref l ;;
      if is_integer (w_dtype win) then ret true else anyInt_loop ls'
  end.

(** [CCD.anyInt] *)
Definition anyInt (self : cref) : M bool :=
  s <- get self ;;
  anyInt_loop (_data s).

(** The loop of [anyFloat]. *)
Fixpoint anyFloat_loop (ls : list loc) : M bool :=
  match ls with
  | [] => ret false
  | l :: ls' =>
      win <- deref l ;;
      if is_floating (w_dtype win) then ret true else anyFloat_loop ls'
  end.

(** [CCD.anyFloat] *)
Definition anyFloat (self : cref) : M bool :=
  s <- get self ;;
  anyFloat_loop (_data s).

(** [win.totype(kind)]: the Window object at [l] is converted in place. *)
Definition win_totype (l : loc) (kind : Kind) : M unit :=
  win <- deref l ;;
  assign l (w_totype kind win).

(** The loop of [toFloat]. *)
Fixpoint toFloat_loop (ls : list loc) (single : bool) : M unit :=
  match ls with
  | [] => ret tt
  | l :: ls' =>
      (if single then win_totype l float32 else win_totype l float64) ;;;
      toFloat_loop ls' single
  end.

(** [CCD.toFloat] *)
Definition toFloat (self : cref) (single : bool) : M unit :=
  s <- get self ;;
  toFloat_loop (_data s) single.

(** [x < y] on scalars. *)
Definition Qlt_bool (x y : Q) : bool := negb (Qle_bool y x).

(** [win.min() < 0 or win.max() > 65535] *)
Definition out_of_range (win : Window) : bool :=
  Qlt_bool (w_min win) 0 || Qlt_bool 65535 (w_max win).

Definition toInt_warning : string :=
  "CCD.toInt: input data out of range 0 to 65535".

(** The loop of [toInt]. *)
Fixpoint toInt_loop (ls : list loc) : M unit :=
  match ls with
  | [] => ret tt
  | l :: ls' =>
      win <- deref l ;;
      (if out_of_range win then warn toInt_warning else ret tt) ;;;
      win_totype l uint16 ;;;
      toInt_loop ls'
  end.

(** [CCD.toInt] *)
Definition toInt (self : cref) : M unit :=
  s <- get self ;;
  toInt_loop (_data s).

(** ** Floats *)

(** A Python float, and numpy's float64: a binary64 number.  The finite
    ones are the rationals that [binary64] leaves as they are; the sign
    of zero is not modelled. *)
Inductive pyfloat : Type :=
| Finite (q : Q)
| Infinity (negative : bool)
| NaN.

(** [2 ** e] *)
Definition pow2 (e : Z) : Q :=
  if (0 <=? e)%Z then inject_Z (2 ^ e) else (/ inject_Z (2 ^ (- e)))%Q.

(** The nearest integer, the even one of two that are equally near. *)
Definition half_even (x : Q) : Z :=
  let f := Qfloor x in
  let d := (x - inject_Z f)%Q in
  if Qlt_bool d (1 # 2) then f
  else if Qlt_bool (1 # 2) d then (f + 1)%Z
  else if Z.even f then f else (f + 1)%Z.

Definition magnitude (q : Q) : Q := if Qlt_bool q 0 then (- q)%Q else q.

(** The exponent of the last of the 53 bits that binary64 keeps of [q],
    a reduced fraction other than 0: the [e] with
    [2 ** 52 <= |q| / 2 ** e < 2 ** 53], and [-1074] for the numbers too
    small for that. *)
Definition exponent (q : Q) : Z :=
  let e := (Z.log2 (Z.abs (Qnum q)) - Z.log2 (Z.pos (Qden q)) - 52)%Z in
  Z.max (if Qlt_bool (magnitude q / pow2 e) (pow2 52) then e - 1 else e)
    (-1074).

(** Rounding to 53 bits, to the nearest and to the even one of two that
    are equally near, whatever the size of the result. *)
Definition binary64 (x : Q) : Q :=
  let q := Qred x in
  if Qeq_bool q 0 then 0%Q
  else Qred (inject_Z (half_even (q / pow2 (exponent q)))
             * pow2 (exponent q)).

(** The float nearest to [x]: what float arithmetic makes of the exact
    result [x] of an operation.  A result of [2 ** 1024] or beyond is an
    infinity. *)
Definition round (x : Q) : pyfloat :=
  let r := binary64 x in
  if Qle_bool (pow2 1024) (magnitude r) then Infinity (Qlt_bool r 0)
  else Finite r.

(** [x + y] on floats. *)
Definition float_add (x y : pyfloat) : pyfloat :=
  match x, y with
  | NaN, _ | _, NaN => NaN
  | Finite a, Finite b => round (a + b)
  | Infinity s, Finite _ | Finite _, Infinity s => Infinity s
  | Infinity s, Infinity t => if Bool.eqb s t then Infinity s else NaN
  end.

Definition is_zero (y : pyfloat) : bool :=
  match y with Finite q => Qeq_bool q 0 | _ => false end.

Definition is_negative (y : pyfloat) : bool :=
  match y with
  | Finite q => Qlt_bool q 0
  | Infinity s => s
  | NaN => false
  end.

(** [x / y] in binary64 for a divisor other than 0. *)
Definition quotient (x y : pyfloat) : pyfloat :=
  match x, y with
  | NaN, _ | _, NaN => NaN
  | Finite a, Finite b => round (a / b)
  | Finite _, Infinity _ => Finite 0
  | Infinity s, Finite _ => Infinity (xorb s (is_negative y))
  | Infinity _, Infinity _ => NaN
  end.

(** [x / 0.] in numpy: an infinity with the sign of [x], and nan for 0
    and nan. *)
Definition quotient_by_zero (x : pyfloat) : pyfloat :=
  match x with
  | Finite a => if Qeq_bool a 0 then NaN else Infinity (Qlt_bool a 0)
  | Infinity s => Infinity s
  | NaN => NaN
  end.

(** ** Aggregate statistics *)

(** [float(n)]: the float nearest to the integer, which Python refuses
    to give when that is beyond the finite ones. *)
Definition float (n : nat) : result pyfloat :=
  match round (inject_Z (Z.of_nat n)) with
  | Finite q => Ok (Finite q)
  | _ => Raise OverflowError
  end.

(** The value of [sum] in [mean], with its type: the Python float it
    starts as, or numpy's float64.  [win.sum()] is a numpy scalar (the
    kinds that [anyInt], [toFloat] and [toInt] test and set on a Window
    are numpy's), and a Python float plus a numpy scalar is a numpy
    float64. *)
Inductive number : Type :=
| PyFloat (x : pyfloat)
| NpFloat64 (x : pyfloat).

Definition value (s : number) : pyfloat :=
  match s with PyFloat x | NpFloat64 x => x end.

(** [sum + x] for the numpy scalar [x]: [x] as a float64, added to
    [sum]. *)
Definition add_scalar (sum : number) (x : Q) : number :=
  NpFloat64 (float_add (value sum) (round x)).

(** [sum / y] for a Python float [y].  Python's own floats raise on a
    zero divisor; numpy's float64 answers an infinity or nan (and warns
    by its own means, which are not part of the store). *)
Definition float_div (sum : number) (y : pyfloat) : result pyfloat :=
  match sum with
  | PyFloat x =>
      if is_zero y then Raise ZeroDivisionError else Ok (quotient x y)
  | NpFloat64 x =>
      Ok (if is_zero y then quotient_by_zero x else quotient x y)
  end.

(** The loop of [mean]: [nelem += win.size; sum += win.sum()]. *)
Fixpoint mean_loop (ls : list loc) (nelem : nat) (sum : number)
    : M (nat * number) :=
  match ls with
  | [] => ret (nelem, sum)
  | l :: ls' =>
      win <- deref l ;;
      mean_loop ls' (nelem + w_size win) (add_scalar sum (w_sum win))
  end.

(** [CCD.mean] *)
Definition mean (self : cref) : M pyfloat :=
  s <- get self ;;
  acc <- mean_loop (_data s) 0 (PyFloat (Finite 0)) ;;
  n <- lift (float (fst acc)) ;;
  lift (float_div (snd acc) n).

(** Python's [min(a, b)] and [max(a, b)]: the first argument wins a tie. *)
Definition py_min (a b : Q) : Q := if Qlt_bool b a then b else a.
Definition py_max (a b : Q) : Q := if Qlt_bool a b then b else a.

(** The loop of [min]; [None] is the value of [minv] before any Window. *)
Fixpoint min_loop (ls : list loc) (minv : option Q) : M (option Q) :=
  match ls with
  | [] => ret minv
  | l :: ls' =>
      win <- deref l ;;
      min_loop ls'
        (Some (match minv with
               | None => w_min win
               | Some m => py_min m (w_min win)
               end))
  end.

(** [CCD.min] *)
Definition min (self : cref) : M (option Q) :=
  s <- get self ;;
  min_loop (_data s) None.

(** The loop of [max]. *)
Fixpoint max_loop (ls : list loc) (maxv : option Q) : M (option Q) :=
  match ls with
  | [] => ret maxv
  | l :: ls' =>
      win <- deref l ;;
      max_loop ls'
        (Some (match maxv with
               | None => w_max win
               | Some m => py_max m (w_max win)
               end))
  end.

(** [CCD.max] *)
Definition max (self : cref) : M (option Q) :=
  s <- get self ;;
  max_loop (_data s) None.

(** The loop of [npix]. *)
Fixpoint npix_loop (ls : list loc) (np : nat) : M nat :=
  match ls with
  | [] => ret np
  | l :: ls' =>
      win <- deref l ;;
      npix_loop ls' (np + w_size win)
  end.

(** [CCD.npix] *)
Definition npix (self : cref) : M nat :=
  s <- get self ;;
  npix_loop (_data s) 0.

(** The loop shared by [median] and [centile]: [larr], the flattened
    Windows.  What follows it, [np.concatenate], [np.median] and
    [np.percentile], is numpy's: see [NumpyOps] below. *)
Fixpoint flatten_loop (ls : list loc) (larr : list (list Q))
    : M (list (list Q)) :=
  match ls with
  | [] => ret larr
  | l :: ls' =>
      win <- deref l ;;
      flatten_loop ls' (larr ++ [w_flatten win])
  end.

(** ** In-place Window arithmetic *)

(** [win op= other] on the Window object at [l]. *)
Definition win_iop (op : binop) (l : loc) (other : woperand Window) : M unit :=
  win <- deref l ;;
  win' <- lift (w_iarith op win other) ;;
  assign l win'.

(** The loop of [rback]: [win -= win.median()]. *)
Fixpoint rback_loop (ls : list loc) : M unit :=
  match ls with
  | [] => ret tt
  | l :: ls' =>
      win <- deref l ;;
      win_iop Sub l (WScalar (w_median win)) ;;;
      rback_loop ls'
  end.

(** [CCD.rback] *)
Definition rback (self : cref) : M unit :=
  s <- get self ;;
  rback_loop (_data s).

(** ** Geometric cropping *)

(** The inner loop of [canCropTo]: [true] when it leaves by [break]. *)
Fixpoint encloses_loop (ls : list loc) (wino : Window) : M bool :=
  match ls with
  | [] => ret false
  | l :: ls' =>
      win <- deref l ;;
      if w_ge win wino then ret true else encloses_loop ls' wino
  end.

(** The outer loop of [canCropTo]. *)
Fixpoint canCropTo_loop (self_data os : list loc) : M bool :=
  match os with
  | [] => ret true
  | o :: os' =>
      wino <- deref o ;;
      found <- encloses_loop self_data wino ;;
      if found then canCropTo_loop self_data os' else ret false
  end.

(** [CCD.canCropTo] *)
Definition canCropTo (self ccd : cref) : M bool :=
  s <- get self ;;
  o <- get ccd ;;
  if negb (nxmax s =? nxmax o)%Z || negb (nymax s =? nymax o)%Z
  then ret false
  else canCropTo_loop (_data s) (_data o).

(** The inner loop of [cropTo]: the cropped Window of the first Window
    that can be cropped, or [None] when the loop reaches its [else]. *)
Fixpoint crop_first (ls : list loc) (wino : Window) : M (option Window) :=
  match ls with
  | [] => ret None
  | l :: ls' =>
      win <- deref l ;;
      if w_canCropTo win wino then ret (Some (w_cropTo win wino))
      else crop_first ls' wino
  end.

Definition crop_dims_msg : string :=
  "CCD.crop: maximum dimensions did not match".

Definition crop_window_msg (nwino : nat) : string :=
  ("CCD.crop: could not crop any window of CCD to match window "
     ++ str (nwino + 1) ++ " of other.")%string.

(** The outer loop of [cropTo], over [enumerate(ccd._data)] from [nwino]. *)
Fixpoint cropTo_loop (self_data os : list loc) (nwino : nat)
    (wins : list loc) : M (list loc) :=
  match os with
  | [] => ret wins
  | o :: os' =>
      wino <- deref o ;;
      r <- crop_first self_data wino ;;
      match r with
      | Some w =>
          l <- alloc w ;;
          cropTo_loop self_data os' (S nwino) (wins ++ [l])
      | None => raise (UltracamError (crop_window_msg nwino))
      end
  end.

(** [CCD.cropTo] *)
Definition cropTo (self ccd : cref) : M cref :=
  s <- get self ;;
  o <- get ccd ;;
  if negb (nxmax s =? nxmax o)%Z || negb (nymax s =? nymax o)%Z
  then raise (UltracamError crop_dims_msg)
  else
    wins <- cropTo_loop (_data s) (_data o) 0 [] ;;
    __init__ wins (time s) (nxmax s) (nymax s) (good s) (head s).

(** ** Arithmetic *)

(** The right operand of a CCD operator: a CCD ([isinstance(other, CCD)])
    or a scalar. *)
Inductive operand : Type :=
| OCCD (c : cref)
| OScalar (s : Q).

(** The in-place loop over [zip(self._data, other._data)]. *)
Fixpoint iop_zip (op : binop) (ps : list (loc * loc)) : M unit :=
  match ps with
  | [] => ret tt
  | (l, lo) :: ps' =>
      owin <- deref lo ;;
      win_iop op l (WWin owin) ;;;
      iop_zip op ps'
  end.

(** The in-place loop over [self._data] with a scalar. *)
Fixpoint iop_each (op : binop) (ls : list loc) (s : Q) : M unit :=
  match ls with
  | [] => ret tt
  | l :: ls' =>
      win_iop op l (WScalar s) ;;;
      iop_each op ls' s
  end.

(** The common body of [__iadd__], [__isub__], [__imul__], [__idiv__]. *)
Definition inplace (op : binop) (self : cref) (other : operand) : M cref :=
  s <- get self ;;
  match other with
  | OCCD c => o <- get c ;; iop_zip op (zip (_data s) (_data o))
  | OScalar x => iop_each op (_data s) x
  end ;;;
  ret self.

Definition __iadd__ : cref -> operand -> M cref := inplace Add.
Definition __isub__ : cref -> operand -> M cref := inplace Sub.
Definition __imul__ : cref -> operand -> M cref := inplace Mul.
Definition __idiv__ : cref -> operand -> M cref := inplace Div.

(** The value-returning loop over [zip(self._data, other._data)]. *)
Fixpoint op_zip (op : binop) (ps : list (loc * loc)) (twins : list loc)
    : M (list loc) :=
  match ps with
  | [] => ret twins
  | (l, lo) :: ps' =>
      win <- deref l ;;
      owin <- deref lo ;;
      w <- lift (w_arith op win (WWin owin)) ;;
      t <- alloc w ;;
      op_zip op ps' (twins ++ [t])
  end.

(** The value-returning loop over [self._data] with a scalar. *)
Fixpoint op_each (op : binop) (ls : list loc) (s : Q) (twins : list loc)
    : M (list loc) :=
  match ls with
  | [] => ret twins
  | l :: ls' =>
      win <- deref l ;;
      w <- lift (w_arith op win (WScalar s)) ;;
      t <- alloc w ;;
      op_each op ls' s (twins ++ [t])
  end.

(** [other.good]: a CCD has the attribute, a number has not. *)
Definition getattr_good (other : operand) : M bool :=
  match other with
  | OCCD c => o <- get c ;; ret (good o)
  | OScalar _ => raise (AttributeError "good")
  end.

(** [self.good and other.good]: [and] evaluates its right operand only
    when the left one is true. *)
Definition good_and (s : CCD) (other : operand) : M bool :=
  if good s then getattr_good other else ret false.

(** The common body of [__add__], [__sub__], [__mul__], [__div__]. *)
Definition binary (op : binop) (self : cref) (other : operand) : M cref :=
  s <- get self ;;
  twins <- match other with
           | OCCD c => o <- get c ;; op_zip op (zip (_data s) (_data o)) []
           | OScalar x => op_each op (_data s) x []
           end ;;
  g <- good_and s other ;;
  __init__ twins (time s) (nxmax s) (nymax s) g (head s).

Definition __add__ : cref -> operand -> M cref := binary Add.
Definition __sub__ : cref -> operand -> M cref := binary Sub.
Definition __mul__ : cref -> operand -> M cref := binary Mul.
Definition __div__ : cref -> operand -> M cref := binary Div.

(** The loop of the reflected operators: [other op win]. *)
Fixpoint rop_each (op : binop) (ls : list loc) (s : Q) (twins : list loc)
    : M (list loc) :=
  match ls with
  | [] => ret twins
  | l :: ls' =>
      win <- deref l ;;
      w <- lift (w_rarith op s win) ;;
      t <- alloc w ;;
      rop_each op ls' s (twins ++ [t])
  end.

(** The common body of [__radd__], [__rsub__], [__rmul__], [__rdiv__];
    Python calls them with the left operand, a number, as [other]. *)
Definition reflected (op : binop) (self : cref) (other : Q) : M cref :=
  s <- get self ;;
  twins <- rop_each op (_data s) other [] ;;
  g <- good_and s (OScalar other) ;;
  __init__ twins (time s) (nxmax s) (nymax s) g (head s).

Definition __radd__ : cref -> Q -> M cref := reflected Add.
Definition __rsub__ : cref -> Q -> M cref := reflected Sub.
Definition __rmul__ : cref -> Q -> M cref := reflected Mul.
Definition __rdiv__ : cref -> Q -> M cref := reflected Div.

End CCD.

(** ** Helpers for stating properties *)

(** The sum of a list of scalars, added left to right from [0]. *)
Definition Qsum (xs : list Q) : Q := fold_left Qplus xs 0%Q.

(** [q] is a binary64 number: rounding leaves it as it is. *)
Definition is_binary64 (q : Q) : bool :=
  match round q with
  | Finite r => Qeq_bool r q
  | _ => false
  end.

Section Views.

Context {Window Time Uhead : Type}.

(** Every reference of [ls] has a Window object behind it. *)
Definition valid (st : store Window Time Uhead) (ls : list loc) : Prop :=
  Forall (fun l => l < length (heap st)) ls.

(** The Window objects behind the references [ls], in order. *)
Definition windows (st : store Window Time Uhead) (ls : list loc)
    : list Window :=
  omap (fun l => heap st !! l) ls.

(** The pixels of the Windows behind [ls], pooled into one sequence. *)
Definition pooled `{WindowOps Window} (st : store Window Time Uhead)
    (ls : list loc) : list Q :=
  concat (map w_flatten (windows st ls)).

End Views.

Section Readings.

Context {Window Time Uhead : Type} `{WindowOps Window}.

(** Equality as the specification words it in its notes on truncation:
    the Windows are paired up to the length of the shorter sequence and
    only those pairs are compared, with [nxmax] and [nymax]; the window
    counts decide nothing. *)
Definition eq_truncating (self other : cref) : M Window Time Uhead bool :=
  s <- get self ;;
  o <- get other ;;
  if negb (nxmax s =? nxmax o)%Z || negb (nymax s =? nymax o)%Z
  then ret false
  else eq_windows (zip (_data s) (_data o)).

(** The store after one turn of the loop of [toInt] on the Window object
    at [l], whose contents were [w]: a warning when [w] is out of range,
    and the conversion in either case. *)
Definition toInt_turn (st : store Window Time Uhead) (l : loc) (w : Window)
    : store Window Time Uhead :=
  mkStore (<[l := w_totype uint16 w]> (heap st)) (ccds st)
    (warnings st ++ (if out_of_range w then [toInt_warning] else [])).

(** Some Window of [ws] can be cropped to [wo]. *)
Definition croppable (ws : list Window) (wo : Window) : bool :=
  existsb (fun w => w_canCropTo w wo) ws.

(** The first Window of [ws] that can be cropped to [wo], cropped. *)
Definition first_crop (ws : list Window) (wo : Window) : option Window :=
  match List.find (fun w => w_canCropTo w wo) ws with
  | Some w => Some (w_cropTo w wo)
  | None => None
  end.

(** What the loop of [cropTo] does to the targets [os], counted from
    [nwino]: the Windows it creates, and the index it gives up at. *)
Fixpoint crop_plan (ws os : list Window) (nwino : nat)
    : list Window * option nat :=
  match os with
  | [] => ([], None)
  | wo :: os' =>
      match first_crop ws wo with
      | Some w =>
          let (news, stop) := crop_plan ws os' (S nwino) in (w :: news, stop)
      | None => ([], Some nwino)
      end
  end.

(** A computation that leaves the CCD objects and the warnings alone,
    creates no Window object, and writes to no Window object outside
    [ls], whether it answers or raises. *)
Definition frames {A : Type} (ls : list loc) (m : M Window Time Uhead A)
    : Prop :=
  forall st r st',
    m st = (r, st') ->
    ccds st' = ccds st /\
    warnings st' = warnings st /\
    length (heap st') = length (heap st) /\
    forall l, l ∉ ls -> heap st' !! l = heap st !! l.


(** What a loop that creates one Window per element of [xs] does: the
    Windows it creates, and the exception it stops at. *)
Fixpoint arith_plan {X : Type} (f : X -> result Window) (xs : list X)
    : list Window * option exn :=
  match xs with
  | [] => ([], None)
  | x :: xs' =>
      match f x with
      | Ok w => let (news, stop) := arith_plan f xs' in (w :: news, stop)
      | Raise e => ([], Some e)
      end
  end.

(** The outcome shared by the value-returning loops: the Windows of the
    plan are appended to the heap, and their references to [twins]. *)
Definition planned (st : store Window Time Uhead) (twins : list loc)
    (plan : list Window * option exn)
    : result (list loc) * store Window Time Uhead :=
  (match snd plan with
   | None => Ok (twins ++ seq (length (heap st)) (length (fst plan)))
   | Some e => Raise e
   end,
   mkStore (heap st ++ fst plan) (ccds st) (warnings st)).

(** What the value-returning operators do with a scalar operand, once the
    loop over the Windows is through: [other.good] is looked up on the
    scalar when [self.good] is true. *)
Definition scalar_outcome (st : store Window Time Uhead)
    (c : CCD Time Uhead) (plan : list Window * option exn)
    : result cref * store Window Time Uhead :=
  match plan with
  | (news, Some e) =>
      (Raise e, mkStore (heap st ++ news) (ccds st) (warnings st))
  | (news, None) =>
      if good c
      then (Raise (AttributeError "good"),
            mkStore (heap st ++ news) (ccds st) (warnings st))
      else (Ok (length (ccds st)),
            mkStore (heap st ++ news)
              (ccds st ++ [mkCCD (seq (length (heap st)) (length news))
                             (time c) (nxmax c) (nymax c) false (head c)])
              (warnings st))
  end.

(** The operand of a CCD operator names a CCD object whose Windows
    exist. *)
Definition operand_valid (st : store Window Time Uhead) (other : operand)
    : Prop :=
  match other with
  | OCCD c => exists o, ccds st !! c = Some o /\ valid st (_data o)
  | OScalar _ => True
  end.

End Readings.

(** ** The rest of [CCD.py]

    The constructor and the [data] property with the arguments Python
    lets a caller pass, [median] and [centile], and further down the two
    methods that describe a CCD as text.  [__getitem__] and
    [__setitem__] index and mutate the list object itself, with Python's
    rules for indices and its [IndexError], and [plot] draws on a
    graphics device: they are not embedded. *)

(** A value a caller can pass where a Window or a header is expected: a
    Window object, a header, [None], or an object of any other type. *)
Inductive pyval (Uhead : Type) : Type :=
| VWindow (l : loc)
| VUhead (h : Uhead)
| VNone
| VOther (repr : string).
Arguments VWindow {Uhead} l.
Arguments VUhead {Uhead} h.
Arguments VNone {Uhead}.
Arguments VOther {Uhead} repr.

(** [isinstance(v, Window)] *)
Definition isinstance_Window {Uhead : Type} (v : pyval Uhead) : bool :=
  match v with VWindow _ => true | _ => false end.

(** [isinstance(v, Uhead)] *)
Definition isinstance_Uhead {Uhead : Type} (v : pyval Uhead) : bool :=
  match v with VUhead _ => true | _ => false end.

(** [v is not None] *)
Definition is_not_None {Uhead : Type} (v : pyval Uhead) : bool :=
  match v with VNone => false | _ => true end.

(** The references of the Windows among [wins]; every element, once
    [isinstance] let each one through. *)
Definition window_refs {Uhead : Type} (wins : list (pyval Uhead)) : list loc :=
  omap (fun v => match v with VWindow l => Some l | _ => None end) wins.

(** The header a checked value stands for. *)
Definition header_of {Uhead : Type} (head : pyval Uhead) : option Uhead :=
  match head with VUhead h => Some h | _ => None end.

(** What a call into numpy gives the method that makes it, as its last
    action: a value, or an exception of numpy's own, which leaves the
    method as it is.  ([exn] lists what the code of [CCD.py] raises.) *)
Inductive np_outcome (A : Type) : Type :=
| NpValue (a : A)
| NpRaises (what : string).
Arguments NpValue {A} a.
Arguments NpRaises {A} what.

Definition np_bind {A B : Type} (o : np_outcome A) (f : A -> np_outcome B)
    : np_outcome B :=
  match o with
  | NpValue a => f a
  | NpRaises what => NpRaises what
  end.

(** Percentiles, asked for or answered: one number or a sequence. *)
Inductive pcents : Type :=
| PNumber (q : Q)
| PSequence (qs : list Q).

(** The argument [pcent] of [centile]: text, or percentiles. *)
Inductive pcent_arg : Type :=
| PText (s : string)
| PNumeric (p : pcents).

(** The functions of numpy that [CCD.py] calls; numpy is not part of the
    repository, so they are parameters. *)
Class NumpyOps : Type := {
  np_concatenate : list (list Q) -> np_outcome (list Q);
  np_median : list Q -> np_outcome Q;
  np_percentile : list Q -> pcents -> np_outcome pcents
}.

(** The double quote, for messages that hold one. *)
Definition dquote : string := String (Ascii.ascii_of_nat 34) EmptyString.

Section Rest.

Context {Window Time Uhead : Type} `{WindowOps Window} `{NumpyOps}.

#[local] Abbreviation CCD := (CCD Time Uhead).
#[local] Abbreviation M := (M Window Time Uhead).

(** The loop [for win in wins: if not isinstance(win, Window): raise]. *)
Fixpoint check_windows (msg : string) (wins : list (pyval Uhead)) : M unit :=
  match wins with
  | [] => ret tt
  | win :: wins' =>
      if negb (isinstance_Window win) then raise (UltracamError msg)
      else check_windows msg wins'
  end.

Definition init_windows_msg : string :=
  "CCD.__init__: all windows must be Windows.".

Definition init_head_msg : string :=
  "CCD.__init__: head should be a Uhead (or None).".

(** [CCD(wins, time, nxmax, nymax, good, head)] on the arguments as a
    caller passes them: the two checks of [CCD.__init__], then the
    assignments. *)
Definition new_CCD (wins : list (pyval Uhead)) (time : Time)
    (nxmax nymax : Z) (good : bool) (head : pyval Uhead) : M cref :=
  check_windows init_windows_msg wins ;;;
  (if is_not_None head && negb (isinstance_Uhead head)
   then raise (UltracamError init_head_msg)
   else ret tt) ;;;
  __init__ (window_refs wins) time nxmax nymax good (header_of head).

(** Assigning to an attribute of the CCD object at [c]: the object is
    replaced by [o]. *)
Definition put (c : cref) (o : CCD) : M unit :=
  fun st => (Ok tt, mkStore (heap st) (<[c := o]> (ccds st)) (warnings st)).

(** The property [CCD.data] *)
Definition data (self : cref) : M (list loc) :=
  s <- get self ;;
  ret (_data s).

Definition data_msg : string := "CCD.data: wins must be a list of Windows.".

(** The setter of [CCD.data] *)
Definition data_setter (self : cref) (wins : list (pyval Uhead)) : M unit :=
  check_windows data_msg wins ;;;
  s <- get self ;;
  put self (mkCCD (window_refs wins) (time s) (nxmax s) (nymax s) (good s)
              (head s)).

(** The property [CCD.nwin] *)
Definition nwin (self : cref) : M nat :=
  s <- get self ;;
  ret (length (_data s)).

(** [CCD.median] *)
Definition median (self : cref) : M (np_outcome Q) :=
  s <- get self ;;
  larr <- flatten_loop (_data s) [] ;;
  ret (np_bind (np_concatenate larr) np_median).

Definition centile_msg : string :=
  ("CCD.centile: argument " ++ dquote ++ "pcent" ++ dquote
     ++ " cannot be a string")%string.

(** [CCD.centile] *)
Definition centile (self : cref) (pcent : pcent_arg)
    : M (np_outcome pcents) :=
  match pcent with
  | PText _ => raise (UltracamError centile_msg)
  | PNumeric p =>
      s <- get self ;;
      larr <- flatten_loop (_data s) [] ;;
      ret (np_bind (np_concatenate larr) (fun arr => np_percentile arr p))
  end.

End Rest.

(** ** Text *)

(** What [CCD.py] asks of its components to describe itself:
    [str(win)], [win.format()] and [str(head)]. *)
Class TextOps (Window Uhead : Type) : Type := {
  w_str : Window -> string;
  w_format : Window -> string;
  head_str : Uhead -> string
}.

Definition newline : string := String (Ascii.ascii_of_nat 10) EmptyString.

(** [str(z)] for an integer and [str(b)] for a boolean. *)
Definition str_int (z : Z) : string := NilZero.string_of_int (Z.to_int z).
Definition str_bool (b : bool) : string := if b then "True" else "False".

(** The strings of a list, one after the other. *)
Definition joined (xs : list string) : string :=
  fold_right String.append EmptyString xs.

Section Text.

Context {Window Time Uhead : Type} `{WindowOps Window}
  `{TextOps Window Uhead}.

#[local] Abbreviation CCD := (CCD Time Uhead).
#[local] Abbreviation M := (M Window Time Uhead).

(** What the loop of [__str__] adds for the Window [win] at index
    [nwin]. *)
Definition str_block (nwin : nat) (win : Window) : string :=
  (newline ++ "Window number " ++ str (nwin + 1) ++ ":" ++ newline
     ++ w_str win ++ newline)%string.

(** The loop of [__str__] over [enumerate(self._data)] from [nwin]. *)
Fixpoint str_loop (ls : list loc) (nwin : nat) (ret_ : string) : M string :=
  match ls with
  | [] => ret ret_
  | l :: ls' =>
      win <- deref l ;;
      str_loop ls' (S nwin) (ret_ ++ str_block nwin win)%string
  end.

(** The line [__str__] writes about the CCD itself. *)
Definition dimensions_line (s : CCD) (n : nat) : string :=
  (newline ++ "Dimensions = " ++ str_int (nxmax s) ++ ", "
     ++ str_int (nymax s) ++ ", number of windows = " ++ str n
     ++ ", status = " ++ str_bool (good s) ++ newline)%string.

(** [CCD.__str__] *)
Definition __str__ (self : cref) : M string :=
  s <- get self ;;
  let ret0 := match head s with
              | Some h => head_str h
              | None => EmptyString
              end in
  n <- __len__ self ;;
  str_loop (_data s) 0 (ret0 ++ dimensions_line s n)%string.

(** What the loop of [format] adds for the Window [win] at index
    [nwin]. *)
Definition format_line (nwin : nat) (win : Window) : string :=
  ("Window " ++ str (nwin + 1) ++ " = " ++ w_format win ++ newline)%string.

(** The loop of [format] over [enumerate(self._data)] from [nwin]. *)
Fixpoint format_loop (ls : list loc) (nwin : nat) (ret_ : string)
    : M string :=
  match ls with
  | [] => ret ret_
  | l :: ls' =>
      win <- deref l ;;
      format_loop ls' (S nwin) (ret_ ++ format_line nwin win)%string
  end.

(** [CCD.format] *)
Definition format (self : cref) : M string :=
  s <- get self ;;
  format_loop (_data s) 0 EmptyString.

End Text.

(** ** More helpers for stating properties *)

(** The kind [toFloat] converts to. *)
Definition float_kind (single : bool) : Kind :=
  if single then float32 else float64.

(** The heap after the Window objects [ls] were given the contents [news],
    one after the other, as far as [news] goes. *)
Fixpoint write_all {Window : Type} (ls : list loc) (news : list Window)
    (h : list Window) : list Window :=
  match ls, news with
  | l :: ls', w :: news' => write_all ls' news' (<[l := w]> h)
  | _, _ => h
  end.

Section Effects.

Context {Window Time Uhead : Type}.

(** A computation that leaves every object and the warnings as it found
    them, whether it answers or raises. *)
Definition readonly {A : Type} (m : M Window Time Uhead A) : Prop :=
  forall st, snd (m st) = st.

(** A computation that at most creates objects: the Window and the CCD
    objects it found are unchanged behind their references, and it
    issues no warning, whether it answers or raises. *)
Definition creates_only {A : Type} (m : M Window Time Uhead A) : Prop :=
  forall st r st',
    m st = (r, st') ->
    heap st `prefix_of` heap st' /\
    ccds st `prefix_of` ccds st' /\
    warnings st' = warnings st.

End Effects.

(** ** A concrete Window *)

Module SpecWindow.

(** Modelled from the spec: the Window class ([Window.py] is not among the
    sources).  A rectangular sub-image: the unbinned offset of its
    lower-left corner, its binning factors, its element kind and its pixel
    buffer of [ny] rows of [nx] values. *)
Record Window : Type := mkWindow {
  llx : Z;
  lly : Z;
  xbin : Z;
  ybin : Z;
  dtype : Kind;
  data : list (list Q)
}.

(** Modelled from the spec: the binned dimensions of [Window], the shape
    [(ny, nx)] of the buffer. *)
Definition ny (w : Window) : nat := length (data w).
Definition nx (w : Window) : nat :=
  match data w with
  | [] => 0
  | row :: _ => length row
  end.

(** Modelled from the spec: [Window.flatten], the pixel buffer as a flat
    sequence. *)
Definition flatten (w : Window) : list Q := concat (data w).

(** Modelled from the spec: [Window.size], the pixel count. *)
Definition size (w : Window) : nat := length (flatten w).

(** Modelled from the spec: [Window.sum]. *)
Definition sum (w : Window) : Q := Qsum (flatten w).

(** Modelled from the spec: [Window.min] and [Window.max], the extrema of
    the buffer ([0] for a buffer without pixels). *)
Definition minimum (w : Window) : Q :=
  match flatten w with
  | [] => 0%Q
  | x :: xs => fold_left py_min xs x
  end.
Definition maximum (w : Window) : Q :=
  match flatten w with
  | [] => 0%Q
  | x :: xs => fold_left py_max xs x
  end.

(** Modelled from the spec: the sorting behind [Window.median];
    insertion into a list sorted in ascending order. *)
Fixpoint insert_sorted (x : Q) (xs : list Q) : list Q :=
  match xs with
  | [] => [x]
  | y :: ys => if Qle_bool x y then x :: xs else y :: insert_sorted x ys
  end.

Definition sort (xs : list Q) : list Q := fold_right insert_sorted [] xs.

(** Modelled from the spec: [Window.median], the middle value of the
    sorted pixels, or the mean of the two middle values. *)
Definition median (w : Window) : Q :=
  let xs := sort (flatten w) in
  let n := length xs in
  if Nat.even n
  then Qred ((nth (n / 2 - 1) xs 0 + nth (n / 2) xs 0) / 2)%Q
  else nth (n / 2) xs 0%Q.

(** Modelled from the spec: equality of pixel buffers, the same shape
    and the same values. *)
Fixpoint row_eqb (r1 r2 : list Q) : bool :=
  match r1, r2 with
  | [], [] => true
  | x :: r1', y :: r2' => Qeq_bool x y && row_eqb r1' r2'
  | _, _ => false
  end.
Fixpoint data_eqb (d1 d2 : list (list Q)) : bool :=
  match d1, d2 with
  | [], [] => true
  | r1 :: d1', r2 :: d2' => row_eqb r1 r2 && data_eqb d1' d2'
  | _, _ => false
  end.

(** Modelled from the spec: equality of Windows, "two Windows are equal
    iff position, binning, shape, and all pixel values match exactly". *)
Definition eqb (a b : Window) : bool :=
  (llx a =? llx b)%Z && (lly a =? lly b)%Z
  && (xbin a =? xbin b)%Z && (ybin a =? ybin b)%Z
  && data_eqb (data a) (data b).

(** Modelled from the spec: [Window.__ne__], the negation of equality. *)
Definition ne (a b : Window) : bool := negb (eqb a b).

(** Modelled from the spec: the region of [o] "is fully contained within"
    the region of [w], in unbinned pixels. *)
Definition within (w o : Window) : bool :=
  (llx w <=? llx o)%Z && (lly w <=? lly o)%Z
  && (llx o + xbin o * Z.of_nat (nx o) <=? llx w + xbin w * Z.of_nat (nx w))%Z
  && (lly o + ybin o * Z.of_nat (ny o) <=? lly w + ybin w * Z.of_nat (ny w))%Z.

(** Modelled from the spec: the pixels of [o] start on pixel boundaries
    of [w], so that a crop is an extraction. *)
Definition aligned (w o : Window) : bool :=
  ((llx o - llx w) mod xbin w =? 0)%Z && ((lly o - lly w) mod ybin w =? 0)%Z.

(** Modelled from the spec: the enclosure test [self >= other], "true iff
    other's region (accounting for binning) is fully contained within
    self's region at a compatible or coarser binning". *)
Definition ge (w o : Window) : bool :=
  (xbin o mod xbin w =? 0)%Z && (ybin o mod ybin w =? 0)%Z
  && within w o && aligned w o.

(** Modelled from the spec: [Window.canCropTo], "true iff self can be
    cropped to exactly match other's region/binning". *)
Definition canCropTo (w o : Window) : bool :=
  (xbin w =? xbin o)%Z && (ybin w =? ybin o)%Z
  && within w o && aligned w o.

(** Modelled from the spec: [Window.cropTo], "a new Window whose region
    and binning match other, extracted from self". *)
Definition cropTo (w o : Window) : Window :=
  let x0 := Z.to_nat ((llx o - llx w) / xbin w) in
  let y0 := Z.to_nat ((lly o - lly w) / ybin w) in
  mkWindow (llx o) (lly o) (xbin o) (ybin o) (dtype w)
    (map (fun row => take (nx o) (drop x0 row))
       (take (ny o) (drop y0 (data w)))).

(** Modelled from the spec: "values are rounded to nearest", halves to
    the even neighbour. *)
Definition rint (x : Q) : Z :=
  let f := Qfloor x in
  let d := (x - inject_Z f)%Q in
  if Qlt_bool d (1 # 2) then f
  else if Qlt_bool (1 # 2) d then (f + 1)%Z
  else if Z.even f then f else (f + 1)%Z.

(** Modelled from the spec: [Window.totype], "converts the buffer to the
    requested numeric kind; for integer targets, values are rounded to
    nearest"; an unsigned 16-bit value wraps around. *)
Definition totype (kind : Kind) (w : Window) : Window :=
  mkWindow (llx w) (lly w) (xbin w) (ybin w) kind
    (if is_integer kind
     then map (map (fun x => inject_Z (rint x mod 65536))) (data w)
     else data w).

(** Modelled from the spec: the four operators on pixel values. *)
Definition apply (op : binop) (x y : Q) : Q :=
  Qred match op with
       | Add => x + y
       | Sub => x - y
       | Mul => x * y
       | Div => x / y
       end%Q.

(** Modelled from the spec: two buffers are "of equal shape". *)
Definition same_shape (d1 d2 : list (list Q)) : bool :=
  (length d1 =? length d2)
  && forallb (fun p => length (fst p) =? length (snd p)) (zip d1 d2).

Definition shape_msg : string := "operands could not be broadcast together".

(** Modelled from the spec: the elementwise arithmetic of [Window]
    "against another Window of equal shape or against a scalar"; other
    shapes raise. *)
Definition arith (op : binop) (w : Window) (other : woperand Window)
    : result Window :=
  match other with
  | WScalar s =>
      Ok (mkWindow (llx w) (lly w) (xbin w) (ybin w) (dtype w)
            (map (map (fun x => apply op x s)) (data w)))
  | WWin o =>
      if same_shape (data w) (data o)
      then Ok (mkWindow (llx w) (lly w) (xbin w) (ybin w) (dtype w)
                 (zip_with (zip_with (apply op)) (data w) (data o)))
      else Raise (WindowError shape_msg)
  end.

(** Modelled from the spec: the reflected arithmetic of [Window],
    [scalar op window]. *)
Definition rarith (op : binop) (s : Q) (w : Window) : result Window :=
  Ok (mkWindow (llx w) (lly w) (xbin w) (ybin w) (dtype w)
        (map (map (fun x => apply op s x)) (data w))).

#[global] Instance ops : WindowOps Window := {|
  w_ne := ne;
  w_dtype := dtype;
  w_totype := totype;
  w_min := minimum;
  w_max := maximum;
  w_sum := sum;
  w_median := median;
  w_size := size;
  w_flatten := flatten;
  w_ge := ge;
  w_canCropTo := canCropTo;
  w_cropTo := cropTo;
  w_iarith := arith;
  w_arith := arith;
  w_rarith := rarith
|}.

(** A 1x1-binned Window of the integer kind. *)
Definition window (x y : Z) (d : list (list Q)) : Window :=
  mkWindow x y 1 1 uint16 d.

(** A store holding the given Window and CCD objects. *)
Definition store_of (ws : list Window) (cs : list (CCD nat string))
    : store Window nat string :=
  mkStore ws cs [].

(** *** Fixtures *)

(** A 2x2 Window with every pixel at 500, a 1x1 Window, and a second
    object equal to each. *)
Definition wA : Window := window 0 0 [[500; 500]; [500; 500]]%Q.
Definition wB : Window := window 10 0 [[7]]%Q.

Definition ex_heap : list Window := [wA; wB; wA; wB].

(** CCD 0 lists Windows 0 and 1; CCD 1 lists their copies 2 and 3; CCD 2
    lists Window 0 only; CCD 3 has no Window. *)
Definition ex_ccds : list (CCD nat string) :=
  [ mkCCD [0; 1] 0 100 100 true None;
    mkCCD [2; 3] 0 100 100 true None;
    mkCCD [0] 0 100 100 true None;
    mkCCD [] 0 100 100 true None ].

Definition ex_store : store Window nat string := store_of ex_heap ex_ccds.

(** A 1x1 target inside [wA], and the CCDs of a crop: CCD 0 lists [wA],
    CCD 1 lists the target. *)
Definition wT : Window := window 1 1 [[0]]%Q.
Definition crop_store : store Window nat string :=
  store_of [wA; wT]
    [ mkCCD [0] 0 100 100 true None; mkCCD [1] 0 100 100 true None ].


(** A Window of the 4-byte float kind with a value below 0 and a value
    above 65535, and the CCD that lists it after [wB]. *)
Definition wOut : Window := mkWindow 0 0 1 1 float32 [[-1; 70000]]%Q.
Definition range_store : store Window nat string :=
  store_of [wB; wOut] [ mkCCD [0; 1] 0 100 100 true None ].

(** Two 1x1 Windows on the same pixel with different values, and the CCD
    that lists both. *)
Definition ov1 : Window := window 0 0 [[1]]%Q.
Definition ov2 : Window := window 0 0 [[2]]%Q.
Definition ov_store : store Window nat string :=
  store_of [ov1; ov2] [mkCCD [0; 1] 0 100 100 true None].

(** A CCD whose validity flag is false. *)
Definition flagged_store : store Window nat string :=
  store_of [wA; wB] [mkCCD [0; 1] 0 100 100 false None].

(** CCD 0 lists a 2x2 and a 1x1 Window; CCD 1 lists a third object, a
    2x2 Window, twice: the second pair of Windows differs in shape. *)
Definition mismatch_store : store Window nat string :=
  store_of [wA; wB; wA]
    [ mkCCD [0; 1] 0 100 100 true None; mkCCD [2; 2] 0 100 100 true None ].

(** CCDs 0 and 1 list the same Windows and have the same dimensions, and
    differ in time, validity flag and header; CCD 2 lists the Windows
    the other way round. *)
Definition meta_store : store Window nat string :=
  store_of [wA; wB]
    [ mkCCD [0; 1] 0 100 100 true None;
      mkCCD [0; 1] 7 100 100 false (Some "run045"%string);
      mkCCD [1; 0] 0 100 100 true None ].

(** A Window without pixels, and the CCD that lists it. *)
Definition wNone : Window := window 0 0 [].
Definition blank_store : store Window nat string :=
  store_of [wNone] [mkCCD [0] 0 100 100 true None].

(** *** numpy and text for the examples *)

(** The middle of the sorted values, as in [median] above. *)
Definition middle (xs : list Q) : Q :=
  let s := sort xs in
  let n := length s in
  if Nat.even n
  then Qred ((nth (n / 2 - 1) s 0 + nth (n / 2) s 0) / 2)%Q
  else nth (n / 2) s 0%Q.

(** The value at the rank [p] percent of the way through the sorted
    values, interpolated linearly between the two nearest ranks. *)
Definition at_rank (xs : list Q) (p : Q) : Q :=
  let s := sort xs in
  let pos := (p / 100 * inject_Z (Z.of_nat (length s - 1)))%Q in
  let lo := Z.to_nat (Qfloor pos) in
  let below := nth lo s 0%Q in
  Qred (below + (pos - inject_Z (Qfloor pos))
                * (nth (lo + 1) s below - below))%Q.

Definition is_percent (p : Q) : bool := Qle_bool 0 p && Qle_bool p 100.

Definition percent_msg : string :=
  "Percentiles must be in the range [0, 100]".

(** numpy is not part of the repository; this instance follows its
    documentation and serves to run [median] and [centile] on the
    fixtures.  [np.concatenate] refuses an empty sequence of arrays;
    without a value the median and the percentiles are numpy's [nan],
    which no rational stands for. *)
Definition numpy : NumpyOps := {|
  np_concatenate ls :=
    match ls with
    | [] => NpRaises "need at least one array to concatenate"
    | _ => NpValue (concat ls)
    end;
  np_median xs :=
    match xs with
    | [] => NpRaises "nan"
    | _ => NpValue (middle xs)
    end;
  np_percentile xs p :=
    match xs with
    | [] => NpRaises "nan"
    | _ =>
        match p with
        | PNumber q =>
            if is_percent q then NpValue (PNumber (at_rank xs q))
            else NpRaises percent_msg
        | PSequence qs =>
            if forallb is_percent qs
            then NpValue (PSequence (map (at_rank xs) qs))
            else NpRaises percent_msg
        end
    end
|}.

(** A text for the Windows and headers of the examples: the corner and
    the binned dimensions of a Window, and the header as it is. *)
Definition corner_text (w : Window) : string :=
  (str_int (llx w) ++ "," ++ str_int (lly w) ++ " "
     ++ str (nx w) ++ "x" ++ str (ny w))%string.

Definition texts : TextOps Window string := {|
  w_str := corner_text;
  w_format := corner_text;
  head_str h := h
|}.

End SpecWindow.

(** ** Reasoning about computations *)

Section Proofs.

Context {Window Time Uhead : Type} `{WindowOps Window} `{NumpyOps}
  {text : TextOps Window Uhead}.

#[local] Abbreviation CCD := (CCD Time Uhead).
#[local] Abbreviation store := (store Window Time Uhead).
#[local] Abbreviation M := (M Window Time Uhead).

Lemma bind_ok {A B : Type} (m : M A) (k : A -> M B) (st st' : store) (a : A) :
  m st = (Ok a, st') -> bind m k st = k a st'.
Proof. intros E. unfold bind. now rewrite E. Qed.

Lemma deref_ok (st : store) (l : loc) (w : Window) :
  heap st !! l = Some w -> deref l st = (Ok w, st).
Proof. intros E. unfold deref. now rewrite E. Qed.

Lemma get_ok (st : store) (c : cref) (o : CCD) :
  ccds st !! c = Some o -> get c st = (Ok o, st).
Proof. intros E. unfold get. now rewrite E. Qed.

(** Running a computation whose outcome is known as the first step of a
    [bind]; [run_get] and [run_deref] read an object that is there. *)
Tactic Notation "run" constr(E) := rewrite !(bind_ok _ _ _ _ _ E).
Tactic Notation "run" constr(E) "in" hyp(H) :=
  rewrite !(bind_ok _ _ _ _ _ E) in H.
Tactic Notation "run_get" constr(E) := run (get_ok _ _ _ E).
Tactic Notation "run_get" constr(E) "in" hyp(H) := run (get_ok _ _ _ E) in H.
Tactic Notation "run_deref" constr(E) := run (deref_ok _ _ _ E).
Tactic Notation "run_deref" constr(E) "in" hyp(H) :=
  run (deref_ok _ _ _ E) in H.

Lemma valid_cons (st : store) (l : loc) (ls : list loc) :
  valid st (l :: ls) <->
  (exists w, heap st !! l = Some w) /\ valid st ls.
Proof.
  unfold valid. rewrite Forall_cons. split.
  - intros [L V]. split; [|exact V]. now apply lookup_lt_is_Some_2.
  - intros [[w E] V]. split; [|exact V]. eapply lookup_lt_Some, E.
Qed.

(** *** Equality *)

Lemma eq_windows_spec (st : store) (la lb : list loc) :
  valid st la -> valid st lb ->
  exists r,
    eq_windows (zip la lb) st = (Ok r, st) /\
    (r = true <->
     forall i a b wa wb,
       la !! i = Some a -> lb !! i = Some b ->
       heap st !! a = Some wa -> heap st !! b = Some wb ->
       w_eq wa wb = true).
Proof.
  revert lb. induction la as [|a la IH]; intros lb Va Vb.
  - exists true. split; [reflexivity|]. split; [|reflexivity].
    intros _ i a b wa wb E. now rewrite lookup_nil in E.
  - destruct lb as [|b lb].
    + exists true. split; [reflexivity|]. split; [|reflexivity].
      intros _ i a' b wa wb _ E. now rewrite lookup_nil in E.
    + apply valid_cons in Va as [[wa Ea] Va].
      apply valid_cons in Vb as [[wb Eb] Vb].
      destruct (IH lb Va Vb) as (r & Er & Hr).
      cbn [zip zip_with eq_windows].
      run_deref Ea.
      run_deref Eb.
      destruct (w_ne wa wb) eqn:N.
      * exists false. split; [reflexivity|]. split; [discriminate|].
        intros P. specialize (P 0 a b wa wb eq_refl eq_refl Ea Eb).
        unfold w_eq in P. rewrite N in P. discriminate.
      * exists r. split; [exact Er|]. rewrite Hr. split.
        -- intros P [|i] a' b' wa' wb' Ea' Eb' Ha' Hb'.
           ++ cbn in Ea', Eb'. simplify_eq. unfold w_eq. now rewrite N.
           ++ eapply (P i); eauto.
        -- intros P i a' b' wa' wb' Ea' Eb'. apply (P (S i)); assumption.
Qed.

(** CCD-level equality decides a count mismatch before it looks at any
    Window. *)
Lemma eq_length_mismatch (st : store) (self other : cref) (a b : CCD) :
  ccds st !! self = Some a -> ccds st !! other = Some b ->
  length (_data a) <> length (_data b) ->
  __eq__ self other st = (Ok false, st).
Proof.
  intros Ea Eb L. unfold __eq__.
  run_get Ea.
  run_get Eb.
  apply Nat.eqb_neq in L. rewrite L.
  now rewrite !orb_true_r.
Qed.

(** C4: for CCDs [a] and [b], [a == b] holds iff [nxmax] and [nymax]
    agree, the window counts agree and the i-th windows are equal for
    every index i; [a != b] is the negation of [a == b]. *)
Theorem C4_eq_iff_and_ne_negates (st : store) (self other : cref) (a b : CCD) :
  ccds st !! self = Some a -> ccds st !! other = Some b ->
  valid st (_data a) -> valid st (_data b) ->
  exists r,
    __eq__ self other st = (Ok r, st) /\
    __ne__ self other st = (Ok (negb r), st) /\
    (r = true <->
     nxmax a = nxmax b /\ nymax a = nymax b /\
     length (_data a) = length (_data b) /\
     forall i la lb wa wb,
       _data a !! i = Some la -> _data b !! i = Some lb ->
       heap st !! la = Some wa -> heap st !! lb = Some wb ->
       w_eq wa wb = true).
Proof.
  intros Ea Eb Va Vb.
  assert (exists r, __eq__ self other st = (Ok r, st) /\
    (r = true <->
     nxmax a = nxmax b /\ nymax a = nymax b /\
     length (_data a) = length (_data b) /\
     forall i la lb wa wb,
       _data a !! i = Some la -> _data b !! i = Some lb ->
       heap st !! la = Some wa -> heap st !! lb = Some wb ->
       w_eq wa wb = true)) as (r & Er & Hr).
  { unfold __eq__.
    run_get Ea.
    run_get Eb.
    destruct (Z.eqb_spec (nxmax a) (nxmax b)) as [X|X]; cbn [negb orb].
    2:{ exists false. split; [reflexivity|]. split; [discriminate|].
        intros (X' & _). contradiction. }
    destruct (Z.eqb_spec (nymax a) (nymax b)) as [Y|Y]; cbn [negb orb].
    2:{ exists false. split; [reflexivity|]. split; [discriminate|].
        intros (_ & Y' & _). contradiction. }
    destruct (Nat.eqb_spec (length (_data a)) (length (_data b))) as [L|L];
      cbn [negb].
    2:{ exists false. split; [reflexivity|]. split; [discriminate|].
        intros (_ & _ & L' & _). contradiction. }
    destruct (eq_windows_spec st _ _ Va Vb) as (r & Er & Hr).
    exists r. split; [exact Er|]. rewrite Hr. tauto. }
  exists r. split; [exact Er|]. split; [|exact Hr].
  unfold __ne__. now run Er.
Qed.

(** C2, as amended: for CCDs with different window counts [a == b]
    answers [False]; the count mismatch itself decides the comparison and
    no Window is compared. *)
Theorem C2_eq_count_mismatch_is_false (st : store) (self other : cref)
    (a b : CCD) :
  ccds st !! self = Some a -> ccds st !! other = Some b ->
  length (_data a) <> length (_data b) ->
  __eq__ self other st = (Ok false, st) /\
  __ne__ self other st = (Ok true, st).
Proof.
  intros Ea Eb L.
  pose proof (eq_length_mismatch st self other a b Ea Eb L) as E.
  split; [exact E|]. unfold __ne__. now run E.
Qed.

(** *** Aggregate statistics *)

Lemma windows_cons (st : store) (l : loc) (ls : list loc) (w : Window) :
  heap st !! l = Some w -> windows st (l :: ls) = w :: windows st ls.
Proof. intros E. unfold windows. cbn. now rewrite E. Qed.

Lemma windows_length (st : store) (ls : list loc) :
  valid st ls -> length (windows st ls) = length ls.
Proof.
  induction ls as [|l ls IH]; intros V; [reflexivity|].
  apply valid_cons in V as [[w E] V].
  rewrite (windows_cons _ _ _ _ E). cbn. now rewrite IH.
Qed.



(** *** Floats *)

Lemma Qlt_bool_iff (x y : Q) : Qlt_bool x y = true <-> (x < y)%Q.
Proof.
  unfold Qlt_bool. rewrite negb_true_iff. split.
  - intros L. apply Qnot_le_lt. intros Le. apply Qle_bool_iff in Le. congruence.
  - intros L. apply not_true_is_false. intros Le%Qle_bool_iff.
    exact (Qlt_not_le _ _ L Le).
Qed.

Lemma half_even_Z (x : Q) (z : Z) : (x == inject_Z z)%Q -> half_even x = z.
Proof.
  intros E. unfold half_even.
  assert (Qfloor x = z) as F by (rewrite E; apply Qfloor_Z).
  rewrite F.
  assert (Qlt_bool (x - inject_Z z) (1 # 2) = true) as ->; [|reflexivity].
  apply Qlt_bool_iff. rewrite E. ring_simplify. reflexivity.
Qed.

Lemma magnitude_Z (z : Z) : (magnitude (inject_Z z) == inject_Z (Z.abs z))%Q.
Proof.
  unfold magnitude. destruct (Qlt_bool (inject_Z z) 0) eqn:L.
  - apply Qlt_bool_iff in L. unfold Qlt in L. cbn in L.
    unfold Qeq. cbn. lia.
  - apply not_true_iff_false in L. rewrite Qlt_bool_iff in L.
    unfold Qlt in L. cbn in L. unfold Qeq. cbn. lia.
Qed.

Lemma div_pow2_neg (x : Q) (k : Z) :
  (0 <= k)%Z -> (x / pow2 (- k) == x * inject_Z (2 ^ k))%Q.
Proof.
  intros K. unfold pow2. destruct (Z.leb_spec 0 (- k)) as [L|L].
  - assert (k = 0%Z) as -> by lia.
    change (2 ^ (- 0))%Z with 1%Z. change (2 ^ 0)%Z with 1%Z. field.
  - rewrite Z.opp_involutive. field.
    intros Z0. unfold Qeq in Z0. cbn in Z0.
    pose proof (Z.pow_pos_nonneg 2 k ltac:(lia) K). lia.
Qed.

Lemma mul_pow2_neg (x : Q) (k : Z) :
  (0 <= k)%Z -> (x * inject_Z (2 ^ k) * pow2 (- k) == x)%Q.
Proof.
  intros K. unfold pow2. destruct (Z.leb_spec 0 (- k)) as [L|L].
  - assert (k = 0%Z) as -> by lia.
    change (2 ^ (- 0))%Z with 1%Z. change (2 ^ 0)%Z with 1%Z. ring.
  - rewrite Z.opp_involutive. field.
    intros Z0. unfold Qeq in Z0. cbn in Z0.
    pose proof (Z.pow_pos_nonneg 2 k ltac:(lia) K). lia.
Qed.

Lemma Qred_Z (z : Z) : Qred (inject_Z z) = inject_Z z.
Proof.
  unfold inject_Z, Qred.
  pose proof (Z.ggcd_gcd z 1) as G.
  pose proof (Z.ggcd_correct_divisors z 1) as D.
  destruct (Z.ggcd z 1) as [g [aa bb]]. cbn [fst snd] in *.
  rewrite Z.gcd_1_r in G. subst g. destruct D as [-> D].
  assert (bb = 1%Z) as -> by lia. f_equal. lia.
Qed.

(** The integers up to [2 ** 53] are binary64 numbers. *)
Lemma integer_is_binary64 (z : Z) :
  (Z.abs z <= 2 ^ 53)%Z -> is_binary64 (inject_Z z) = true.
Proof.
  intros B. destruct (Z.eq_dec z 0%Z) as [->|NZ]; [reflexivity|].
  destruct (Z.eq_dec (Z.abs z) (2 ^ 53)%Z) as [Top|NT].
  { assert (z = 2 ^ 53 \/ z = - 2 ^ 53)%Z as [-> | ->] by lia;
      vm_compute; reflexivity. }
  assert (Z.abs z < 2 ^ 53)%Z as B' by lia. clear B NT.
  set (l := Z.log2 (Z.abs z)).
  assert (0 <= l < 53)%Z as Hl.
  { split; [apply Z.log2_nonneg|]. apply Z.log2_lt_pow2; lia. }
  assert (2 ^ l <= Z.abs z < 2 ^ (l + 1))%Z as Bl.
  { unfold l. pose proof (Z.log2_spec (Z.abs z) ltac:(lia)) as Spec.
    rewrite <- Z.add_1_r in Spec. lia. }
  pose proof (Qred_Z z) as R.
  assert (exponent (inject_Z z) = (- (52 - l))%Z) as Ex.
  { unfold exponent. cbn [Qnum Qden inject_Z]. change (Z.log2 1) with 0%Z.
    fold l. replace (l - 0 - 52)%Z with (- (52 - l))%Z by lia.
    assert (Qlt_bool (magnitude (inject_Z z) / pow2 (- (52 - l))) (pow2 52)
            = false) as ->.
    { apply not_true_iff_false. rewrite Qlt_bool_iff.
      apply Qle_not_lt.
      rewrite div_pow2_neg by lia. rewrite magnitude_Z.
      unfold pow2. cbn [Z.leb Z.compare]. rewrite <- inject_Z_mult.
      rewrite <- Zle_Qle.
      replace (2 ^ 52)%Z with (2 ^ l * 2 ^ (52 - l))%Z
        by (rewrite <- Z.pow_add_r by lia; f_equal; lia).
      apply Z.mul_le_mono_nonneg_r; [apply Z.pow_nonneg|]; lia. }
    lia. }
  unfold is_binary64, round, binary64. rewrite R.
  assert (Qeq_bool (inject_Z z) 0 = false) as ->.
  { apply not_true_iff_false. rewrite Qeq_bool_iff. unfold Qeq. cbn. lia. }
  rewrite Ex.
  rewrite (half_even_Z _ (z * 2 ^ (52 - l))).
  2:{ rewrite div_pow2_neg by lia. now rewrite inject_Z_mult. }
  set (r := Qred _).
  assert (r == inject_Z z)%Q as Hr.
  { unfold r. rewrite Qred_correct, inject_Z_mult. apply mul_pow2_neg. lia. }
  assert (Qle_bool (pow2 1024) (magnitude r) = false) as ->.
  { apply not_true_iff_false. rewrite Qle_bool_iff. apply Qlt_not_le.
    assert (magnitude r == inject_Z (Z.abs z))%Q as ->.
    { rewrite <- magnitude_Z. unfold magnitude.
      assert (Qlt_bool r 0 = Qlt_bool (inject_Z z) 0) as ->.
      { unfold Qlt_bool. f_equal.
        destruct (Qle_bool 0 r) eqn:A, (Qle_bool 0 (inject_Z z)) eqn:C;
          try reflexivity.
        - apply Qle_bool_iff in A. rewrite Hr in A.
          apply Qle_bool_iff in A. congruence.
        - apply Qle_bool_iff in C. rewrite <- Hr in C.
          apply Qle_bool_iff in C. congruence. }
      destruct (Qlt_bool (inject_Z z) 0); now rewrite Hr. }
    unfold pow2. cbn [Z.leb Z.compare]. rewrite <- Zlt_Qlt.
    eapply Z.lt_trans; [exact B'|]. apply Z.pow_lt_mono_r; lia. }
  now apply Qeq_bool_iff.
Qed.

Lemma round_Qeq (x y : Q) : (x == y)%Q -> round x = round y.
Proof.
  intros E. unfold round, binary64. now rewrite (Qred_complete _ _ E).
Qed.


Lemma is_binary64_round (q : Q) :
  is_binary64 q = true -> exists r, round q = Finite r /\ (r == q)%Q.
Proof.
  unfold is_binary64. destruct (round q) as [r| |]; try discriminate.
  intros E. exists r. split; [reflexivity|]. now apply Qeq_bool_iff.
Qed.

Section MeanContract.

(** The clauses of the Window contract that [mean] relies on: [sum] adds
    up the pixels that [flatten] lists, and [size] counts them. *)
Hypothesis sum_flatten : forall w : Window, (w_sum w == Qsum (w_flatten w))%Q.
Hypothesis size_flatten : forall w : Window, w_size w = length (w_flatten w).




End MeanContract.

(** The arrays that [median] and [centile] concatenate are the flattened
    windows, in order: their concatenation is the pooled pixels of
    [mean]. *)
Lemma flatten_loop_spec (st : store) (ls : list loc) (larr : list (list Q)) :
  valid st ls ->
  exists larr',
    flatten_loop ls larr st = (Ok larr', st) /\
    concat larr' = concat larr ++ pooled st ls.
Proof.
  revert larr. induction ls as [|l ls IH]; intros larr V.
  - exists larr. split; [reflexivity|]. cbn. now rewrite app_nil_r.
  - apply valid_cons in V as [[w E] V].
    destruct (IH (larr ++ [w_flatten w]) V) as (larr' & El & Cl).
    exists larr'. cbn [flatten_loop]. run_deref E. split; [exact El|].
    rewrite Cl. unfold pooled. rewrite (windows_cons _ _ _ _ E).
    cbn [map concat]. rewrite concat_app. cbn [concat].
    now rewrite app_nil_r, <- app_assoc.
Qed.

(** C9: for a CCD without windows, [min()] and [max()] return [None] and
    raise nothing, and [mean()] raises a division-by-zero error. *)
Theorem C9_statistics_of_empty_ccd (st : store) (self : cref) (c : CCD) :
  ccds st !! self = Some c -> _data c = [] ->
  min self st = (Ok None, st) /\
  max self st = (Ok None, st) /\
  mean self st = (Raise ZeroDivisionError, st).
Proof.
  intros E D. unfold min, max, mean.
  run_get E. rewrite D.
  repeat split.
Qed.

(** *** Conversion to integers *)

Lemma toInt_loop_cons (st : store) (l : loc) (ls : list loc) (w : Window) :
  heap st !! l = Some w ->
  toInt_loop (l :: ls) st = toInt_loop ls (toInt_turn st l w).
Proof.
  intros E. cbn [toInt_loop].
  run_deref E.
  unfold toInt_turn, warn, ret, win_totype, deref, assign, bind.
  destruct (out_of_range w); cbn; rewrite E; cbn; [reflexivity|].
  now rewrite app_nil_r.
Qed.

Lemma toInt_turn_valid (st : store) (l : loc) (w : Window) (ls : list loc) :
  valid st ls -> valid (toInt_turn st l w) ls.
Proof. unfold valid, toInt_turn. cbn. now rewrite length_insert. Qed.

Lemma toInt_loop_ok (st : store) (ls : list loc) :
  valid st ls ->
  exists st',
    toInt_loop ls st = (Ok tt, st') /\
    ccds st' = ccds st /\
    length (heap st') = length (heap st).
Proof.
  revert st. induction ls as [|l ls IH]; intros st V.
  - exists st. now cbn.
  - apply valid_cons in V as [[w E] V].
    destruct (IH (toInt_turn st l w) (toInt_turn_valid _ _ _ _ V))
      as (st' & E' & C & L).
    exists st'. rewrite (toInt_loop_cons _ _ _ _ E). split; [exact E'|].
    split; [exact C|]. rewrite L. cbn. apply length_insert.
Qed.

Lemma toInt_loop_snoc (st : store) (ls : list loc) (l : loc) :
  valid st (ls ++ [l]) ->
  exists sti w,
    toInt_loop ls st = (Ok tt, sti) /\
    heap sti !! l = Some w /\
    toInt_loop (ls ++ [l]) st = (Ok tt, toInt_turn sti l w).
Proof.
  revert st. induction ls as [|l0 ls IH]; intros st V.
  - cbn [app] in *. apply valid_cons in V as [[w E] _].
    exists st, w. split; [reflexivity|]. split; [exact E|].
    now rewrite (toInt_loop_cons _ _ _ _ E).
  - cbn [app] in *. apply valid_cons in V as [[w0 E0] V].
    destruct (IH (toInt_turn st l0 w0) (toInt_turn_valid _ _ _ _ V))
      as (sti & w & E1 & E2 & E3).
    exists sti, w. rewrite !(toInt_loop_cons _ _ _ _ E0). auto.
Qed.

Lemma toInt_loop_frame (st st' : store) (ls : list loc) (l : loc) :
  valid st ls -> toInt_loop ls st = (Ok tt, st') ->
  l ∉ ls -> heap st' !! l = heap st !! l.
Proof.
  revert st. induction ls as [|l0 ls IH]; intros st V E N.
  - cbn in E. unfold ret in E. now simplify_eq.
  - apply valid_cons in V as [[w0 E0] V].
    rewrite (toInt_loop_cons _ _ _ _ E0) in E.
    apply not_elem_of_cons in N as [N0 N].
    rewrite (IH _ (toInt_turn_valid _ _ _ _ V) E N). cbn.
    now apply list_lookup_insert_ne.
Qed.

Lemma windows_insert_notin (st : store) (ls : list loc) (l : loc)
    (w : Window) (cs : list CCD) (ws : list string) :
  l ∉ ls ->
  windows (mkStore (<[l := w]> (heap st)) cs ws) ls = windows st ls.
Proof.
  induction ls as [|l0 ls IH]; intros N; [reflexivity|].
  apply not_elem_of_cons in N as [N0 N].
  unfold windows in *. cbn [omap list_omap heap].
  rewrite list_lookup_insert_ne by congruence.
  cbn [heap] in IH. now rewrite (IH N).
Qed.

Section TotypeContract.

(** The clause of the Window contract that [toInt] relies on: [totype]
    gives the Window the requested kind. *)
Hypothesis totype_kind :
  forall (k : Kind) (w : Window), w_dtype (w_totype k w) = k.

Lemma toInt_loop_uint16 (st st' : store) (ls : list loc) :
  valid st ls -> toInt_loop ls st = (Ok tt, st') ->
  (forall l w, heap st !! l = Some w -> w_dtype w = uint16 ->
     exists w', heap st' !! l = Some w' /\ w_dtype w' = uint16) /\
  (forall l, l ∈ ls ->
     exists w', heap st' !! l = Some w' /\ w_dtype w' = uint16).
Proof.
  revert st. induction ls as [|l0 ls IH]; intros st V E.
  - cbn in E. unfold ret in E. simplify_eq. split; [eauto|]. intros l Hl.
    now apply elem_of_nil in Hl.
  - apply valid_cons in V as [[w0 E0] V].
    rewrite (toInt_loop_cons _ _ _ _ E0) in E.
    destruct (IH _ (toInt_turn_valid _ _ _ _ V) E) as [Keep Done].
    assert (heap (toInt_turn st l0 w0) !! l0 = Some (w_totype uint16 w0))
      as Turned.
    { cbn. apply list_lookup_insert_eq. eapply lookup_lt_Some, E0. }
    split.
    + intros l w El Kw. destruct (decide (l = l0)) as [->|N].
      * eapply Keep; [exact Turned|apply totype_kind].
      * eapply (Keep l w); [|exact Kw]. cbn.
        rewrite list_lookup_insert_ne by congruence. exact El.
    + intros l Hl. apply elem_of_cons in Hl as [->|Hl].
      * eapply Keep; [exact Turned|apply totype_kind].
      * now apply Done.
Qed.

Lemma toInt_loop_distinct (st st' : store) (ls : list loc) :
  valid st ls -> NoDup ls -> toInt_loop ls st = (Ok tt, st') ->
  warnings st'
  = warnings st
    ++ flat_map (fun w => if out_of_range w then [toInt_warning] else [])
         (windows st ls) /\
  (forall l w, l ∈ ls -> heap st !! l = Some w ->
     heap st' !! l = Some (w_totype uint16 w)).
Proof.
  revert st. induction ls as [|l0 ls IH]; intros st V D E.
  - cbn in E. unfold ret in E. simplify_eq. cbn. rewrite app_nil_r.
    split; [reflexivity|].
    intros l w Hl. now apply elem_of_nil in Hl.
  - apply valid_cons in V as [[w0 E0] V].
    apply NoDup_cons in D as [N0 D].
    rewrite (toInt_loop_cons _ _ _ _ E0) in E.
    pose proof (toInt_turn_valid st l0 w0 ls V) as V1.
    destruct (IH _ V1 D E) as [W Conv].
    split.
    + rewrite W, (windows_cons _ _ _ _ E0). cbn [flat_map].
      unfold toInt_turn at 2. rewrite windows_insert_notin by exact N0.
      cbn [warnings toInt_turn]. now rewrite <- app_assoc.
    + intros l w Hl El. apply elem_of_cons in Hl as [->|Hl].
      * rewrite (toInt_loop_frame _ _ _ _ V1 E N0). cbn.
        assert (w = w0) as -> by congruence.
        apply list_lookup_insert_eq. eapply lookup_lt_Some, E0.
      * apply Conv; [exact Hl|]. cbn.
        rewrite list_lookup_insert_ne; [exact El|].
        intros ->. contradiction.
Qed.

(** On a CCD without windows [toInt()] does nothing and [anyInt()]
    answers [False]. *)
Lemma toInt_then_anyInt_empty (st : store) (self : cref) (c : CCD) :
  ccds st !! self = Some c -> _data c = [] ->
  bind (toInt self) (fun _ => anyInt self) st = (Ok false, st).
Proof.
  intros E D. unfold toInt, anyInt, bind, get. rewrite E, D. cbn.
  now rewrite E, D.
Qed.

(** C7, as amended: for every CCD with at least one window, [toInt()]
    followed by [anyInt()] answers [True].  [toInt()] raises nothing and
    converts every window to the unsigned 16-bit kind; the turn of the
    loop on a window warns exactly when the contents it finds are out of
    range, and converts in either case.  When no Window object is listed
    twice the contents found are the original ones, so there is one
    warning per window that was out of range. *)
Theorem C7_toInt_then_anyInt (st : store) (self : cref) (c : CCD) :
  ccds st !! self = Some c -> _data c <> [] -> valid st (_data c) ->
  exists st',
    toInt self st = (Ok tt, st') /\
    anyInt self st' = (Ok true, st') /\
    ccds st' = ccds st /\
    (forall l, l ∈ _data c ->
       exists w', heap st' !! l = Some w' /\ w_dtype w' = uint16) /\
    (forall i l, _data c !! i = Some l ->
       exists sti w,
         toInt_loop (take i (_data c)) st = (Ok tt, sti) /\
         heap sti !! l = Some w /\
         toInt_loop (take (S i) (_data c)) st
         = (Ok tt, toInt_turn sti l w)) /\
    (NoDup (_data c) ->
       warnings st'
       = warnings st
         ++ flat_map (fun w => if out_of_range w then [toInt_warning] else [])
              (windows st (_data c)) /\
       forall l w, l ∈ _data c -> heap st !! l = Some w ->
         heap st' !! l = Some (w_totype uint16 w)).
Proof.
  intros Ec Ne V.
  destruct (toInt_loop_ok st (_data c) V) as (st' & E & C & L).
  destruct (toInt_loop_uint16 st st' (_data c) V E) as [_ Done].
  exists st'. split.
  { unfold toInt. now run_get Ec. }
  split.
  { unfold anyInt. rewrite <- C in Ec.
    run_get Ec.
    destruct (_data c) as [|l ls] eqn:D; [contradiction|].
    destruct (Done l) as (w' & E' & K'); [apply elem_of_cons; auto|].
    cbn [anyInt_loop]. run_deref E'.
    now rewrite K'. }
  split; [exact C|]. split; [exact Done|]. split.
  - intros i l El. rewrite (take_S_r _ _ _ El).
    apply toInt_loop_snoc. rewrite <- (take_S_r _ _ _ El).
    unfold valid in *. now apply Forall_take.
  - intros D. now apply toInt_loop_distinct.
Qed.

End TotypeContract.

(** *** Cropping *)

(** A store that only gained Window objects reads the old references as
    before. *)
Lemma windows_grow (st : store) (ls : list loc) (news : list Window)
    (cs : list CCD) (ws : list string) :
  valid st ls ->
  windows (mkStore (heap st ++ news) cs ws) ls = windows st ls /\
  valid (mkStore (heap st ++ news) cs ws) ls.
Proof.
  induction ls as [|l ls IH]; intros V.
  - split; [reflexivity|constructor].
  - apply valid_cons in V as [[w E] V]. destruct (IH V) as [IW IV].
    assert (heap (mkStore (heap st ++ news) cs ws) !! l = Some w) as E'.
    { cbn. now apply lookup_app_l_Some. }
    split.
    + now rewrite (windows_cons _ _ _ _ E'), (windows_cons _ _ _ _ E), IW.
    + apply valid_cons. eauto.
Qed.

Lemma crop_first_spec (st : store) (ls : list loc) (wino : Window) :
  valid st ls ->
  crop_first ls wino st = (Ok (first_crop (windows st ls) wino), st).
Proof.
  induction ls as [|l ls IH]; intros V; [reflexivity|].
  apply valid_cons in V as [[w E] V].
  cbn [crop_first]. run_deref E.
  rewrite (windows_cons _ _ _ _ E). unfold first_crop. cbn [List.find].
  destruct (w_canCropTo w wino); [reflexivity|].
  rewrite (IH V). reflexivity.
Qed.

Lemma cropTo_loop_spec (st : store) (sd os : list loc) (nwino : nat)
    (wins : list loc) :
  valid st sd -> valid st os ->
  cropTo_loop sd os nwino wins st
  = (match snd (crop_plan (windows st sd) (windows st os) nwino) with
     | None =>
         Ok (wins ++ seq (length (heap st))
                       (length (fst (crop_plan (windows st sd)
                                       (windows st os) nwino))))
     | Some k => Raise (UltracamError (crop_window_msg k))
     end,
     mkStore
       (heap st ++ fst (crop_plan (windows st sd) (windows st os) nwino))
       (ccds st) (warnings st)).
Proof.
  revert st nwino wins. induction os as [|o os IH]; intros st nwino wins Vs Vo.
  - cbn. rewrite !app_nil_r. now destruct st.
  - apply valid_cons in Vo as [[wo E] Vo].
    cbn [cropTo_loop]. run_deref E.
    run (crop_first_spec _ _ wo Vs).
    rewrite (windows_cons _ _ _ _ E). cbn [crop_plan].
    destruct (first_crop (windows st sd) wo) as [w|].
    + unfold bind at 1, alloc at 1.
      destruct (windows_grow st sd [w] (ccds st) (warnings st) Vs)
        as [Ws Vs'].
      destruct (windows_grow st os [w] (ccds st) (warnings st) Vo)
        as [Wo Vo'].
      rewrite IH by assumption.
      rewrite Ws, Wo. cbn [heap ccds warnings].
      destruct (crop_plan (windows st sd) (windows st os) (S nwino))
        as [news stop].
      cbn [fst snd length seq]. rewrite <- !app_assoc. cbn [app].
      rewrite length_app. cbn [length]. rewrite Nat.add_1_r.
      reflexivity.
    + cbn. rewrite app_nil_r. now destruct st.
Qed.

(** The plan stops at the first target that no Window can be cropped to. *)
Lemma first_crop_None (ws : list Window) (wo : Window) :
  first_crop ws wo = None <-> croppable ws wo = false.
Proof.
  unfold first_crop, croppable.
  induction ws as [|w ws IH]; cbn; [tauto|].
  destruct (w_canCropTo w wo); cbn; [split; discriminate|exact IH].
Qed.

Lemma first_crop_Some (ws : list Window) (wo w' : Window) :
  first_crop ws wo = Some w' ->
  exists w, List.find (fun w => w_canCropTo w wo) ws = Some w /\
            w' = w_cropTo w wo.
Proof.
  unfold first_crop.
  destruct (List.find (fun w => w_canCropTo w wo) ws) as [w|];
    [|discriminate].
  intros [= <-]. eauto.
Qed.

Lemma crop_plan_stop (ws os : list Window) (nwino k : nat) :
  snd (crop_plan ws os nwino) = Some k <->
  exists i wo,
    k = nwino + i /\ os !! i = Some wo /\ croppable ws wo = false /\
    forall j wj, j < i -> os !! j = Some wj -> croppable ws wj = true.
Proof.
  revert nwino. induction os as [|wo os IH]; intros nwino; cbn [crop_plan].
  - split; [discriminate|]. intros (i & wo & _ & E & _).
    now rewrite lookup_nil in E.
  - destruct (first_crop ws wo) as [w|] eqn:F.
    + destruct (crop_plan ws os (S nwino)) as [news stop] eqn:P.
      cbn [snd]. specialize (IH (S nwino)). rewrite P in IH. cbn [snd] in IH.
      assert (croppable ws wo = true) as C.
      { destruct (croppable ws wo) eqn:C; [reflexivity|].
        apply first_crop_None in C. congruence. }
      rewrite IH. split.
      * intros (i & wi & -> & E & N & Least). exists (S i), wi.
        split; [lia|]. split; [exact E|]. split; [exact N|].
        intros [|j] wj Lt Ej; cbn in Ej.
        -- congruence.
        -- apply (Least j); [lia|exact Ej].
      * intros ([|i] & wi & -> & E & N & Least); cbn in E.
        -- congruence.
        -- exists i, wi. split; [lia|]. split; [exact E|].
           split; [exact N|]. intros j wj Lt Ej.
           apply (Least (S j)); [lia|exact Ej].
    + cbn [snd]. apply first_crop_None in F. split.
      * intros [= <-]. exists 0, wo. split; [lia|]. split; [reflexivity|].
        split; [exact F|]. intros j wj Lt. lia.
      * intros ([|i] & wi & -> & E & N & Least); cbn in E.
        -- f_equal. lia.
        -- specialize (Least 0 wo ltac:(lia) eq_refl). congruence.
Qed.

Lemma crop_plan_done (ws os : list Window) (nwino : nat) :
  snd (crop_plan ws os nwino) = None ->
  length (fst (crop_plan ws os nwino)) = length os /\
  forall i wo, os !! i = Some wo ->
    exists w, List.find (fun w => w_canCropTo w wo) ws = Some w /\
              fst (crop_plan ws os nwino) !! i = Some (w_cropTo w wo).
Proof.
  revert nwino. induction os as [|wo os IH]; intros nwino; cbn [crop_plan].
  - intros _. split; [reflexivity|]. intros i wo E.
    now rewrite lookup_nil in E.
  - destruct (first_crop ws wo) as [w'|] eqn:F; [|discriminate].
    destruct (crop_plan ws os (S nwino)) as [news stop] eqn:P.
    cbn [fst snd]. intros ->. specialize (IH (S nwino)). rewrite P in IH.
    destruct (IH eq_refl) as [L All]. cbn [fst] in *. split.
    + cbn. now rewrite L.
    + intros [|i] wi E; cbn in E.
      * simplify_eq. destruct (first_crop_Some _ _ _ F) as (w & Fw & ->).
        exists w. split; [exact Fw|reflexivity].
      * exact (All i wi E).
Qed.

Lemma find_croppable (ws : list Window) (wo w : Window) :
  List.find (fun w => w_canCropTo w wo) ws = Some w -> croppable ws wo = true.
Proof.
  intros F. destruct (croppable ws wo) eqn:C; [reflexivity|].
  apply first_crop_None in C. unfold first_crop in C. rewrite F in C.
  discriminate.
Qed.

(** C3: [cropTo] raises a domain error iff the maximum dimensions differ
    or some window of [b] has no window of [a] that can be cropped to it,
    and the error then names the 1-based position of the first such
    window: for the window at index [i], counted from 0, the text ends
    in "window", the decimal numeral of [i + 1] and "of other."; on
    success it returns a new CCD with the time, dimensions,
    validity flag and header of [a], whose windows are new objects, each
    the crop of the first window of [a] that can be cropped to the target;
    in every case [a] and its windows are as they were. *)
Theorem C3_cropTo_errors_and_result (st : store) (self other : cref)
    (a b : CCD) :
  ccds st !! self = Some a -> ccds st !! other = Some b ->
  valid st (_data a) -> valid st (_data b) ->
  exists r st',
    cropTo self other st = (r, st') /\
    (ccds st' !! self = Some a /\
     windows st' (_data a) = windows st (_data a) /\
     exists news cs, heap st' = heap st ++ news /\ ccds st' = ccds st ++ cs) /\
    ((exists e, r = Raise e) <->
     nxmax a <> nxmax b \/ nymax a <> nymax b \/
     exists i wo, windows st (_data b) !! i = Some wo /\
                  croppable (windows st (_data a)) wo = false) /\
    (forall e, r = Raise e -> exists msg, e = UltracamError msg) /\
    (nxmax a <> nxmax b \/ nymax a <> nymax b ->
     r = Raise (UltracamError
                  "CCD.crop: maximum dimensions did not match")) /\
    (nxmax a = nxmax b -> nymax a = nymax b ->
     forall i wo,
       windows st (_data b) !! i = Some wo ->
       croppable (windows st (_data a)) wo = false ->
       (forall j wj, j < i -> windows st (_data b) !! j = Some wj ->
                     croppable (windows st (_data a)) wj = true) ->
       r = Raise
             (UltracamError
                ("CCD.crop: could not crop any window of CCD to match window "
                   ++ NilEmpty.string_of_uint (Nat.to_uint (i + 1))
                   ++ " of other.")%string)) /\
    (forall c', r = Ok c' ->
       ccds st !! c' = None /\
       exists wins,
         ccds st' !! c'
         = Some (mkCCD wins (time a) (nxmax a) (nymax a) (good a) (head a)) /\
         length wins = length (_data b) /\
         forall i wo, windows st (_data b) !! i = Some wo ->
           exists l w,
             wins !! i = Some l /\ heap st !! l = None /\
             List.find (fun w => w_canCropTo w wo) (windows st (_data a))
             = Some w /\
             heap st' !! l = Some (w_cropTo w wo)).
Proof.
  intros Ea Eb Va Vb. unfold cropTo.
  run_get Ea.
  run_get Eb.
  destruct (Z.eqb_spec (nxmax a) (nxmax b)) as [X|X]; cbn [negb orb].
  2:{ exists (Raise (UltracamError crop_dims_msg)), st.
      split; [reflexivity|]. split.
      { split; [exact Ea|]. split; [reflexivity|].
        exists [], []. now rewrite !app_nil_r. }
      split; [split; eauto|]. split; [intros e [= <-]; eauto|].
      split; [reflexivity|].
      split; [contradiction|discriminate]. }
  destruct (Z.eqb_spec (nymax a) (nymax b)) as [Y|Y]; cbn [negb].
  2:{ exists (Raise (UltracamError crop_dims_msg)), st.
      split; [reflexivity|]. split.
      { split; [exact Ea|]. split; [reflexivity|].
        exists [], []. now rewrite !app_nil_r. }
      split; [split; eauto|]. split; [intros e [= <-]; eauto|].
      split; [reflexivity|].
      split; [contradiction|discriminate]. }
  unfold bind at 1. rewrite (cropTo_loop_spec _ _ _ _ _ Va Vb).
  set (wa := windows st (_data a)). set (wb := windows st (_data b)).
  destruct (windows_grow st (_data a) (fst (crop_plan wa wb 0)) (ccds st)
              (warnings st) Va) as [Wa _].
  destruct (snd (crop_plan wa wb 0)) as [k|] eqn:Stop.
  - apply crop_plan_stop in Stop as (i & wo & -> & Ei & Ni & Least).
    cbn [Nat.add].
    eexists _, _. split; [reflexivity|]. split.
    { split; [exact Ea|]. split; [exact Wa|].
      exists (fst (crop_plan wa wb 0)), []. cbn [heap ccds].
      rewrite app_nil_r. split; reflexivity. }
    split; [split; eauto 10|]. split; [intros e [= <-]; eauto|].
    split; [intros [N|N]; contradiction|].
    split; [|discriminate].
    intros _ _ i' wo' Ei' Ni' Least'.
    destruct (Nat.lt_trichotomy i i') as [Lt|[->|Lt]].
    + specialize (Least' i wo Lt Ei). congruence.
    + reflexivity.
    + specialize (Least i' wo' Lt Ei'). congruence.
  - destruct (crop_plan_done wa wb 0 Stop) as [Len All].
    set (news := fst (crop_plan wa wb 0)) in *.
    unfold __init__. cbn [app].
    eexists _, _. split; [reflexivity|]. cbn [heap ccds]. split.
    { split; [now apply lookup_app_l_Some|]. split; [|eauto].
      destruct (windows_grow st (_data a) news
                  (ccds st ++ [mkCCD (seq (length (heap st)) (length news))
                                 (time a) (nxmax a) (nymax a) (good a)
                                 (head a)])
                  (warnings st) Va) as [Wa' _].
      exact Wa'. }
    assert (forall i wo, wb !! i = Some wo -> croppable wa wo = true) as Can.
    { intros i wo Ei. destruct (All i wo Ei) as (w & F & _).
      eapply find_croppable, F. }
    split.
    { split; [intros [e [=]]|].
      intros [N|[N|(i & wo & Ei & Ni)]]; [contradiction..|].
      rewrite (Can i wo Ei) in Ni. discriminate. }
    split; [discriminate|].
    split; [intros [N|N]; contradiction|]. split.
    { intros _ _ i wo Ei Ni. rewrite (Can i wo Ei) in Ni. discriminate. }
    intros c' [= <-]. split; [now apply lookup_ge_None_2|].
    eexists. split; [apply list_lookup_middle; reflexivity|].
    split.
    { rewrite length_seq, Len. apply windows_length, Vb. }
    intros i wo Ei. destruct (All i wo Ei) as (w & F & Ni).
    exists (length (heap st) + i), w.
    assert (i < length news) as Lt by (eapply lookup_lt_Some, Ni).
    split; [now apply lookup_seq_lt|].
    split; [apply lookup_ge_None_2; lia|]. split; [exact F|].
    rewrite lookup_app_r by lia.
    now replace (length (heap st) + i - length (heap st)) with i by lia.
Qed.

Lemma find_at (p : Window -> bool) (ws : list Window) (i : nat) (w : Window) :
  ws !! i = Some w -> p w = true ->
  (forall j wj, j < i -> ws !! j = Some wj -> p wj = false) ->
  List.find p ws = Some w.
Proof.
  revert i. induction ws as [|w0 ws IH]; intros i E P Before.
  - now rewrite lookup_nil in E.
  - destruct i as [|i]; cbn in E; cbn [List.find].
    + simplify_eq. now rewrite P.
    + rewrite (Before 0 w0 ltac:(lia) eq_refl).
      apply (IH i E P). intros j wj Lt Ej.
      apply (Before (S j)); [lia|exact Ej].
Qed.

Lemma crop_plan_all (ws os : list Window) (nwino : nat) (f : Window -> Window) :
  (forall wo, wo ∈ os -> first_crop ws wo = Some (f wo)) ->
  crop_plan ws os nwino = (map f os, None).
Proof.
  revert nwino. induction os as [|wo os IH]; intros nwino All; [reflexivity|].
  cbn [crop_plan map]. rewrite (All wo) by (apply elem_of_cons; auto).
  rewrite IH; [reflexivity|].
  intros wo' Hwo. apply All, elem_of_cons. auto.
Qed.

(** The references [seq (length h) (length news)] name the Windows [news]
    appended to the heap [h]. *)
Lemma windows_new (st : store) (news : list Window) (cs : list CCD)
    (ws : list string) :
  windows (mkStore (heap st ++ news) cs ws)
    (seq (length (heap st)) (length news))
  = news.
Proof.
  remember (heap st) as h eqn:Eh. clear Eh.
  revert h. induction news as [|w news IH]; intros h; [reflexivity|].
  cbn [length seq]. unfold windows. cbn [omap list_omap heap].
  rewrite lookup_app_r by lia. rewrite Nat.sub_diag. cbn.
  f_equal. specialize (IH (h ++ [w])).
  unfold windows in IH. cbn [heap] in IH.
  rewrite <- app_assoc, length_app, Nat.add_1_r in IH. exact IH.
Qed.

(** C8, as amended: for a CCD [c] such that [c.canCropTo(c)] holds and no
    window of [c] can be cropped to a later window of [c], as is the case
    for windows that do not overlap, [c.cropTo(c)] succeeds and every
    window of the result equals the corresponding window of [c].  The
    Window contract enters for the windows of [c] only: a window can be
    cropped to itself, and that crop equals the window. *)
Theorem C8_self_crop_identity (st : store) (self : cref) (c : CCD) :
  ccds st !! self = Some c -> valid st (_data c) ->
  canCropTo self self st = (Ok true, st) ->
  (forall w, w ∈ windows st (_data c) ->
     w_canCropTo w w = true /\ w_eq (w_cropTo w w) w = true) ->
  (forall i j wi wj, j < i ->
     windows st (_data c) !! i = Some wi ->
     windows st (_data c) !! j = Some wj ->
     w_canCropTo wj wi = false) ->
  exists c' st' wins,
    cropTo self self st = (Ok c', st') /\
    ccds st' !! c'
    = Some (mkCCD wins (time c) (nxmax c) (nymax c) (good c) (head c)) /\
    Forall2 (fun w' w => w_eq w' w = true)
      (windows st' wins) (windows st (_data c)).
Proof.
  intros Ec V _ Self Apart. unfold cropTo.
  run_get Ec.
  rewrite !Z.eqb_refl. cbn [negb orb].
  unfold bind at 1. rewrite (cropTo_loop_spec _ _ _ _ _ V V).
  set (ws := windows st (_data c)) in *.
  rewrite (crop_plan_all ws ws 0 (fun w => w_cropTo w w)).
  2:{ intros wo Hwo. unfold first_crop.
      apply list_elem_of_lookup in Hwo as [i Ei].
      rewrite (find_at (fun w => w_canCropTo w wo) ws i wo Ei);
        [reflexivity| |].
      - apply Self. eapply list_elem_of_lookup_2, Ei.
      - intros j wj Lt Ej. exact (Apart i j wo wj Lt Ei Ej). }
  cbn [fst snd app]. unfold __init__. cbn [heap ccds warnings].
  eexists _, _, _. split; [reflexivity|]. cbn [ccds].
  split; [apply list_lookup_middle; reflexivity|].
  rewrite windows_new.
  clear -Self. induction ws as [|w ws IH]; cbn [map]; constructor.
  - apply Self, elem_of_cons. auto.
  - apply IH. intros w' Hw'. apply Self, elem_of_cons. auto.
Qed.

(** *** In-place operations write to the listed Windows only *)

Lemma frames_pure {A : Type} (ls : list loc) (m : M A) :
  (forall st, snd (m st) = st) -> frames ls m.
Proof.
  intros P st r st' E. specialize (P st). rewrite E in P. cbn in P.
  subst st'. auto.
Qed.

Lemma frames_ret {A : Type} (ls : list loc) (a : A) :
  frames ls (ret a : M A).
Proof. now apply frames_pure. Qed.

Lemma frames_lift {A : Type} (ls : list loc) (r : result A) :
  frames ls (lift r : M A).
Proof. now apply frames_pure. Qed.

Lemma frames_deref (ls : list loc) (l : loc) :
  frames ls (deref l : M Window).
Proof.
  apply frames_pure. intros st. unfold deref. now destruct (heap st !! l).
Qed.

Lemma frames_get (ls : list loc) (c : cref) : frames ls (get c : M CCD).
Proof.
  apply frames_pure. intros st. unfold get. now destruct (ccds st !! c).
Qed.

Lemma frames_bind {A B : Type} (ls : list loc) (m : M A) (k : A -> M B) :
  frames ls m -> (forall a, frames ls (k a)) -> frames ls (bind m k).
Proof.
  intros Fm Fk st r st' E. unfold bind in E.
  destruct (m st) as [[a|e] st1] eqn:Em.
  - destruct (Fm _ _ _ Em) as (C1 & W1 & L1 & H1).
    destruct (Fk a _ _ _ E) as (C2 & W2 & L2 & H2).
    repeat split; try congruence.
    intros l N. now rewrite (H2 l N), (H1 l N).
  - simplify_eq. exact (Fm _ _ _ Em).
Qed.

Lemma frames_mono {A : Type} (ls ls' : list loc) (m : M A) :
  (forall l, l ∈ ls -> l ∈ ls') -> frames ls m -> frames ls' m.
Proof.
  intros Sub F st r st' E. destruct (F _ _ _ E) as (C & W & L & Hp).
  repeat split; try assumption. intros l N. apply Hp. auto.
Qed.

Lemma frames_assign (l : loc) (w : Window) :
  frames [l] (assign l w : M unit).
Proof.
  intros st r st' E. unfold assign in E. simplify_eq. cbn.
  repeat split; [apply length_insert|].
  intros l' N. apply list_lookup_insert_ne. intros ->.
  apply N, list_elem_of_singleton. reflexivity.
Qed.

Create HintDb frames.
#[local] Hint Resolve frames_ret frames_lift frames_deref frames_get
  frames_assign : frames.

Lemma frames_win_iop (op : binop) (l : loc) (other : woperand Window) :
  frames [l] (win_iop op l other : M unit).
Proof.
  unfold win_iop. repeat (apply frames_bind; [|intros ?]); auto with frames.
Qed.

Lemma frames_at {A : Type} (l : loc) (ls : list loc) (m : M A) :
  l ∈ ls -> frames [l] m -> frames ls m.
Proof.
  intros Hl. apply frames_mono. intros l' Hl'.
  apply list_elem_of_singleton in Hl'. now subst.
Qed.

Lemma frames_tail {A : Type} (l : loc) (ls : list loc) (m : M A) :
  frames ls m -> frames (l :: ls) m.
Proof. apply frames_mono. intros l' Hl'. apply elem_of_cons. auto. Qed.

Lemma frames_iop_zip (op : binop) (ps : list (loc * loc)) :
  frames (map fst ps) (iop_zip op ps : M unit).
Proof.
  induction ps as [|[l lo] ps IH]; [apply frames_ret|].
  cbn [iop_zip map fst].
  apply frames_bind; [apply frames_deref|]. intros owin.
  apply frames_bind.
  - apply (frames_at l); [apply elem_of_cons; auto|apply frames_win_iop].
  - intros _. apply frames_tail, IH.
Qed.

Lemma frames_iop_each (op : binop) (ls : list loc) (s : Q) :
  frames ls (iop_each op ls s : M unit).
Proof.
  induction ls as [|l ls IH]; [apply frames_ret|].
  cbn [iop_each]. apply frames_bind.
  - apply (frames_at l); [apply elem_of_cons; auto|apply frames_win_iop].
  - intros _. apply frames_tail, IH.
Qed.

Lemma frames_rback_loop (ls : list loc) :
  frames ls (rback_loop ls : M unit).
Proof.
  induction ls as [|l ls IH]; [apply frames_ret|].
  cbn [rback_loop]. apply frames_bind; [apply frames_deref|]. intros win.
  apply frames_bind.
  - apply (frames_at l); [apply elem_of_cons; auto|apply frames_win_iop].
  - intros _. apply frames_tail, IH.
Qed.

(** The paired Windows of [self] are among its first [min] Windows. *)
Lemma fst_zip_take (la lb : list loc) (l : loc) :
  l ∈ map fst (zip la lb) ->
  l ∈ take (Nat.min (length la) (length lb)) la.
Proof.
  revert lb. induction la as [|a la IH]; intros lb Hl.
  - cbn in Hl. now apply elem_of_nil in Hl.
  - destruct lb as [|b lb]; cbn in Hl; [now apply elem_of_nil in Hl|].
    cbn [length Nat.min take]. apply elem_of_cons in Hl as [->|Hl].
    + apply elem_of_cons. auto.
    + apply elem_of_cons. right. now apply IH.
Qed.

Lemma elem_of_take (ls : list loc) (n : nat) (l : loc) :
  l ∈ take n ls -> l ∈ ls.
Proof.
  intros Hl. apply list_elem_of_lookup in Hl as [i Ei].
  apply lookup_take_Some in Ei as [Ei _].
  eapply list_elem_of_lookup_2, Ei.
Qed.

(** The loop of an in-place operator on the CCD [s]: it writes to the
    Windows of [s] only, and for a CCD operand to the paired ones only. *)
Lemma frames_inplace_body (op : binop) (s : CCD) (other : operand) :
  frames (_data s)
    (match other with
     | OCCD c => o <- get c ;; iop_zip op (zip (_data s) (_data o))
     | OScalar x => iop_each op (_data s) x
     end : M unit).
Proof.
  destruct other as [c|x]; [|apply frames_iop_each].
  apply frames_bind; [apply frames_get|]. intros o.
  eapply frames_mono; [|apply frames_iop_zip].
  intros l Hl. eapply elem_of_take, fst_zip_take, Hl.
Qed.

Lemma inplace_returns_self (op : binop) (self : cref) (other : operand)
    (st st' : store) (r : result cref) :
  inplace op self other st = (r, st') ->
  r = Ok self \/ exists e, r = Raise e.
Proof.
  unfold inplace, bind. intros E.
  destruct (get self st) as [[s|e] st1]; [|simplify_eq; eauto].
  destruct other as [c|x].
  - destruct (get c st1) as [[o|e] st2]; [|simplify_eq; eauto].
    destruct (iop_zip op (zip (_data s) (_data o)) st2) as [[u|e] st3];
      unfold ret in E; simplify_eq; eauto.
  - destruct (iop_each op (_data s) x st1) as [[u|e] st3];
      unfold ret in E; simplify_eq; eauto.
Qed.

(** *** Loops, turn by turn *)








(** *** Errors of the in-place loops come from the Window operator *)

Lemma assign_valid (st : store) (l : loc) (w : Window) (ls : list loc) :
  valid st ls ->
  valid (mkStore (<[l := w]> (heap st)) (ccds st) (warnings st)) ls.
Proof. unfold valid. cbn. now rewrite length_insert. Qed.

Lemma win_iop_cases (op : binop) (l : loc) (other : woperand Window)
    (st : store) (w : Window) :
  heap st !! l = Some w ->
  win_iop op l other st
  = match w_iarith op w other with
    | Ok w' =>
        (Ok tt, mkStore (<[l := w']> (heap st)) (ccds st) (warnings st))
    | Raise e => (Raise e, st)
    end.
Proof.
  intros E. unfold win_iop.
  run_deref E.
  unfold bind, lift, assign. now destruct (w_iarith op w other).
Qed.

Lemma iop_zip_raises (op : binop) (ps : list (loc * loc)) (st st' : store)
    (e : exn) :
  valid st (map fst ps) -> valid st (map snd ps) ->
  iop_zip op ps st = (Raise e, st') ->
  exists wa wb, w_iarith op wa (WWin wb) = Raise e.
Proof.
  revert st. induction ps as [|[l lo] ps IH]; intros st Va Vb E.
  - discriminate.
  - cbn [map fst snd] in Va, Vb.
    apply valid_cons in Va as [[wa Ea] Va].
    apply valid_cons in Vb as [[wb Eb] Vb].
    cbn [iop_zip] in E. run_deref Eb in E.
    unfold bind at 1 in E. rewrite (win_iop_cases _ _ _ _ _ Ea) in E.
    destruct (w_iarith op wa (WWin wb)) as [w'|e'] eqn:W.
    + eapply IH; [| |exact E]; now apply assign_valid.
    + simplify_eq. eauto.
Qed.

Lemma iop_each_raises (op : binop) (ls : list loc) (s : Q) (st st' : store)
    (e : exn) :
  valid st ls ->
  iop_each op ls s st = (Raise e, st') ->
  exists w, w_iarith op w (WScalar s) = Raise e.
Proof.
  revert st. induction ls as [|l ls IH]; intros st V E.
  - discriminate.
  - apply valid_cons in V as [[w Ew] V].
    cbn [iop_each] in E.
    unfold bind at 1 in E. rewrite (win_iop_cases _ _ _ _ _ Ew) in E.
    destruct (w_iarith op w (WScalar s)) as [w'|e'] eqn:W.
    + eapply IH; [|exact E]. now apply assign_valid.
    + simplify_eq. eauto.
Qed.

Lemma valid_zip (st : store) (la lb : list loc) :
  valid st la -> valid st lb ->
  valid st (map fst (zip la lb)) /\ valid st (map snd (zip la lb)).
Proof.
  revert lb. induction la as [|a la IH]; intros lb Va Vb.
  - split; constructor.
  - destruct lb as [|b lb]; [split; constructor|].
    apply valid_cons in Va as [Ea Va]. apply valid_cons in Vb as [Eb Vb].
    destruct (IH lb Va Vb). cbn [zip zip_with map fst snd].
    split; apply valid_cons; auto.
Qed.

Lemma rback_loop_raises (ls : list loc) (st st' : store) (e : exn) :
  valid st ls ->
  rback_loop ls st = (Raise e, st') ->
  exists w s, w_iarith Sub w (WScalar s) = Raise e.
Proof.
  revert st. induction ls as [|l ls IH]; intros st V E.
  - discriminate.
  - apply valid_cons in V as [[w Ew] V].
    cbn [rback_loop] in E.
    run_deref Ew in E.
    unfold bind at 1 in E. rewrite (win_iop_cases _ _ _ _ _ Ew) in E.
    destruct (w_iarith Sub w (WScalar (w_median w))) as [w'|e'] eqn:W.
    + eapply IH; [|exact E]. now apply assign_valid.
    + simplify_eq. eauto.
Qed.

Lemma inplace_raises (op : binop) (st st' : store) (self : cref) (c : CCD)
    (other : operand) (e : exn) :
  ccds st !! self = Some c -> valid st (_data c) -> operand_valid st other ->
  inplace op self other st = (Raise e, st') ->
  exists w o, w_iarith op w o = Raise e.
Proof.
  intros Ec V Vo E. unfold inplace in E.
  run_get Ec in E.
  unfold bind at 1 in E. destruct other as [b|x].
  - destruct Vo as (o & Eo & Vb).
    run_get Eo in E.
    destruct (iop_zip op (zip (_data c) (_data o)) st) as [[u|e0] st1] eqn:L;
      [discriminate|].
    simplify_eq. destruct (valid_zip st _ _ V Vb) as [Vf Vs].
    destruct (iop_zip_raises _ _ _ _ _ Vf Vs L) as (wa & wb & W). eauto.
  - destruct (iop_each op (_data c) x st) as [[u|e0] st1] eqn:L;
      [discriminate|].
    simplify_eq. destruct (iop_each_raises _ _ _ _ _ _ V L) as (w & W). eauto.
Qed.

(** C10: every in-place operation on a CCD, the four in-place operators
    with a scalar or a CCD operand and [rback()], leaves every CCD object
    as it was, so [nxmax], [nymax], [time], [good], [head] and the window
    list with its length are unchanged; it creates no object and writes
    to no Window outside the window list of the CCD.  An in-place operator
    that returns returns the CCD it was called on, and it does return
    unless a Window operator raises. *)
Theorem C10_inplace_operations_frame (st : store) (self : cref) :
  (forall (op : binop) (other : operand),
     exists r st',
       inplace op self other st = (r, st') /\
       ccds st' = ccds st /\
       warnings st' = warnings st /\
       length (heap st') = length (heap st) /\
       (forall c l, ccds st !! self = Some c -> l ∉ _data c ->
                    heap st' !! l = heap st !! l) /\
       (r = Ok self \/ exists e, r = Raise e) /\
       (forall c, ccds st !! self = Some c -> valid st (_data c) ->
                  operand_valid st other ->
                  r = Ok self \/
                  exists e w o, r = Raise e /\ w_iarith op w o = Raise e)) /\
  (exists r st',
     rback self st = (r, st') /\
     ccds st' = ccds st /\
     warnings st' = warnings st /\
     length (heap st') = length (heap st) /\
     (forall c l, ccds st !! self = Some c -> l ∉ _data c ->
                  heap st' !! l = heap st !! l) /\
     (forall c, ccds st !! self = Some c -> valid st (_data c) ->
                r = Ok tt \/
                exists e w s, r = Raise e /\
                              w_iarith Sub w (WScalar s) = Raise e)).
Proof.
  split.
  - intros op other.
    destruct (inplace op self other st) as [r st'] eqn:E.
    exists r, st'. split; [reflexivity|].
    pose proof (inplace_returns_self _ _ _ _ _ _ E) as R.
    assert (forall c, ccds st !! self = Some c -> valid st (_data c) ->
                      operand_valid st other ->
                      r = Ok self \/
                      exists e w o, r = Raise e /\ w_iarith op w o = Raise e)
      as Returns.
    { intros c Ec V Vo. destruct R as [->|[e ->]]; [auto|]. right.
      destruct (inplace_raises _ _ _ _ _ _ _ Ec V Vo E) as (w & o & W).
      eauto. }
    unfold inplace in E. unfold bind at 1 in E. unfold get at 1 in E.
    destruct (ccds st !! self) as [s|] eqn:Es.
    + assert (frames (_data s)
                ((match other with
                  | OCCD c =>
                      o <- get c ;; iop_zip op (zip (_data s) (_data o))
                  | OScalar x => iop_each op (_data s) x
                  end : M unit) ;;; ret self)) as F.
      { apply frames_bind; [|intros _; apply frames_ret].
        apply frames_inplace_body. }
      destruct (F _ _ _ E) as (C & W & L & Hp).
      repeat split; try assumption.
      intros c l [= <-]. apply Hp.
    + simplify_eq. repeat split; (assumption || discriminate).
  - destruct (rback self st) as [r st'] eqn:E.
    exists r, st'. split; [reflexivity|].
    unfold rback in E. unfold bind at 1 in E. unfold get at 1 in E.
    destruct (ccds st !! self) as [s|] eqn:Es.
    + destruct (frames_rback_loop _ _ _ _ E) as (C & W & L & Hp).
      repeat split; try assumption.
      * intros c l [= <-]. apply Hp.
      * intros c [= <-] V. destruct r as [[]|e]; [auto|]. right.
        destruct (rback_loop_raises _ _ _ _ V E) as (w & x & Wx). eauto.
    + simplify_eq. repeat split; discriminate.
Qed.

(** *** Value-returning loops *)

Lemma arith_plan_stop {X : Type} (f : X -> result Window) (xs : list X)
    (e : exn) :
  snd (arith_plan f xs) = Some e ->
  exists i x, xs !! i = Some x /\ f x = Raise e.
Proof.
  induction xs as [|x xs IH]; cbn [arith_plan]; [discriminate|].
  destruct (f x) as [w|e'] eqn:F.
  - destruct (arith_plan f xs) as [news stop]. cbn [snd] in *.
    intros E. destruct (IH E) as (i & x' & Ei & Fi).
    exists (S i), x'. auto.
  - cbn [snd]. intros [= <-]. exists 0, x. auto.
Qed.


Lemma planned_nil (st : store) (twins : list loc) :
  planned st twins ([], None) = (Ok twins, st).
Proof. unfold planned. cbn. rewrite !app_nil_r. now destruct st. Qed.

Lemma planned_raise (st : store) (twins : list loc) (e : exn) :
  planned st twins ([], Some e) = (Raise e, st).
Proof. unfold planned. cbn. rewrite !app_nil_r. now destruct st. Qed.

Lemma planned_cons (st : store) (twins : list loc) (w : Window)
    (news : list Window) (stop : option exn) :
  planned (mkStore (heap st ++ [w]) (ccds st) (warnings st))
    (twins ++ [length (heap st)]) (news, stop)
  = planned st twins (w :: news, stop).
Proof.
  unfold planned. cbn [fst snd heap ccds warnings length seq].
  rewrite <- !app_assoc. cbn [app].
  rewrite length_app. cbn [length]. now rewrite Nat.add_1_r.
Qed.

Lemma op_zip_spec (op : binop) (st : store) (la lb : list loc)
    (twins : list loc) :
  valid st la -> valid st lb ->
  op_zip op (zip la lb) twins st
  = planned st twins
      (arith_plan (fun p => w_arith op (fst p) (WWin (snd p)))
         (zip (windows st la) (windows st lb))).
Proof.
  revert lb st twins. induction la as [|a la IH]; intros lb st twins Va Vb.
  - cbn. now rewrite planned_nil.
  - destruct lb as [|b lb].
    + cbn [zip zip_with op_zip]. unfold windows at 2. cbn [omap list_omap].
      rewrite zip_with_nil_r. cbn. now rewrite planned_nil.
    + apply valid_cons in Va as [[wa Ea] Va].
      apply valid_cons in Vb as [[wb Eb] Vb].
      cbn [zip zip_with op_zip].
      run_deref Ea.
      run_deref Eb.
      rewrite (windows_cons _ _ _ _ Ea), (windows_cons _ _ _ _ Eb).
      cbn [zip zip_with arith_plan fst snd].
      unfold bind at 1, lift at 1.
      destruct (w_arith op wa (WWin wb)) as [w|e].
      * unfold bind at 1, alloc at 1.
        destruct (windows_grow st la [w] (ccds st) (warnings st) Va)
          as [Wa Va'].
        destruct (windows_grow st lb [w] (ccds st) (warnings st) Vb)
          as [Wb Vb'].
        rewrite IH by assumption. rewrite Wa, Wb.
        destruct (arith_plan _ (zip (windows st la) (windows st lb)))
          as [news stop].
        apply planned_cons.
      * now rewrite planned_raise.
Qed.

Lemma op_each_spec (op : binop) (st : store) (ls : list loc) (s : Q)
    (twins : list loc) :
  valid st ls ->
  op_each op ls s twins st
  = planned st twins
      (arith_plan (fun w => w_arith op w (WScalar s)) (windows st ls)).
Proof.
  revert st twins. induction ls as [|l ls IH]; intros st twins V.
  - cbn. now rewrite planned_nil.
  - apply valid_cons in V as [[w0 E0] V].
    cbn [op_each]. run_deref E0.
    rewrite (windows_cons _ _ _ _ E0). cbn [arith_plan].
    unfold bind at 1, lift at 1.
    destruct (w_arith op w0 (WScalar s)) as [w|e].
    + unfold bind at 1, alloc at 1.
      destruct (windows_grow st ls [w] (ccds st) (warnings st) V)
        as [Ws V'].
      rewrite IH by assumption. rewrite Ws.
      destruct (arith_plan _ (windows st ls)) as [news stop].
      apply planned_cons.
    + now rewrite planned_raise.
Qed.

Lemma rop_each_spec (op : binop) (st : store) (ls : list loc) (s : Q)
    (twins : list loc) :
  valid st ls ->
  rop_each op ls s twins st
  = planned st twins (arith_plan (w_rarith op s) (windows st ls)).
Proof.
  revert st twins. induction ls as [|l ls IH]; intros st twins V.
  - cbn. now rewrite planned_nil.
  - apply valid_cons in V as [[w0 E0] V].
    cbn [rop_each]. run_deref E0.
    rewrite (windows_cons _ _ _ _ E0). cbn [arith_plan].
    unfold bind at 1, lift at 1.
    destruct (w_rarith op s w0) as [w|e].
    + unfold bind at 1, alloc at 1.
      destruct (windows_grow st ls [w] (ccds st) (warnings st) V)
        as [Ws V'].
      rewrite IH by assumption. rewrite Ws.
      destruct (arith_plan _ (windows st ls)) as [news stop].
      apply planned_cons.
    + now rewrite planned_raise.
Qed.

(** *** CCD-CCD arithmetic *)

Lemma good_and_ccd (st : store) (a b : CCD) (other : cref) :
  ccds st !! other = Some b ->
  good_and a (OCCD other) st = (Ok (good a && good b), st).
Proof.
  intros Eb. unfold good_and, getattr_good.
  destruct (good a); [|reflexivity].
  now run_get Eb.
Qed.

Lemma binary_ccd_spec (op : binop) (st : store) (self other : cref)
    (a b : CCD) :
  ccds st !! self = Some a -> ccds st !! other = Some b ->
  valid st (_data a) -> valid st (_data b) ->
  binary op self (OCCD other) st
  = match arith_plan (fun p => w_arith op (fst p) (WWin (snd p)))
            (zip (windows st (_data a)) (windows st (_data b))) with
    | (news, None) =>
        (Ok (length (ccds st)),
         mkStore (heap st ++ news)
           (ccds st ++ [mkCCD (seq (length (heap st)) (length news))
                          (time a) (nxmax a) (nymax a)
                          (good a && good b) (head a)])
           (warnings st))
    | (news, Some e) =>
        (Raise e, mkStore (heap st ++ news) (ccds st) (warnings st))
    end.
Proof.
  intros Ea Eb Va Vb. unfold binary.
  run_get Ea.
  unfold bind at 1.
  run_get Eb.
  rewrite (op_zip_spec _ _ _ _ _ Va Vb). unfold planned.
  destruct (arith_plan _ (zip (windows st (_data a)) (windows st (_data b))))
    as [news [e|]]; cbn [fst snd app]; [reflexivity|].
  erewrite bind_ok; [|apply good_and_ccd; exact Eb]. reflexivity.
Qed.


(** *** CCD-scalar arithmetic *)

Lemma binary_scalar_spec (op : binop) (st : store) (self : cref) (c : CCD)
    (s : Q) :
  ccds st !! self = Some c -> valid st (_data c) ->
  binary op self (OScalar s) st
  = scalar_outcome st c
      (arith_plan (fun w => w_arith op w (WScalar s))
         (windows st (_data c))).
Proof.
  intros Ec V. unfold binary.
  run_get Ec.
  unfold bind at 1. rewrite (op_each_spec _ _ _ _ _ V).
  unfold planned, scalar_outcome.
  destruct (arith_plan _ (windows st (_data c))) as [news [e|]];
    cbn [fst snd app]; [reflexivity|].
  unfold good_and. now destruct (good c).
Qed.

Lemma reflected_spec (op : binop) (st : store) (self : cref) (c : CCD)
    (s : Q) :
  ccds st !! self = Some c -> valid st (_data c) ->
  reflected op self s st
  = scalar_outcome st c (arith_plan (w_rarith op s) (windows st (_data c))).
Proof.
  intros Ec V. unfold reflected.
  run_get Ec.
  unfold bind at 1. rewrite (rop_each_spec _ _ _ _ _ V).
  unfold planned, scalar_outcome.
  destruct (arith_plan _ (windows st (_data c))) as [news [e|]];
    cbn [fst snd app]; [reflexivity|].
  unfold good_and. now destruct (good c).
Qed.

(** With a scalar operand the value-returning operators return only for
    a CCD whose validity flag is false; for a CCD whose flag is true they
    raise, [AttributeError] when every Window operation went through. *)
Lemma scalar_operand_outcome (op : binop) (st : store) (self : cref)
    (c : CCD) (s : Q) (r : result cref) (st' : store) :
  ccds st !! self = Some c -> valid st (_data c) ->
  binary op self (OScalar s) st = (r, st') \/
  reflected op self s st = (r, st') ->
  match r with
  | Ok c' =>
      good c = false /\
      exists wins,
        ccds st' !! c'
        = Some (mkCCD wins (time c) (nxmax c) (nymax c) (good c) (head c))
  | Raise e =>
      e = AttributeError "good" /\ good c = true \/
      exists w, w_arith op w (WScalar s) = Raise e \/
                w_rarith op s w = Raise e
  end.
Proof.
  intros Ec V E.
  assert (exists plan : list Window * option exn,
            scalar_outcome st c plan = (r, st') /\
            forall e, snd plan = Some e ->
              exists w, w_arith op w (WScalar s) = Raise e \/
                        w_rarith op s w = Raise e) as (plan & Out & Stop).
  { destruct E as [E|E].
    - rewrite (binary_scalar_spec _ _ _ _ _ Ec V) in E.
      eexists. split; [exact E|]. intros e Se.
      destruct (arith_plan_stop _ _ _ Se) as (i & w & _ & F). eauto.
    - rewrite (reflected_spec _ _ _ _ _ Ec V) in E.
      eexists. split; [exact E|]. intros e Se.
      destruct (arith_plan_stop _ _ _ Se) as (i & w & _ & F). eauto. }
  unfold scalar_outcome in Out. destruct plan as [news [e|]].
  - simplify_eq. right. apply Stop. reflexivity.
  - destruct (good c) eqn:G; simplify_eq.
    + left. auto.
    + split; [reflexivity|]. cbn [ccds]. eexists.
      apply list_lookup_middle. reflexivity.
Qed.

(** ** The rest of [CCD.py] *)

(** *** Construction and the [data] property *)

Lemma check_windows_spec (msg : string) (wins : list (pyval Uhead))
    (st : store) :
  check_windows msg wins st
  = (if forallb isinstance_Window wins then Ok tt
     else Raise (UltracamError msg), st).
Proof.
  induction wins as [|win wins IH]; [reflexivity|].
  cbn [check_windows forallb].
  destruct (isinstance_Window win); cbn [negb andb]; [exact IH|reflexivity].
Qed.

Lemma window_refs_all (wins : list (pyval Uhead)) :
  forallb isinstance_Window wins = true ->
  map VWindow (window_refs wins) = wins /\
  length (window_refs wins) = length wins.
Proof.
  induction wins as [|win wins IH]; [auto|].
  cbn [forallb]. intros [Hw Hr]%andb_true_iff.
  destruct (IH Hr) as [Im Il].
  destruct win; try discriminate. unfold window_refs in *.
  cbn. now rewrite Im, Il.
Qed.

(** X1: the constructor accepts its arguments iff every element of [wins]
    is a Window and [head] is [None] or a header.  It then creates one CCD
    object, with the Windows in the order given and the other arguments as
    they are; an empty [wins] is accepted.  Otherwise it raises the
    domain error, for the windows first, and creates nothing. *)
Theorem X1_constructor_checks (st : store) (wins : list (pyval Uhead))
    (t : Time) (nx ny : Z) (g : bool) (head : pyval Uhead) :
  exists r st',
    new_CCD wins t nx ny g head st = (r, st') /\
    (forallb isinstance_Window wins = false ->
     r = Raise (UltracamError init_windows_msg) /\ st' = st) /\
    (forallb isinstance_Window wins = true ->
     is_not_None head && negb (isinstance_Uhead head) = true ->
     r = Raise (UltracamError init_head_msg) /\ st' = st) /\
    (forallb isinstance_Window wins = true ->
     is_not_None head && negb (isinstance_Uhead head) = false ->
     r = Ok (length (ccds st)) /\
     ccds st !! length (ccds st) = None /\
     st' = mkStore (heap st)
             (ccds st ++ [mkCCD (window_refs wins) t nx ny g
                            (header_of head)])
             (warnings st) /\
     map VWindow (window_refs wins) = wins /\
     length (window_refs wins) = length wins).
Proof.
  unfold new_CCD, bind. rewrite check_windows_spec.
  destruct (forallb isinstance_Window wins) eqn:W.
  - destruct (is_not_None head && negb (isinstance_Uhead head)) eqn:Hd.
    + eexists _, _. split; [reflexivity|].
      split; [discriminate|]. split; [auto|]. discriminate.
    + eexists _, _. split; [reflexivity|].
      split; [discriminate|]. split; [discriminate|].
      intros _ _. split; [reflexivity|].
      split; [now apply lookup_ge_None_2|]. split; [reflexivity|].
      now apply window_refs_all.
  - eexists _, _. split; [reflexivity|].
    split; [auto|]. split; discriminate.
Qed.

(** X2: the setter of [data] accepts a list iff every element is a Window;
    the getter then returns that list and [nwin] and [len] its length,
    the other attributes of the CCD, every other CCD and every Window
    are as they were.  A list with another element raises the domain
    error and changes nothing. *)
Theorem X2_data_setter_getter (st : store) (self : cref) (c : CCD)
    (wins : list (pyval Uhead)) :
  ccds st !! self = Some c ->
  (forallb isinstance_Window wins = false ->
   data_setter self wins st = (Raise (UltracamError data_msg), st)) /\
  (forallb isinstance_Window wins = true ->
   exists st',
     data_setter self wins st = (Ok tt, st') /\
     data self st' = (Ok (window_refs wins), st') /\
     map VWindow (window_refs wins) = wins /\
     nwin self st' = (Ok (length wins), st') /\
     __len__ self st' = (Ok (length wins), st') /\
     ccds st' !! self
     = Some (mkCCD (window_refs wins) (time c) (nxmax c) (nymax c)
               (good c) (head c)) /\
     (forall c', c' <> self -> ccds st' !! c' = ccds st !! c') /\
     heap st' = heap st /\ warnings st' = warnings st).
Proof.
  intros Ec. split; intros W; unfold data_setter; unfold bind at 1;
    rewrite check_windows_spec, W; [reflexivity|].
  run_get Ec. unfold put.
  destruct (window_refs_all wins W) as [Im Il].
  set (c1 := mkCCD (window_refs wins) (time c) (nxmax c) (nymax c) (good c)
               (head c)).
  set (st1 := mkStore (heap st) (<[self := c1]> (ccds st)) (warnings st)).
  assert (ccds st1 !! self = Some c1) as Es.
  { apply list_lookup_insert_eq. eapply lookup_lt_Some, Ec. }
  exists st1. split; [reflexivity|].
  unfold data, nwin, __len__. run_get Es. cbn [_data c1].
  rewrite Il. repeat split; try assumption.
  intros c' N. now apply list_lookup_insert_ne.
Qed.

(** *** Kinds *)

Lemma anyInt_loop_spec (st : store) (ls : list loc) :
  valid st ls ->
  anyInt_loop ls st
  = (Ok (existsb (fun w => is_integer (w_dtype w)) (windows st ls)), st).
Proof.
  induction ls as [|l ls IH]; intros V; [reflexivity|].
  apply valid_cons in V as [[w E] V].
  cbn [anyInt_loop]. run_deref E. rewrite (windows_cons _ _ _ _ E).
  cbn [existsb]. destruct (is_integer (w_dtype w)); [reflexivity|].
  exact (IH V).
Qed.

Lemma anyFloat_loop_spec (st : store) (ls : list loc) :
  valid st ls ->
  anyFloat_loop ls st
  = (Ok (existsb (fun w => is_floating (w_dtype w)) (windows st ls)), st).
Proof.
  induction ls as [|l ls IH]; intros V; [reflexivity|].
  apply valid_cons in V as [[w E] V].
  cbn [anyFloat_loop]. run_deref E. rewrite (windows_cons _ _ _ _ E).
  cbn [existsb]. destruct (is_floating (w_dtype w)); [reflexivity|].
  exact (IH V).
Qed.

Lemma elem_of_windows (st : store) (ls : list loc) (w : Window) :
  w ∈ windows st ls <-> exists l, l ∈ ls /\ heap st !! l = Some w.
Proof. unfold windows. apply list_elem_of_omap. Qed.

(** X3: [anyInt()] answers whether some window of the CCD is of an
    integer kind and [anyFloat()] whether some window is of a floating
    kind; both answer [False] for a CCD without windows, neither raises
    and neither changes anything. *)
Theorem X3_anyInt_anyFloat (st : store) (self : cref) (c : CCD) :
  ccds st !! self = Some c -> valid st (_data c) ->
  exists bi bf,
    anyInt self st = (Ok bi, st) /\
    anyFloat self st = (Ok bf, st) /\
    (bi = true <->
     exists w, w ∈ windows st (_data c) /\ is_integer (w_dtype w) = true) /\
    (bf = true <->
     exists w, w ∈ windows st (_data c) /\ is_floating (w_dtype w) = true) /\
    (_data c = [] -> bi = false /\ bf = false).
Proof.
  intros Ec V. unfold anyInt, anyFloat. run_get Ec.
  rewrite (anyInt_loop_spec _ _ V), (anyFloat_loop_spec _ _ V).
  eexists _, _. split; [reflexivity|]. split; [reflexivity|].
  split; [|split].
  - rewrite existsb_exists. split; intros (w & Hw & K); exists w.
    + split; [now apply list_elem_of_In|exact K].
    + split; [now apply list_elem_of_In|exact K].
  - rewrite existsb_exists. split; intros (w & Hw & K); exists w.
    + split; [now apply list_elem_of_In|exact K].
    + split; [now apply list_elem_of_In|exact K].
  - intros ->. split; reflexivity.
Qed.

Lemma toFloat_loop_cons (st : store) (l : loc) (ls : list loc)
    (single : bool) (w : Window) :
  heap st !! l = Some w ->
  toFloat_loop (l :: ls) single st
  = toFloat_loop ls single
      (mkStore (<[l := w_totype (float_kind single) w]> (heap st))
         (ccds st) (warnings st)).
Proof.
  intros E. cbn [toFloat_loop]. unfold bind at 1, float_kind.
  destruct single; unfold win_totype; run_deref E; reflexivity.
Qed.

Lemma toFloat_loop_spec (st : store) (ls : list loc) (single : bool) :
  valid st ls ->
  exists st',
    toFloat_loop ls single st = (Ok tt, st') /\
    ccds st' = ccds st /\ warnings st' = warnings st /\
    length (heap st') = length (heap st) /\
    (forall l, l ∉ ls -> heap st' !! l = heap st !! l) /\
    (NoDup ls -> forall l w, l ∈ ls -> heap st !! l = Some w ->
       heap st' !! l = Some (w_totype (float_kind single) w)) /\
    ((forall k w, w_dtype (w_totype k w) = k) ->
     (forall l w, heap st !! l = Some w -> w_dtype w = float_kind single ->
        exists w', heap st' !! l = Some w' /\
                   w_dtype w' = float_kind single) /\
     (forall l, l ∈ ls ->
        exists w', heap st' !! l = Some w' /\
                   w_dtype w' = float_kind single)).
Proof.
  revert st. induction ls as [|l0 ls IH]; intros st V.
  - exists st. split; [reflexivity|]. repeat split; eauto.
    + intros D l w Hl. now apply elem_of_nil in Hl.
    + intros l Hl. now apply elem_of_nil in Hl.
  - apply valid_cons in V as [[w0 E0] V].
    set (st1 := mkStore (<[l0 := w_totype (float_kind single) w0]> (heap st))
                  (ccds st) (warnings st)).
    assert (valid st1 ls) as V1 by now apply assign_valid.
    destruct (IH st1 V1) as (st' & E & C & W & L & Fr & Dist & Kinds).
    assert (heap st1 !! l0 = Some (w_totype (float_kind single) w0))
      as Turned.
    { cbn. apply list_lookup_insert_eq. eapply lookup_lt_Some, E0. }
    exists st'. rewrite (toFloat_loop_cons _ _ _ _ _ E0).
    split; [exact E|]. split; [exact C|]. split; [exact W|].
    split; [rewrite L; cbn; apply length_insert|].
    split; [|split].
    + intros l N. apply not_elem_of_cons in N as [N0 N].
      rewrite (Fr l N). cbn. now apply list_lookup_insert_ne.
    + intros D l w Hl El. apply NoDup_cons in D as [N0 D].
      apply elem_of_cons in Hl as [->|Hl].
      * rewrite (Fr l0 N0). assert (w = w0) as -> by congruence.
        exact Turned.
      * apply (Dist D l w Hl). cbn.
        rewrite list_lookup_insert_ne; [exact El|].
        intros ->. contradiction.
    + intros K. destruct (Kinds K) as [Keep Done]. split.
      * intros l w El Kw. destruct (decide (l = l0)) as [->|N].
        -- eapply Keep; [exact Turned|apply K].
        -- eapply (Keep l w); [|exact Kw]. cbn.
           rewrite list_lookup_insert_ne by congruence. exact El.
      * intros l Hl. apply elem_of_cons in Hl as [->|Hl].
        -- eapply Keep; [exact Turned|apply K].
        -- now apply Done.
Qed.

(** X4: when [totype] gives a Window the kind it is asked for,
    [toFloat(single)] raises nothing, warns of nothing and leaves every
    window of the CCD with the 4-byte float kind, or the 8-byte one when
    [single] is false; afterwards [anyInt()] answers [False] and
    [anyFloat()] answers [True] unless the CCD has no window.  It writes
    to the windows of the CCD only, to each the conversion of its
    contents when no Window object is listed twice. *)
Theorem X4_toFloat (st : store) (self : cref) (c : CCD) (single : bool) :
  ccds st !! self = Some c -> valid st (_data c) ->
  (forall k w, w_dtype (w_totype k w) = k) ->
  exists st',
    toFloat self single st = (Ok tt, st') /\
    ccds st' = ccds st /\ warnings st' = warnings st /\
    (forall l, l ∈ _data c ->
       exists w', heap st' !! l = Some w' /\
                  w_dtype w' = float_kind single) /\
    (forall l, l ∉ _data c -> heap st' !! l = heap st !! l) /\
    (NoDup (_data c) -> forall l w, l ∈ _data c -> heap st !! l = Some w ->
       heap st' !! l = Some (w_totype (float_kind single) w)) /\
    anyInt self st' = (Ok false, st') /\
    anyFloat self st'
    = (Ok (negb (length (_data c) =? 0)), st').
Proof.
  intros Ec V K.
  destruct (toFloat_loop_spec st (_data c) single V)
    as (st' & E & C & W & L & Fr & Dist & Kinds).
  destruct (Kinds K) as [_ Done].
  assert (valid st' (_data c)) as V'.
  { unfold valid in *. now rewrite L. }
  assert (forall w, w ∈ windows st' (_data c) ->
                    w_dtype w = float_kind single) as All.
  { intros w (l & Hl & El)%elem_of_windows.
    destruct (Done l Hl) as (w' & E' & K'). congruence. }
  exists st'. split; [unfold toFloat; run_get Ec; exact E|].
  split; [exact C|]. split; [exact W|]. split; [exact Done|].
  split; [exact Fr|]. split; [exact Dist|].
  rewrite <- C in Ec. unfold anyInt, anyFloat. run_get Ec.
  rewrite (anyInt_loop_spec _ _ V'), (anyFloat_loop_spec _ _ V').
  rewrite <- (windows_length st' (_data c) V').
  induction (windows st' (_data c)) as [|w ws IH]; [split; reflexivity|].
  cbn [existsb length Nat.eqb negb].
  rewrite (All w) by (apply elem_of_cons; auto).
  destruct IH as [Ii If].
  { intros w' Hw'. apply All, elem_of_cons. auto. }
  split.
  - injection Ii as Ii. rewrite Ii. now destruct single.
  - now destruct single.
Qed.

(** *** Extrema, pixel counts and pooled statistics *)

Lemma py_min_spec (a b : Q) :
  (py_min a b = a \/ py_min a b = b) /\
  (py_min a b <= a)%Q /\ (py_min a b <= b)%Q.
Proof.
  unfold py_min, Qlt_bool. destruct (Qle_bool a b) eqn:L; cbn [negb].
  - apply Qle_bool_iff in L. split; [auto|]. split; [apply Qle_refl|exact L].
  - assert (~ (a <= b)%Q) as N.
    { intros L'. apply Qle_bool_iff in L'. congruence. }
    apply Qnot_le_lt, Qlt_le_weak in N.
    split; [auto|]. split; [exact N|apply Qle_refl].
Qed.

Lemma py_max_spec (a b : Q) :
  (py_max a b = a \/ py_max a b = b) /\
  (a <= py_max a b)%Q /\ (b <= py_max a b)%Q.
Proof.
  unfold py_max, Qlt_bool. destruct (Qle_bool b a) eqn:L; cbn [negb].
  - apply Qle_bool_iff in L. split; [auto|]. split; [apply Qle_refl|exact L].
  - assert (~ (b <= a)%Q) as N.
    { intros L'. apply Qle_bool_iff in L'. congruence. }
    apply Qnot_le_lt, Qlt_le_weak in N.
    split; [auto|]. split; [exact N|apply Qle_refl].
Qed.

Lemma min_loop_spec (st : store) (ls : list loc) (a : Q) :
  valid st ls ->
  exists m,
    min_loop ls (Some a) st = (Ok (Some m), st) /\
    (m = a \/ exists w, w ∈ windows st ls /\ m = w_min w) /\
    (m <= a)%Q /\
    forall w, w ∈ windows st ls -> (m <= w_min w)%Q.
Proof.
  revert a. induction ls as [|l ls IH]; intros a V.
  - exists a. split; [reflexivity|]. split; [auto|].
    split; [apply Qle_refl|]. intros w Hw. now apply elem_of_nil in Hw.
  - apply valid_cons in V as [[w0 E0] V].
    destruct (IH (py_min a (w_min w0)) V) as (m & E & From & Le & All).
    destruct (py_min_spec a (w_min w0)) as (Pick & La & Lw).
    exists m. cbn [min_loop]. run_deref E0. split; [exact E|].
    rewrite (windows_cons _ _ _ _ E0). split; [|split].
    + destruct From as [->|(w & Hw & ->)].
      * destruct Pick as [->| ->]; [auto|]. right. exists w0.
        split; [apply elem_of_cons; auto|reflexivity].
      * right. exists w. split; [apply elem_of_cons; auto|reflexivity].
    + eapply Qle_trans; eassumption.
    + intros w [->|Hw]%elem_of_cons; [|now apply All].
      eapply Qle_trans; eassumption.
Qed.

Lemma max_loop_spec (st : store) (ls : list loc) (a : Q) :
  valid st ls ->
  exists m,
    max_loop ls (Some a) st = (Ok (Some m), st) /\
    (m = a \/ exists w, w ∈ windows st ls /\ m = w_max w) /\
    (a <= m)%Q /\
    forall w, w ∈ windows st ls -> (w_max w <= m)%Q.
Proof.
  revert a. induction ls as [|l ls IH]; intros a V.
  - exists a. split; [reflexivity|]. split; [auto|].
    split; [apply Qle_refl|]. intros w Hw. now apply elem_of_nil in Hw.
  - apply valid_cons in V as [[w0 E0] V].
    destruct (IH (py_max a (w_max w0)) V) as (m & E & From & Le & All).
    destruct (py_max_spec a (w_max w0)) as (Pick & La & Lw).
    exists m. cbn [max_loop]. run_deref E0. split; [exact E|].
    rewrite (windows_cons _ _ _ _ E0). split; [|split].
    + destruct From as [->|(w & Hw & ->)].
      * destruct Pick as [->| ->]; [auto|]. right. exists w0.
        split; [apply elem_of_cons; auto|reflexivity].
      * right. exists w. split; [apply elem_of_cons; auto|reflexivity].
    + eapply Qle_trans; eassumption.
    + intros w [->|Hw]%elem_of_cons; [|now apply All].
      eapply Qle_trans; eassumption.
Qed.

(** X5: for a CCD with at least one window, [min()] returns the minimum
    of one of its windows, and no window has a smaller one; [max()]
    returns the maximum of one of its windows, and no window has a
    larger one.  Neither changes anything. *)
Theorem X5_min_max_are_attained_bounds (st : store) (self : cref) (c : CCD) :
  ccds st !! self = Some c -> valid st (_data c) -> _data c <> [] ->
  exists lo hi,
    min self st = (Ok (Some lo), st) /\
    max self st = (Ok (Some hi), st) /\
    (exists w, w ∈ windows st (_data c) /\ lo = w_min w) /\
    (forall w, w ∈ windows st (_data c) -> (lo <= w_min w)%Q) /\
    (exists w, w ∈ windows st (_data c) /\ hi = w_max w) /\
    (forall w, w ∈ windows st (_data c) -> (w_max w <= hi)%Q).
Proof.
  intros Ec V Ne. unfold min, max. run_get Ec.
  destruct (_data c) as [|l ls]; [contradiction|].
  apply valid_cons in V as [[w0 E0] V].
  cbn [min_loop max_loop]. run_deref E0.
  destruct (min_loop_spec st ls (w_min w0) V) as (lo & El & Fl & Ll & Al).
  destruct (max_loop_spec st ls (w_max w0) V) as (hi & Eh & Fh & Lh & Ah).
  exists lo, hi. rewrite (windows_cons _ _ _ _ E0).
  split; [exact El|]. split; [exact Eh|]. split; [|split; [|split]].
  - destruct Fl as [->|(w & Hw & ->)].
    + exists w0. split; [apply elem_of_cons; auto|reflexivity].
    + exists w. split; [apply elem_of_cons; auto|reflexivity].
  - intros w [->|Hw]%elem_of_cons; [exact Ll|now apply Al].
  - destruct Fh as [->|(w & Hw & ->)].
    + exists w0. split; [apply elem_of_cons; auto|reflexivity].
    + exists w. split; [apply elem_of_cons; auto|reflexivity].
  - intros w [->|Hw]%elem_of_cons; [exact Lh|now apply Ah].
Qed.

Lemma npix_loop_spec (st : store) (ls : list loc) (np : nat) :
  valid st ls ->
  npix_loop ls np st
  = (Ok (np + sum_list_with w_size (windows st ls)), st).
Proof.
  revert np. induction ls as [|l ls IH]; intros np V.
  - cbn. now rewrite Nat.add_0_r.
  - apply valid_cons in V as [[w E] V].
    cbn [npix_loop]. run_deref E. rewrite (IH _ V).
    rewrite (windows_cons _ _ _ _ E). cbn [sum_list_with].
    now rewrite Nat.add_assoc.
Qed.

Lemma mean_loop_count (st : store) (ls : list loc) (nelem : nat)
    (sum : number) :
  valid st ls ->
  exists sum',
    mean_loop ls nelem sum st
    = (Ok (nelem + sum_list_with w_size (windows st ls), sum'), st) /\
    (ls <> [] -> exists x, sum' = NpFloat64 x).
Proof.
  revert nelem sum. induction ls as [|l ls IH]; intros nelem sum V.
  - exists sum. cbn. rewrite Nat.add_0_r. split; [reflexivity|contradiction].
  - apply valid_cons in V as [[w E] V].
    destruct (IH (nelem + w_size w) (add_scalar sum (w_sum w)) V)
      as (s' & Es & Np).
    exists s'. cbn [mean_loop]. run_deref E. rewrite Es.
    rewrite (windows_cons _ _ _ _ E). cbn [sum_list_with].
    rewrite Nat.add_assoc. split; [reflexivity|]. intros _.
    destruct ls as [|l' ls'].
    + cbn in Es. injection Es as _ <-. unfold add_scalar. eauto.
    + apply Np. discriminate.
Qed.

Lemma mean_loop_zero (st : store) (ls : list loc) (nelem : nat) :
  valid st ls -> ls <> [] ->
  (forall w, w ∈ windows st ls -> (w_sum w == 0)%Q) ->
  forall sum, value sum = Finite 0 ->
    mean_loop ls nelem sum st
    = (Ok (nelem + sum_list_with w_size (windows st ls),
           NpFloat64 (Finite 0)), st).
Proof.
  revert nelem. induction ls as [|l ls IH]; intros nelem V Ne Zero sum Ev;
    [contradiction|].
  apply valid_cons in V as [[w E] V].
  rewrite (windows_cons _ _ _ _ E) in Zero |- *.
  assert (add_scalar sum (w_sum w) = NpFloat64 (Finite 0)) as Step.
  { unfold add_scalar. rewrite Ev.
    rewrite (round_Qeq (w_sum w) 0) by (apply Zero, elem_of_cons; auto).
    reflexivity. }
  cbn [mean_loop sum_list_with]. run_deref E. rewrite Step, Nat.add_assoc.
  destruct ls as [|l' ls'].
  { cbn. now rewrite Nat.add_0_r. }
  apply IH; [exact V|discriminate| |reflexivity].
  intros w' Hw'. apply Zero, elem_of_cons. auto.
Qed.

(** X6: [npix()] returns the sum of the sizes of the windows.  [mean()]
    raises the division-by-zero error exactly when the CCD has no
    window: once a window has contributed, the sum is a float64 of
    numpy, whose division does not raise, and [mean()] returns a float,
    unless the count is beyond the floats and [float] refuses it, which
    no count up to [2 ** 53] is.  For windows that hold no pixel at all,
    the count and the sums being 0, the float returned is nan.  Neither
    changes an object. *)
Theorem X6_npix_and_mean (st : store) (self : cref) (c : CCD) :
  ccds st !! self = Some c -> valid st (_data c) ->
  exists n r,
    npix self st = (Ok n, st) /\
    n = sum_list_with w_size (windows st (_data c)) /\
    mean self st = (r, st) /\
    (r = Raise ZeroDivisionError <-> _data c = []) /\
    (_data c <> [] -> (exists m, r = Ok m) \/ r = Raise OverflowError) /\
    (_data c <> [] -> (Z.of_nat n <= 2 ^ 53)%Z -> exists m, r = Ok m) /\
    (_data c <> [] -> n = 0 ->
     (forall w, w ∈ windows st (_data c) -> (w_sum w == 0)%Q) ->
     r = Ok NaN).
Proof.
  intros Ec V. unfold npix, mean. run_get Ec.
  rewrite (npix_loop_spec _ _ _ V).
  destruct (mean_loop_count st (_data c) 0 (PyFloat (Finite 0)) V)
    as (s' & Es & Np).
  pose proof (mean_loop_zero st (_data c) 0 V) as Zero.
  run Es. cbn [fst snd Nat.add] in *.
  unfold bind, lift.
  exists (sum_list_with w_size (windows st (_data c))),
    (match float (sum_list_with w_size (windows st (_data c))) with
     | Ok y => float_div s' y
     | Raise e => Raise e
     end).
  split; [reflexivity|]. split; [reflexivity|].
  split; [now destruct (float _)|].
  destruct (_data c) as [|l ls] eqn:D.
  - cbn in Es. injection Es as <-.
    split; [split; reflexivity|]. repeat split; contradiction.
  - destruct Np as [x ->]; [discriminate|].
    set (n := sum_list_with w_size (windows st (l :: ls))) in *.
    split; [|split; [|split]].
    + split; [|discriminate]. unfold float.
      destruct (round _); discriminate.
    + intros _. unfold float. destruct (round _); cbn; eauto.
    + intros _ Small. unfold float.
      destruct (is_binary64_round (inject_Z (Z.of_nat n))) as (q & -> & _);
        [|cbn; eauto].
      apply integer_is_binary64. lia.
    + intros _ N0 Z0.
      specialize (Zero ltac:(discriminate) Z0 (PyFloat (Finite 0)) eq_refl).
      fold n in Zero. rewrite Es in Zero. injection Zero as ->.
      rewrite N0. reflexivity.
Qed.

Lemma flatten_loop_exact (st : store) (ls : list loc) (larr : list (list Q)) :
  valid st ls ->
  flatten_loop ls larr st
  = (Ok (larr ++ map w_flatten (windows st ls)), st).
Proof.
  revert larr. induction ls as [|l ls IH]; intros larr V.
  - cbn. now rewrite app_nil_r.
  - apply valid_cons in V as [[w E] V].
    cbn [flatten_loop]. run_deref E. rewrite (IH _ V).
    rewrite (windows_cons _ _ _ _ E). cbn [map].
    now rewrite <- app_assoc.
Qed.

(** X7: [centile] with a text for [pcent] raises the domain error
    whatever the CCD, before it reads anything.  Otherwise [centile], and
    [median], hand numpy the flattened windows of the CCD, one array per
    window in the order of the CCD, and return what numpy returns for
    their concatenation; neither changes anything. *)
Theorem X7_median_and_centile (st : store) (self : cref) :
  (forall text,
     centile self (PText text) st
     = (Raise (UltracamError centile_msg), st)) /\
  (forall c, ccds st !! self = Some c -> valid st (_data c) ->
     median self st
     = (Ok (np_bind
              (np_concatenate (map w_flatten (windows st (_data c))))
              np_median), st) /\
     forall p,
       centile self (PNumeric p) st
       = (Ok (np_bind
                (np_concatenate (map w_flatten (windows st (_data c))))
                (fun arr => np_percentile arr p)), st)).
Proof.
  split; [reflexivity|]. intros c Ec V. split; [|intros p];
    unfold median, centile; run_get Ec;
    run (flatten_loop_exact st (_data c) [] V); reflexivity.
Qed.

(** *** [canCropTo], and what it says about [cropTo] *)

Lemma encloses_loop_spec (st : store) (ls : list loc) (wino : Window) :
  valid st ls ->
  encloses_loop ls wino st
  = (Ok (existsb (fun w => w_ge w wino) (windows st ls)), st).
Proof.
  induction ls as [|l ls IH]; intros V; [reflexivity|].
  apply valid_cons in V as [[w E] V].
  cbn [encloses_loop]. run_deref E. rewrite (windows_cons _ _ _ _ E).
  cbn [existsb]. destruct (w_ge w wino); [reflexivity|]. exact (IH V).
Qed.

Lemma canCropTo_loop_spec (st : store) (sd os : list loc) :
  valid st sd -> valid st os ->
  canCropTo_loop sd os st
  = (Ok (forallb (fun wo => existsb (fun w => w_ge w wo) (windows st sd))
           (windows st os)), st).
Proof.
  intros Vs. induction os as [|o os IH]; intros Vo; [reflexivity|].
  apply valid_cons in Vo as [[wo E] Vo].
  cbn [canCropTo_loop]. run_deref E. run (encloses_loop_spec st sd wo Vs).
  rewrite (windows_cons _ _ _ _ E). cbn [forallb].
  destruct (existsb (fun w => w_ge w wo) (windows st sd)); [|reflexivity].
  exact (IH Vo).
Qed.

(** X8: [canCropTo] answers [False] when [nxmax] or [nymax] differ,
    whatever the windows; with equal dimensions it answers [True] iff
    every window of the other CCD is enclosed ([>=]) by some window of
    this one, so [True] when the other CCD has no window.  It raises
    nothing and changes nothing. *)
Theorem X8_canCropTo (st : store) (self other : cref) (a b : CCD) :
  ccds st !! self = Some a -> ccds st !! other = Some b ->
  (nxmax a <> nxmax b \/ nymax a <> nymax b ->
   canCropTo self other st = (Ok false, st)) /\
  (valid st (_data a) -> valid st (_data b) ->
   exists r,
     canCropTo self other st = (Ok r, st) /\
     (r = true <->
      nxmax a = nxmax b /\ nymax a = nymax b /\
      forall wo, wo ∈ windows st (_data b) ->
        exists w, w ∈ windows st (_data a) /\ w_ge w wo = true) /\
     (nxmax a = nxmax b -> nymax a = nymax b -> _data b = [] -> r = true)).
Proof.
  intros Ea Eb. split.
  - intros N. unfold canCropTo. run_get Ea. run_get Eb.
    destruct (Z.eqb_spec (nxmax a) (nxmax b)) as [X|X]; [|reflexivity].
    destruct (Z.eqb_spec (nymax a) (nymax b)) as [Y|Y]; [|reflexivity].
    destruct N; contradiction.
  - intros Va Vb. unfold canCropTo. run_get Ea. run_get Eb.
    destruct (Z.eqb_spec (nxmax a) (nxmax b)) as [X|X]; cbn [negb orb].
    2:{ exists false. split; [reflexivity|]. split; [|contradiction].
        split; [discriminate|]. intros (X' & _). contradiction. }
    destruct (Z.eqb_spec (nymax a) (nymax b)) as [Y|Y]; cbn [negb].
    2:{ exists false. split; [reflexivity|]. split; [|contradiction].
        split; [discriminate|]. intros (_ & Y' & _). contradiction. }
    rewrite (canCropTo_loop_spec _ _ _ Va Vb).
    eexists. split; [reflexivity|]. split.
    + rewrite forallb_forall. split.
      * intros All. split; [exact X|]. split; [exact Y|].
        intros wo Hwo%list_elem_of_In.
        apply All, existsb_exists in Hwo as (w & Hw & G).
        exists w. split; [now apply list_elem_of_In|exact G].
      * intros (_ & _ & All) wo Hwo%list_elem_of_In.
        destruct (All wo Hwo) as (w & Hw & G).
        apply existsb_exists. exists w.
        split; [now apply list_elem_of_In|exact G].
    + intros _ _ ->. reflexivity.
Qed.

Lemma cropTo_returns_iff (st : store) (self other : cref) (a b : CCD) :
  ccds st !! self = Some a -> ccds st !! other = Some b ->
  valid st (_data a) -> valid st (_data b) ->
  (exists c' st', cropTo self other st = (Ok c', st')) <->
  nxmax a = nxmax b /\ nymax a = nymax b /\
  forall wo, wo ∈ windows st (_data b) ->
             croppable (windows st (_data a)) wo = true.
Proof.
  intros Ea Eb Va Vb. unfold cropTo. run_get Ea. run_get Eb.
  destruct (Z.eqb_spec (nxmax a) (nxmax b)) as [X|X]; cbn [negb orb].
  2:{ split; [intros (c' & st' & [=])|intros (X' & _); contradiction]. }
  destruct (Z.eqb_spec (nymax a) (nymax b)) as [Y|Y]; cbn [negb].
  2:{ split; [intros (c' & st' & [=])|intros (_ & Y' & _); contradiction]. }
  unfold bind at 1. rewrite (cropTo_loop_spec _ _ _ _ _ Va Vb).
  destruct (snd (crop_plan (windows st (_data a)) (windows st (_data b)) 0))
    as [k|] eqn:Stop.
  - apply crop_plan_stop in Stop as (i & wo & _ & Ei & Ni & _).
    split; [intros (c' & st' & [=])|].
    intros (_ & _ & All). rewrite All in Ni; [discriminate|].
    eapply list_elem_of_lookup_2, Ei.
  - destruct (crop_plan_done _ _ _ Stop) as [_ All].
    split; [|unfold __init__; eauto].
    intros _. split; [exact X|]. split; [exact Y|].
    intros wo (i & Ei)%list_elem_of_lookup.
    destruct (All i wo Ei) as (w & F & _). eapply find_croppable, F.
Qed.

(** X9: when Window's enclosure test [>=] and Window's [canCropTo] give
    the same answer on the windows of the two CCDs, [a.canCropTo(b)]
    answers [True] iff [a.cropTo(b)] returns a CCD. *)
Theorem X9_canCropTo_predicts_cropTo (st : store) (self other : cref)
    (a b : CCD) :
  ccds st !! self = Some a -> ccds st !! other = Some b ->
  valid st (_data a) -> valid st (_data b) ->
  (forall w wo, w ∈ windows st (_data a) -> wo ∈ windows st (_data b) ->
                w_ge w wo = w_canCropTo w wo) ->
  canCropTo self other st = (Ok true, st) <->
  exists c' st', cropTo self other st = (Ok c', st').
Proof.
  intros Ea Eb Va Vb Agree.
  rewrite (cropTo_returns_iff _ _ _ _ _ Ea Eb Va Vb).
  unfold canCropTo. run_get Ea. run_get Eb.
  destruct (Z.eqb_spec (nxmax a) (nxmax b)) as [X|X]; cbn [negb orb].
  2:{ split; [discriminate|intros (X' & _); contradiction]. }
  destruct (Z.eqb_spec (nymax a) (nymax b)) as [Y|Y]; cbn [negb].
  2:{ split; [discriminate|intros (_ & Y' & _); contradiction]. }
  rewrite (canCropTo_loop_spec _ _ _ Va Vb).
  assert (forall wo, wo ∈ windows st (_data b) ->
            existsb (fun w => w_ge w wo) (windows st (_data a))
            = croppable (windows st (_data a)) wo) as Same.
  { intros wo Hwo. unfold croppable.
    induction (windows st (_data a)) as [|w ws IH]; [reflexivity|].
    cbn [existsb].
    rewrite (Agree w wo); [|apply elem_of_cons; auto|exact Hwo].
    f_equal. apply IH. intros w' wo' Hw'. apply Agree, elem_of_cons. auto. }
  split.
  - intros [= All]. rewrite forallb_forall in All.
    split; [exact X|]. split; [exact Y|].
    intros wo Hwo. rewrite <- (Same wo Hwo).
    now apply All, list_elem_of_In.
  - intros (_ & _ & All). f_equal. f_equal. apply forallb_forall.
    intros wo Hwo%list_elem_of_In. rewrite (Same wo Hwo). now apply All.
Qed.

(** *** In-place loops over distinct Windows *)

Lemma arith_plan_prefix {X : Type} (f : X -> result Window) (xs : list X) :
  length (fst (arith_plan f xs)) <= length xs /\
  (forall i w, fst (arith_plan f xs) !! i = Some w ->
     exists x, xs !! i = Some x /\ f x = Ok w) /\
  (snd (arith_plan f xs) = None ->
     length (fst (arith_plan f xs)) = length xs) /\
  (forall e, snd (arith_plan f xs) = Some e ->
     exists x, xs !! length (fst (arith_plan f xs)) = Some x /\
               f x = Raise e).
Proof.
  induction xs as [|x xs IH]; cbn [arith_plan].
  - cbn. split; [lia|]. split; [|split; [auto|discriminate]].
    intros i w E. now rewrite lookup_nil in E.
  - destruct (f x) as [w0|e0] eqn:F.
    + destruct (arith_plan f xs) as [news stop]. cbn [fst snd length] in *.
      destruct IH as (Le & Each & Done & Stop).
      split; [lia|]. split; [|split].
      * intros [|i] w E; cbn in E.
        -- simplify_eq. exists x. auto.
        -- exact (Each i w E).
      * intros N. now rewrite (Done N).
      * intros e E. exact (Stop e E).
    + cbn [fst snd length]. split; [lia|]. split; [|split].
      * intros i w E. now rewrite lookup_nil in E.
      * discriminate.
      * intros e [= <-]. exists x. auto.
Qed.

Lemma write_all_length {W : Type} (ls : list loc) (news h : list W) :
  length (write_all ls news h) = length h.
Proof.
  revert news h. induction ls as [|l ls IH]; intros [|w news] h; cbn; auto.
  now rewrite IH, length_insert.
Qed.

Lemma write_all_outside {W : Type} (ls : list loc) (news h : list W)
    (l : loc) :
  l ∉ take (length news) ls -> write_all ls news h !! l = h !! l.
Proof.
  revert news h. induction ls as [|l0 ls IH]; intros [|w news] h N; cbn; auto.
  cbn [length take] in N. apply not_elem_of_cons in N as [N0 N].
  rewrite (IH _ _ N). now apply list_lookup_insert_ne.
Qed.

Lemma write_all_inside {W : Type} (ls : list loc) (news h : list W)
    (i : nat) (l : loc) (w : W) :
  NoDup ls -> Forall (fun l => l < length h) ls ->
  ls !! i = Some l -> news !! i = Some w ->
  write_all ls news h !! l = Some w.
Proof.
  revert news h i. induction ls as [|l0 ls IH];
    intros [|w0 news] h i D V El Ew; try (now rewrite lookup_nil in *).
  apply NoDup_cons in D as [N0 D]. apply Forall_cons in V as [L0 V].
  cbn [write_all]. destruct i as [|i]; cbn in El, Ew.
  - simplify_eq. rewrite write_all_outside.
    + now apply list_lookup_insert_eq.
    + intros Hl. apply N0. eapply elem_of_take, Hl.
  - apply (IH news _ i D); [|exact El|exact Ew].
    now rewrite length_insert.
Qed.

Lemma iop_each_planned (op : binop) (st : store) (ls : list loc) (s : Q) :
  valid st ls -> NoDup ls ->
  iop_each op ls s st
  = (match snd (arith_plan (fun w => w_iarith op w (WScalar s))
                  (windows st ls)) with
     | None => Ok tt
     | Some e => Raise e
     end,
     mkStore
       (write_all ls
          (fst (arith_plan (fun w => w_iarith op w (WScalar s))
                  (windows st ls)))
          (heap st))
       (ccds st) (warnings st)).
Proof.
  revert st. induction ls as [|l ls IH]; intros st V D.
  - cbn. now destruct st.
  - apply valid_cons in V as [[w E] V]. apply NoDup_cons in D as [N D].
    cbn [iop_each]. unfold bind at 1. rewrite (win_iop_cases _ _ _ _ _ E).
    rewrite (windows_cons _ _ _ _ E). cbn [arith_plan].
    destruct (w_iarith op w (WScalar s)) as [w'|e].
    + rewrite IH; [|now apply assign_valid|exact D].
      rewrite windows_insert_notin by exact N.
      destruct (arith_plan _ (windows st ls)) as [news stop]. reflexivity.
    + cbn. now destruct st.
Qed.

Lemma rback_loop_planned (st : store) (ls : list loc) :
  valid st ls -> NoDup ls ->
  rback_loop ls st
  = (match snd (arith_plan
                  (fun w => w_iarith Sub w (WScalar (w_median w)))
                  (windows st ls)) with
     | None => Ok tt
     | Some e => Raise e
     end,
     mkStore
       (write_all ls
          (fst (arith_plan
                  (fun w => w_iarith Sub w (WScalar (w_median w)))
                  (windows st ls)))
          (heap st))
       (ccds st) (warnings st)).
Proof.
  revert st. induction ls as [|l ls IH]; intros st V D.
  - cbn. now destruct st.
  - apply valid_cons in V as [[w E] V]. apply NoDup_cons in D as [N D].
    cbn [rback_loop]. run_deref E.
    unfold bind at 1. rewrite (win_iop_cases _ _ _ _ _ E).
    rewrite (windows_cons _ _ _ _ E). cbn [arith_plan].
    destruct (w_iarith Sub w (WScalar (w_median w))) as [w'|e].
    + rewrite IH; [|now apply assign_valid|exact D].
      rewrite windows_insert_notin by exact N.
      destruct (arith_plan _ (windows st ls)) as [news stop]. reflexivity.
    + cbn. now destruct st.
Qed.

Lemma iop_zip_planned (op : binop) (st : store) (la lb : list loc) :
  valid st la -> valid st lb -> NoDup la ->
  (forall l, l ∈ lb -> l ∉ la) ->
  iop_zip op (zip la lb) st
  = (match snd (arith_plan (fun p => w_iarith op (fst p) (WWin (snd p)))
                  (zip (windows st la) (windows st lb))) with
     | None => Ok tt
     | Some e => Raise e
     end,
     mkStore
       (write_all la
          (fst (arith_plan (fun p => w_iarith op (fst p) (WWin (snd p)))
                  (zip (windows st la) (windows st lb))))
          (heap st))
       (ccds st) (warnings st)).
Proof.
  revert st lb. induction la as [|a la IH]; intros st lb Va Vb D Apart.
  - cbn. now destruct st.
  - destruct lb as [|b lb].
    + cbn [zip zip_with iop_zip]. unfold windows at 2 4.
      cbn [omap list_omap]. rewrite zip_with_nil_r. cbn. now destruct st.
    + apply valid_cons in Va as [[wa Ea] Va].
      apply valid_cons in Vb as [[wb Eb] Vb].
      apply NoDup_cons in D as [N D].
      cbn [zip zip_with iop_zip]. run_deref Eb.
      unfold bind at 1. rewrite (win_iop_cases _ _ _ _ _ Ea).
      rewrite (windows_cons _ _ _ _ Ea), (windows_cons _ _ _ _ Eb).
      cbn [zip zip_with arith_plan fst snd].
      destruct (w_iarith op wa (WWin wb)) as [w'|e].
      * rewrite IH; [|now apply assign_valid|now apply assign_valid|exact D|].
        2:{ intros l Hl Hla. apply (Apart l); apply elem_of_cons; auto. }
        assert (Nb : a ∉ lb).
        { intros Hb. apply (Apart a); apply elem_of_cons; auto. }
        rewrite (windows_insert_notin _ la) by exact N.
        rewrite (windows_insert_notin _ lb) by exact Nb.
        destruct (arith_plan _ (zip (windows st la) (windows st lb)))
          as [news stop].
        reflexivity.
      * cbn. now destruct st.
Qed.

Lemma windows_lookup (st : store) (ls : list loc) (i : nat) (l : loc)
    (w : Window) :
  valid st ls -> ls !! i = Some l -> heap st !! l = Some w ->
  windows st ls !! i = Some w.
Proof.
  revert i. induction ls as [|l0 ls IH]; intros i V El Ew;
    [now rewrite lookup_nil in El|].
  apply valid_cons in V as [[w0 E0] V]. rewrite (windows_cons _ _ _ _ E0).
  destruct i as [|i]; cbn in El |- *.
  - simplify_eq. reflexivity.
  - now apply IH.
Qed.

Lemma windows_lookup_inv (st : store) (ls : list loc) (i : nat)
    (w : Window) :
  valid st ls -> windows st ls !! i = Some w ->
  exists l, ls !! i = Some l /\ heap st !! l = Some w.
Proof.
  revert i. induction ls as [|l0 ls IH]; intros i V Ew;
    [unfold windows in Ew; cbn in Ew; now rewrite lookup_nil in Ew|].
  apply valid_cons in V as [[w0 E0] V].
  rewrite (windows_cons _ _ _ _ E0) in Ew.
  destruct i as [|i]; cbn in Ew |- *.
  - simplify_eq. eauto.
  - now apply IH.
Qed.

Lemma write_all_planned {X : Type} (f : X -> result Window) (xs : list X)
    (ls : list loc) (h : list Window) (i : nat) (l : loc) (x : X) :
  NoDup ls -> Forall (fun l => l < length h) ls ->
  i < length (fst (arith_plan f xs)) ->
  ls !! i = Some l -> xs !! i = Some x ->
  exists w', f x = Ok w' /\
             write_all ls (fst (arith_plan f xs)) h !! l = Some w'.
Proof.
  intros D V Li El Ex.
  destruct (arith_plan_prefix f xs) as (_ & Each & _).
  destruct (lookup_lt_is_Some_2 _ _ Li) as [w' Ew].
  destruct (Each i w' Ew) as (x' & Ex' & F).
  assert (x' = x) by congruence. subst x'.
  exists w'. split; [exact F|].
  eapply write_all_inside; eauto.
Qed.

(** X10: with a number on the right, an in-place operator ([+=], [-=],
    [*=], [/=]) on a CCD whose windows are distinct objects applies the
    Window operator to the windows in order.  It goes through [k] of
    them: each of those holds the result of the Window operator on its
    former contents, and every other Window object is as it was.  Either
    [k] is the number of windows and the operator returns the CCD itself,
    or the Window operator raised on window [k]: then the CCD operator
    raises the same exception, and the windows before [k] stay modified
    (nothing is rolled back). *)
Theorem X10_inplace_scalar_window_by_window (op : binop) (st : store)
    (self : cref) (c : CCD) (s : Q) :
  ccds st !! self = Some c -> valid st (_data c) -> NoDup (_data c) ->
  exists r st' k,
    inplace op self (OScalar s) st = (r, st') /\
    k <= length (_data c) /\
    (forall i l w,
       i < k -> _data c !! i = Some l -> heap st !! l = Some w ->
       exists w', w_iarith op w (WScalar s) = Ok w' /\
                  heap st' !! l = Some w') /\
    (forall l, l ∉ take k (_data c) -> heap st' !! l = heap st !! l) /\
    ccds st' = ccds st /\
    (r = Ok self /\ k = length (_data c) \/
     exists e l w,
       r = Raise e /\ _data c !! k = Some l /\ heap st !! l = Some w /\
       w_iarith op w (WScalar s) = Raise e).
Proof.
  intros Es V D.
  pose proof (iop_each_planned op st (_data c) s V D) as E.
  pose proof (arith_plan_prefix (fun w => w_iarith op w (WScalar s))
                (windows st (_data c))) as (Le & _ & Done & Stop).
  rewrite (windows_length _ _ V) in Le, Done.
  remember (arith_plan (fun w => w_iarith op w (WScalar s))
              (windows st (_data c))) as plan eqn:Ep.
  exists (match snd plan with None => Ok self | Some e => Raise e end).
  eexists. exists (length (fst plan)).
  split.
  { unfold inplace. run_get Es. unfold bind. rewrite E.
    destruct (snd plan); reflexivity. }
  cbn [heap ccds]. split; [exact Le|]. split; [|split; [|split]].
  - intros i l w Li El Ew. subst plan.
    apply (write_all_planned (fun w => w_iarith op w (WScalar s))
             (windows st (_data c)) (_data c) (heap st) i l w D V Li El).
    eapply windows_lookup; eauto.
  - intros l N. now apply write_all_outside.
  - reflexivity.
  - destruct (snd plan) as [e|] eqn:Sp.
    + right. destruct (Stop e eq_refl) as (w & Ew & F).
      destruct (windows_lookup_inv _ _ _ _ V Ew) as (l & El & Hl).
      exists e, l, w. auto.
    + left. split; [reflexivity|]. now apply Done.
Qed.

(** X11: with a CCD on the right, an in-place operator on a CCD whose
    windows are distinct objects, none of them a window of the operand,
    works through the pairs of windows in order, up to the shorter of the
    two lists.  It goes through [k] pairs: the left window of each holds
    the result of the Window operator on the former contents of the
    pair, and every other Window object, the operand's and the unpaired
    ones among them, is as it was.  Either [k] is the number of pairs
    and the operator returns the CCD itself, or the Window operator
    raised on pair [k]: then the same exception is raised, and the
    windows before [k] stay modified. *)
Theorem X11_inplace_ccd_pair_by_pair (op : binop) (st : store)
    (self other : cref) (a b : CCD) :
  ccds st !! self = Some a -> ccds st !! other = Some b ->
  valid st (_data a) -> valid st (_data b) -> NoDup (_data a) ->
  (forall l, l ∈ _data b -> l ∉ _data a) ->
  exists r st' k,
    inplace op self (OCCD other) st = (r, st') /\
    k <= Nat.min (length (_data a)) (length (_data b)) /\
    (forall i la lb wa wb,
       i < k -> _data a !! i = Some la -> _data b !! i = Some lb ->
       heap st !! la = Some wa -> heap st !! lb = Some wb ->
       exists w', w_iarith op wa (WWin wb) = Ok w' /\
                  heap st' !! la = Some w') /\
    (forall l, l ∉ take k (_data a) -> heap st' !! l = heap st !! l) /\
    ccds st' = ccds st /\
    (r = Ok self /\ k = Nat.min (length (_data a)) (length (_data b)) \/
     exists e la lb wa wb,
       r = Raise e /\ _data a !! k = Some la /\ _data b !! k = Some lb /\
       heap st !! la = Some wa /\ heap st !! lb = Some wb /\
       w_iarith op wa (WWin wb) = Raise e).
Proof.
  intros Ea Eb Va Vb D Apart.
  pose proof (iop_zip_planned op st (_data a) (_data b) Va Vb D Apart) as E.
  pose proof (arith_plan_prefix
                (fun p => w_iarith op (fst p) (WWin (snd p)))
                (zip (windows st (_data a)) (windows st (_data b))))
    as (Le & _ & Done & Stop).
  rewrite length_zip_with, (windows_length _ _ Va), (windows_length _ _ Vb)
    in Le, Done.
  remember (arith_plan (fun p => w_iarith op (fst p) (WWin (snd p)))
              (zip (windows st (_data a)) (windows st (_data b))))
    as plan eqn:Ep.
  exists (match snd plan with None => Ok self | Some e => Raise e end).
  eexists. exists (length (fst plan)).
  split.
  { unfold inplace. run_get Ea. unfold bind at 1. run_get Eb.
    unfold bind. rewrite E. destruct (snd plan); reflexivity. }
  cbn [heap ccds]. split; [exact Le|]. split; [|split; [|split]].
  - intros i la lb wa wb Li Ela Elb Ewa Ewb. subst plan.
    apply (write_all_planned
             (fun p => w_iarith op (fst p) (WWin (snd p)))
             (zip (windows st (_data a)) (windows st (_data b)))
             (_data a) (heap st) i la (wa, wb) D Va Li Ela).
    apply lookup_zip_with_Some. exists wa, wb.
    split; [reflexivity|].
    split; eapply windows_lookup; eauto.
  - intros l N. now apply write_all_outside.
  - reflexivity.
  - destruct (snd plan) as [e|] eqn:Sp.
    + right. destruct (Stop e eq_refl) as ([wa wb] & Ew & F).
      apply lookup_zip_with_Some in Ew as (wa' & wb' & Eq & Ewa & Ewb).
      simplify_eq.
      destruct (windows_lookup_inv _ _ _ _ Va Ewa) as (la & Ela & Hla).
      destruct (windows_lookup_inv _ _ _ _ Vb Ewb) as (lb & Elb & Hlb).
      exists e, la, lb, wa', wb'. auto 10.
    + left. split; [reflexivity|]. now apply Done.
Qed.

(** X12: [rback()] on a CCD whose windows are distinct objects subtracts
    from each window, in order, the median of that window itself, taken
    just before the subtraction.  It goes through [k] windows, each left
    holding the result; every other Window object is as it was.  Either
    [k] is the number of windows and [rback] returns, or the Window
    subtraction raised on window [k]: then the same exception is raised,
    and the windows before [k] stay modified. *)
Theorem X12_rback_window_by_window (st : store) (self : cref) (c : CCD) :
  ccds st !! self = Some c -> valid st (_data c) -> NoDup (_data c) ->
  exists r st' k,
    rback self st = (r, st') /\
    k <= length (_data c) /\
    (forall i l w,
       i < k -> _data c !! i = Some l -> heap st !! l = Some w ->
       exists w', w_iarith Sub w (WScalar (w_median w)) = Ok w' /\
                  heap st' !! l = Some w') /\
    (forall l, l ∉ take k (_data c) -> heap st' !! l = heap st !! l) /\
    ccds st' = ccds st /\
    (r = Ok tt /\ k = length (_data c) \/
     exists e l w,
       r = Raise e /\ _data c !! k = Some l /\ heap st !! l = Some w /\
       w_iarith Sub w (WScalar (w_median w)) = Raise e).
Proof.
  intros Es V D.
  pose proof (rback_loop_planned st (_data c) V D) as E.
  pose proof (arith_plan_prefix
                (fun w => w_iarith Sub w (WScalar (w_median w)))
                (windows st (_data c))) as (Le & _ & Done & Stop).
  rewrite (windows_length _ _ V) in Le, Done.
  remember (arith_plan (fun w => w_iarith Sub w (WScalar (w_median w)))
              (windows st (_data c))) as plan eqn:Ep.
  exists (match snd plan with None => Ok tt | Some e => Raise e end).
  eexists. exists (length (fst plan)).
  split.
  { unfold rback. run_get Es. exact E. }
  cbn [heap ccds]. split; [exact Le|]. split; [|split; [|split]].
  - intros i l w Li El Ew. subst plan.
    apply (write_all_planned
             (fun w => w_iarith Sub w (WScalar (w_median w)))
             (windows st (_data c)) (_data c) (heap st) i l w D V Li El).
    eapply windows_lookup; eauto.
  - intros l N. now apply write_all_outside.
  - reflexivity.
  - destruct (snd plan) as [e|] eqn:Sp.
    + right. destruct (Stop e eq_refl) as (w & Ew & F).
      destruct (windows_lookup_inv _ _ _ _ V Ew) as (l & El & Hl).
      exists e, l, w. auto.
    + left. split; [reflexivity|]. now apply Done.
Qed.

Lemma windows_write_all (ls : list loc) (news h : list Window)
    (cs : list CCD) (ws : list string) :
  NoDup ls -> Forall (fun l => l < length h) ls ->
  length news <= length ls ->
  windows (mkStore (write_all ls news h) cs ws) (take (length news) ls)
  = news.
Proof.
  revert news h. induction ls as [|l ls IH]; intros [|w news] h D V L;
    try reflexivity; [cbn in L; lia|].
  apply NoDup_cons in D as [N D]. apply Forall_cons in V as [L0 V].
  cbn [length take write_all]. cbn [length] in L.
  erewrite windows_cons.
  - f_equal. apply IH; [exact D| |lia].
    now rewrite length_insert.
  - cbn [heap]. rewrite write_all_outside.
    + now apply list_lookup_insert_eq.
    + intros Hl. apply N. eapply elem_of_take, Hl.
Qed.

(** X13: provided the in-place operator of Window computes what its
    value-returning operator computes, [a op= b] and [a op b] agree for
    CCDs [a] and [b] as in X11, both started from the same state: either
    both raise the same exception, or [a op= b] returns [a] and
    [a op b] a new CCD whose windows have the contents that the paired
    windows of [a] have after [a op= b]. *)
Theorem X13_inplace_agrees_with_value_returning (op : binop) (st : store)
    (self other : cref) (a b : CCD) :
  ccds st !! self = Some a -> ccds st !! other = Some b ->
  valid st (_data a) -> valid st (_data b) -> NoDup (_data a) ->
  (forall l, l ∈ _data b -> l ∉ _data a) ->
  (forall w o, w_iarith op w o = w_arith op w o) ->
  exists r1 st1 r2 st2,
    inplace op self (OCCD other) st = (r1, st1) /\
    binary op self (OCCD other) st = (r2, st2) /\
    (r1 = Ok self /\
     (exists c' cc,
        r2 = Ok c' /\ ccds st2 !! c' = Some cc /\
        windows st2 (_data cc)
        = windows st1
            (take (Nat.min (length (_data a)) (length (_data b)))
               (_data a))) \/
     exists e, r1 = Raise e /\ r2 = Raise e).
Proof.
  intros Ea Eb Va Vb D Apart Same.
  pose proof (iop_zip_planned op st (_data a) (_data b) Va Vb D Apart) as E.
  pose proof (binary_ccd_spec op st self other a b Ea Eb Va Vb) as B.
  assert (P : arith_plan (fun p => w_iarith op (fst p) (WWin (snd p)))
                (zip (windows st (_data a)) (windows st (_data b)))
              = arith_plan (fun p => w_arith op (fst p) (WWin (snd p)))
                  (zip (windows st (_data a)) (windows st (_data b)))).
  { generalize (zip (windows st (_data a)) (windows st (_data b))).
    intros xs. induction xs as [|x xs IH]; [reflexivity|].
    cbn [arith_plan]. now rewrite Same, IH. }
  rewrite P in E.
  pose proof (arith_plan_prefix
                (fun p => w_arith op (fst p) (WWin (snd p)))
                (zip (windows st (_data a)) (windows st (_data b))))
    as (Le & _ & Done & _).
  rewrite length_zip_with, (windows_length _ _ Va), (windows_length _ _ Vb)
    in Le, Done.
  destruct (arith_plan (fun p => w_arith op (fst p) (WWin (snd p)))
              (zip (windows st (_data a)) (windows st (_data b))))
    as [news [e|]]; cbn [fst snd] in *.
  - eexists _, _, _, _. split.
    { unfold inplace. run_get Ea. unfold bind at 1. run_get Eb.
      unfold bind. rewrite E. reflexivity. }
    split; [exact B|]. right. eauto.
  - eexists _, _, _, _. split.
    { unfold inplace. run_get Ea. unfold bind at 1. run_get Eb.
      unfold bind. rewrite E. reflexivity. }
    split; [exact B|]. left. split; [reflexivity|].
    eexists _, _. split; [reflexivity|]. split.
    { cbn [ccds]. apply list_lookup_middle. reflexivity. }
    cbn [_data]. rewrite windows_new.
    rewrite <- (Done eq_refl).
    symmetry. apply windows_write_all; [exact D|exact Va|].
    specialize (Done eq_refl). lia.
Qed.

(** *** Value-returning arithmetic with a number *)

Lemma arith_plan_ok {X : Type} (f : X -> result Window) (xs : list X) :
  (forall x, x ∈ xs -> exists w, f x = Ok w) ->
  snd (arith_plan f xs) = None /\
  Forall2 (fun x w => f x = Ok w) xs (fst (arith_plan f xs)).
Proof.
  induction xs as [|x xs IH]; intros All; cbn [arith_plan].
  - split; [reflexivity|constructor].
  - destruct (All x) as [w F]; [apply elem_of_cons; auto|].
    rewrite F. destruct IH as [N P].
    { intros x' Hx'. apply All, elem_of_cons. auto. }
    destruct (arith_plan f xs) as [news stop]. cbn [fst snd] in *.
    split; [exact N|]. now constructor.
Qed.

Lemma scalar_outcome_flagged (st : store) (c : CCD)
    (plan : list Window * option exn) (f : Window -> result Window) :
  good c = false -> snd plan = None ->
  Forall2 (fun w w' => f w = Ok w') (windows st (_data c)) (fst plan) ->
  exists c' wins st',
    scalar_outcome st c plan = (Ok c', st') /\
    ccds st !! c' = None /\
    ccds st' !! c'
    = Some (mkCCD wins (time c) (nxmax c) (nymax c) false (head c)) /\
    Forall2 (fun w w' => f w = Ok w')
      (windows st (_data c)) (windows st' wins) /\
    (forall l, l ∈ wins -> heap st !! l = None) /\
    heap st `prefix_of` heap st' /\ ccds st `prefix_of` ccds st'.
Proof.
  intros G N P. destruct plan as [news stop]. cbn [fst snd] in *. subst stop.
  unfold scalar_outcome. rewrite G.
  eexists _, _, _. split; [reflexivity|]. cbn [heap ccds].
  split; [now apply lookup_ge_None_2|].
  split; [apply list_lookup_middle; reflexivity|].
  split; [now rewrite windows_new|].
  split; [|split; apply prefix_app_r; reflexivity].
  intros l Hl. apply elem_of_seq in Hl. apply lookup_ge_None_2. lia.
Qed.

(** X14: on a CCD whose validity flag is false, an operator with a number
    on either side ([ccd op x], [x op ccd]) whose Window operator
    succeeds on every window returns a new CCD object: its windows are
    new Window objects, as many as the CCD has and in the same order,
    each the result of the Window operator on the window at its
    position; time, dimensions and header are those of the CCD and the
    flag is false.  The objects that were there are unchanged. *)
Theorem X14_scalar_arithmetic_on_flagged_ccd (op : binop) (st : store)
    (self : cref) (c : CCD) (s : Q) :
  ccds st !! self = Some c -> valid st (_data c) -> good c = false ->
  ((forall w, w ∈ windows st (_data c) ->
      exists w', w_arith op w (WScalar s) = Ok w') ->
   exists c' wins st',
     binary op self (OScalar s) st = (Ok c', st') /\
     ccds st !! c' = None /\
     ccds st' !! c'
     = Some (mkCCD wins (time c) (nxmax c) (nymax c) false (head c)) /\
     Forall2 (fun w w' => w_arith op w (WScalar s) = Ok w')
       (windows st (_data c)) (windows st' wins) /\
     (forall l, l ∈ wins -> heap st !! l = None) /\
     heap st `prefix_of` heap st' /\ ccds st `prefix_of` ccds st') /\
  ((forall w, w ∈ windows st (_data c) ->
      exists w', w_rarith op s w = Ok w') ->
   exists c' wins st',
     reflected op self s st = (Ok c', st') /\
     ccds st !! c' = None /\
     ccds st' !! c'
     = Some (mkCCD wins (time c) (nxmax c) (nymax c) false (head c)) /\
     Forall2 (fun w w' => w_rarith op s w = Ok w')
       (windows st (_data c)) (windows st' wins) /\
     (forall l, l ∈ wins -> heap st !! l = None) /\
     heap st `prefix_of` heap st' /\ ccds st `prefix_of` ccds st').
Proof.
  intros Ec V G. split; intros All.
  - rewrite (binary_scalar_spec _ _ _ _ _ Ec V).
    destruct (arith_plan_ok _ _ All) as [N P].
    exact (scalar_outcome_flagged st c _
             (fun w => w_arith op w (WScalar s)) G N P).
  - rewrite (reflected_spec _ _ _ _ _ Ec V).
    destruct (arith_plan_ok _ _ All) as [N P].
    exact (scalar_outcome_flagged st c _ (w_rarith op s) G N P).
Qed.

(** *** What the methods leave alone *)

Lemma readonly_ret {A : Type} (a : A) : readonly (ret a : M A).
Proof. intros st. reflexivity. Qed.

Lemma readonly_raise {A : Type} (e : exn) : readonly (raise e : M A).
Proof. intros st. reflexivity. Qed.

Lemma readonly_deref (l : loc) : readonly (deref l : M Window).
Proof. intros st. unfold deref. now destruct (heap st !! l). Qed.

Lemma readonly_get (c : cref) : readonly (get c : M CCD).
Proof. intros st. unfold get. now destruct (ccds st !! c). Qed.

Lemma readonly_bind {A B : Type} (m : M A) (k : A -> M B) :
  readonly m -> (forall a, readonly (k a)) -> readonly (bind m k).
Proof.
  intros Rm Rk st. unfold bind. specialize (Rm st).
  destruct (m st) as [[a|e] st1]; cbn in Rm; subst st1; [apply Rk|].
  reflexivity.
Qed.

Lemma readonly_lift {A : Type} (r : result A) : readonly (lift r : M A).
Proof. intros st. reflexivity. Qed.

Create HintDb readonly.
#[local] Hint Resolve readonly_ret readonly_raise readonly_lift
  readonly_deref readonly_get : readonly.

Ltac readonly_steps :=
  repeat (apply readonly_bind; [solve [auto with readonly]|intros ?]);
  auto with readonly.

Lemma readonly_eq_windows (ps : list (loc * loc)) :
  readonly (eq_windows ps : M bool).
Proof.
  induction ps as [|[s o] ps IH]; cbn [eq_windows]; readonly_steps.
  now destruct (w_ne _ _); auto with readonly.
Qed.

Lemma readonly_anyInt_loop (ls : list loc) :
  readonly (anyInt_loop ls : M bool).
Proof.
  induction ls as [|l ls IH]; cbn [anyInt_loop]; readonly_steps.
  now destruct (is_integer _); auto with readonly.
Qed.

Lemma readonly_anyFloat_loop (ls : list loc) :
  readonly (anyFloat_loop ls : M bool).
Proof.
  induction ls as [|l ls IH]; cbn [anyFloat_loop]; readonly_steps.
  now destruct (is_floating _); auto with readonly.
Qed.

Lemma readonly_mean_loop (ls : list loc) (nelem : nat) (sum : number) :
  readonly (mean_loop ls nelem sum : M (nat * number)).
Proof.
  revert nelem sum. induction ls as [|l ls IH]; intros nelem sum;
    cbn [mean_loop]; readonly_steps.
Qed.

Lemma readonly_min_loop (ls : list loc) (minv : option Q) :
  readonly (min_loop ls minv : M (option Q)).
Proof.
  revert minv. induction ls as [|l ls IH]; intros minv;
    cbn [min_loop]; readonly_steps.
Qed.

Lemma readonly_max_loop (ls : list loc) (maxv : option Q) :
  readonly (max_loop ls maxv : M (option Q)).
Proof.
  revert maxv. induction ls as [|l ls IH]; intros maxv;
    cbn [max_loop]; readonly_steps.
Qed.

Lemma readonly_npix_loop (ls : list loc) (np : nat) :
  readonly (npix_loop ls np : M nat).
Proof.
  revert np. induction ls as [|l ls IH]; intros np;
    cbn [npix_loop]; readonly_steps.
Qed.

Lemma readonly_flatten_loop (ls : list loc) (larr : list (list Q)) :
  readonly (flatten_loop ls larr : M (list (list Q))).
Proof.
  revert larr. induction ls as [|l ls IH]; intros larr;
    cbn [flatten_loop]; readonly_steps.
Qed.

Lemma readonly_encloses_loop (ls : list loc) (wino : Window) :
  readonly (encloses_loop ls wino : M bool).
Proof.
  induction ls as [|l ls IH]; cbn [encloses_loop]; readonly_steps.
  now destruct (w_ge _ _); auto with readonly.
Qed.

Lemma readonly_canCropTo_loop (sd os : list loc) :
  readonly (canCropTo_loop sd os : M bool).
Proof.
  induction os as [|o os IH]; cbn [canCropTo_loop]; auto with readonly.
  apply readonly_bind; [auto with readonly|]. intros wino.
  apply readonly_bind; [apply readonly_encloses_loop|].
  intros [|]; auto with readonly.
Qed.

#[local] Hint Resolve readonly_eq_windows readonly_anyInt_loop
  readonly_anyFloat_loop readonly_mean_loop readonly_min_loop
  readonly_max_loop readonly_npix_loop readonly_flatten_loop
  readonly_canCropTo_loop : readonly.

(** X16: the queries change nothing.  [len], [nwin], [data], [==], [!=],
    [anyInt], [anyFloat], [mean], [min], [max], [npix], [median],
    [centile] and [canCropTo] leave every Window object, every CCD
    object and the warnings as they were, whatever they answer and also
    when they raise. *)
Theorem X16_queries_change_nothing (self other : cref) (pcent : pcent_arg) :
  readonly (__len__ self : M nat) /\
  readonly (nwin self : M nat) /\
  readonly (data self : M (list loc)) /\
  readonly (__eq__ self other : M bool) /\
  readonly (__ne__ self other : M bool) /\
  readonly (anyInt self : M bool) /\
  readonly (anyFloat self : M bool) /\
  readonly (mean self : M pyfloat) /\
  readonly (min self : M (option Q)) /\
  readonly (max self : M (option Q)) /\
  readonly (npix self : M nat) /\
  readonly (median self : M (np_outcome Q)) /\
  readonly (centile self pcent : M (np_outcome pcents)) /\
  readonly (canCropTo self other : M bool).
Proof.
  assert (readonly (__eq__ self other : M bool)) as Req.
  { unfold __eq__. readonly_steps.
    now destruct (_ || _); auto with readonly. }
  unfold __len__, nwin, data, __ne__, anyInt, anyFloat, mean, min, max,
    npix, median, centile, canCropTo.
  repeat split; try exact Req; readonly_steps.
  - destruct pcent; readonly_steps.
  - now destruct (_ || _); auto with readonly.
Qed.

Lemma creates_only_readonly {A : Type} (m : M A) :
  readonly m -> creates_only m.
Proof.
  intros R st r st' E. specialize (R st). rewrite E in R. cbn in R.
  subst st'. auto.
Qed.

Lemma creates_only_bind {A B : Type} (m : M A) (k : A -> M B) :
  creates_only m -> (forall a, creates_only (k a)) ->
  creates_only (bind m k).
Proof.
  intros Cm Ck st r st' E. unfold bind in E.
  destruct (m st) as [[a|e] st1] eqn:Em.
  - destruct (Cm _ _ _ Em) as (H1 & C1 & W1).
    destruct (Ck a _ _ _ E) as (H2 & C2 & W2).
    split; [now transitivity (heap st1)|].
    split; [now transitivity (ccds st1)|]. congruence.
  - simplify_eq. exact (Cm _ _ _ Em).
Qed.

Lemma creates_only_alloc (w : Window) : creates_only (alloc w : M loc).
Proof.
  intros st r st' E. unfold alloc in E. simplify_eq. cbn.
  split; [now apply prefix_app_r|]. auto.
Qed.

Lemma creates_only_init (wins : list loc) (t : Time) (nx ny : Z) (g : bool)
    (hd : option Uhead) :
  creates_only (__init__ wins t nx ny g hd : M cref).
Proof.
  intros st r st' E. unfold __init__ in E. simplify_eq. cbn.
  split; [reflexivity|]. split; [now apply prefix_app_r|]. reflexivity.
Qed.

Create HintDb creates.
#[local] Hint Resolve creates_only_alloc creates_only_init : creates.
#[local] Hint Extern 1 (creates_only _) =>
  (apply creates_only_readonly; solve [auto with readonly]) : creates.

Ltac creates_steps :=
  repeat (apply creates_only_bind; [solve [auto with creates]|intros ?]);
  auto with creates.

Lemma creates_only_op_zip (op : binop) (ps : list (loc * loc))
    (twins : list loc) :
  creates_only (op_zip op ps twins : M (list loc)).
Proof.
  revert twins. induction ps as [|[l lo] ps IH]; intros twins;
    cbn [op_zip]; creates_steps.
Qed.

Lemma creates_only_op_each (op : binop) (ls : list loc) (s : Q)
    (twins : list loc) :
  creates_only (op_each op ls s twins : M (list loc)).
Proof.
  revert twins. induction ls as [|l ls IH]; intros twins;
    cbn [op_each]; creates_steps.
Qed.

Lemma creates_only_rop_each (op : binop) (ls : list loc) (s : Q)
    (twins : list loc) :
  creates_only (rop_each op ls s twins : M (list loc)).
Proof.
  revert twins. induction ls as [|l ls IH]; intros twins;
    cbn [rop_each]; creates_steps.
Qed.

Lemma readonly_crop_first (ls : list loc) (wino : Window) :
  readonly (crop_first ls wino : M (option Window)).
Proof.
  induction ls as [|l ls IH]; cbn [crop_first]; readonly_steps.
  now destruct (w_canCropTo _ _); auto with readonly.
Qed.

Lemma creates_only_cropTo_loop (sd os : list loc) (nwino : nat)
    (wins : list loc) :
  creates_only (cropTo_loop sd os nwino wins : M (list loc)).
Proof.
  revert nwino wins. induction os as [|o os IH]; intros nwino wins;
    cbn [cropTo_loop]; creates_steps.
  apply creates_only_bind.
  - apply creates_only_readonly, readonly_crop_first.
  - intros [w|]; creates_steps.
Qed.

Lemma readonly_good_and (s : CCD) (other : operand) :
  readonly (good_and s other : M bool).
Proof.
  unfold good_and, getattr_good.
  destruct (good s); [|auto with readonly].
  destruct other; readonly_steps.
Qed.

#[local] Hint Resolve creates_only_op_zip creates_only_op_each
  creates_only_rop_each creates_only_cropTo_loop : creates.
#[local] Hint Resolve readonly_good_and : readonly.

(** X15: the value-returning operators ([+], [-], [*], [/] with a CCD or
    a number on the right, and with a number on the left), [cropTo] and
    the constructor never change an object that exists: every Window
    and every CCD object is afterwards what it was, the operands
    included, and no warning is issued.  This holds as well when they
    raise; the Window objects created before the exception are new
    objects. *)
Theorem X15_value_returning_methods_only_create (op : binop)
    (self ccd : cref) (other : operand) (s : Q)
    (wins : list (pyval Uhead)) (t : Time) (nx ny : Z) (g : bool)
    (hd : pyval Uhead) :
  creates_only (binary op self other : M cref) /\
  creates_only (reflected op self s : M cref) /\
  creates_only (cropTo self ccd : M cref) /\
  creates_only (new_CCD wins t nx ny g hd : M cref).
Proof.
  unfold binary, reflected, cropTo, new_CCD.
  split; [|split; [|split]].
  - apply creates_only_bind; [auto with creates|]. intros a.
    apply creates_only_bind; [|intros ?; creates_steps].
    destruct other; creates_steps.
  - creates_steps.
  - creates_steps. destruct (_ || _); creates_steps.
  - apply creates_only_bind.
    + apply creates_only_readonly. intros st.
      now rewrite check_windows_spec.
    + intros _. apply creates_only_bind; [|intros ?; creates_steps].
      destruct (_ && _); auto with creates.
Qed.

(** *** What equality looks at *)

Lemma eq_windows_sym (st : store) (la lb : list loc) :
  valid st la -> valid st lb ->
  (forall wa wb, wa ∈ windows st la -> wb ∈ windows st lb ->
     w_ne wa wb = w_ne wb wa) ->
  eq_windows (zip la lb) st = eq_windows (zip lb la) st.
Proof.
  revert lb. induction la as [|a la IH]; intros [|b lb] Va Vb Sym;
    try reflexivity.
  apply valid_cons in Va as [[wa Ea] Va].
  apply valid_cons in Vb as [[wb Eb] Vb].
  rewrite (windows_cons _ _ _ _ Ea), (windows_cons _ _ _ _ Eb) in Sym.
  cbn [zip zip_with eq_windows].
  run_deref Ea. run_deref Eb. run_deref Ea.
  rewrite (Sym wa wb) by (apply elem_of_cons; auto).
  destruct (w_ne wb wa); [reflexivity|].
  apply IH; [exact Va|exact Vb|].
  intros wa' wb' Ha Hb. apply Sym; apply elem_of_cons; auto.
Qed.

(** X17: [==] looks at [nxmax], [nymax] and the windows only.  A CCD that
    differs from [a] in its time, its validity flag or its header
    compares to any CCD, on either side, as [a] does; and when the
    inequality of Window is symmetric on the windows compared, [a == b]
    and [b == a] give the same answer. *)
Theorem X17_eq_looks_at_dimensions_and_windows (st : store)
    (self self' other : cref) (a a' b : CCD) :
  ccds st !! self = Some a -> ccds st !! self' = Some a' ->
  ccds st !! other = Some b ->
  _data a' = _data a -> nxmax a' = nxmax a -> nymax a' = nymax a ->
  __eq__ self' other st = __eq__ self other st /\
  __eq__ other self' st = __eq__ other self st /\
  __ne__ self' other st = __ne__ self other st /\
  (valid st (_data a) -> valid st (_data b) ->
   (forall wa wb,
      wa ∈ windows st (_data a) -> wb ∈ windows st (_data b) ->
      w_ne wa wb = w_ne wb wa) ->
   __eq__ self other st = __eq__ other self st).
Proof.
  intros Ea Ea' Eb D X Y.
  assert (__eq__ self' other st = __eq__ self other st) as E1.
  { unfold __eq__. run_get Ea'. run_get Ea. run_get Eb.
    now rewrite D, X, Y. }
  split; [exact E1|]. split; [|split].
  - unfold __eq__. run_get Eb. run_get Ea'. run_get Ea.
    now rewrite D, X, Y.
  - unfold __ne__, bind. now rewrite E1.
  - intros Va Vb Sym. unfold __eq__. run_get Ea. run_get Eb. run_get Ea.
    rewrite (Z.eqb_sym (nxmax a)), (Z.eqb_sym (nymax a)),
      (Nat.eqb_sym (length (_data a))).
    destruct (_ || _); [reflexivity|].
    now apply eq_windows_sym.
Qed.

(** *** Text *)

Lemma append_assoc (a b c : string) :
  ((a ++ b) ++ c = a ++ (b ++ c))%string.
Proof. induction a as [|x a IH]; cbn; [reflexivity|]. now rewrite IH. Qed.

Lemma append_nil_r (a : string) : (a ++ EmptyString = a)%string.
Proof. induction a as [|x a IH]; cbn; [reflexivity|]. now rewrite IH. Qed.

Lemma text_loop_spec (line : nat -> Window -> string)
    (loop : list loc -> nat -> string -> M string) :
  (forall nwin ret_, loop [] nwin ret_ = ret ret_) ->
  (forall l ls nwin ret_,
     loop (l :: ls) nwin ret_
     = (win <- deref l ;; loop ls (S nwin) (ret_ ++ line nwin win)%string)) ->
  forall (st : store) (ls : list loc) (nwin : nat) (ret_ : string),
    valid st ls ->
    loop ls nwin ret_ st
    = (Ok (ret_ ++ joined (imap (fun i => line (nwin + i))
                             (windows st ls)))%string, st).
Proof.
  intros Nil Cons st ls. induction ls as [|l ls IH]; intros nwin ret_ V.
  - rewrite Nil. unfold windows. cbn. now rewrite append_nil_r.
  - apply valid_cons in V as [[w E] V].
    rewrite Cons. run_deref E. rewrite (windows_cons _ _ _ _ E).
    rewrite IH by exact V. rewrite imap_cons. cbn [joined fold_right].
    rewrite Nat.add_0_r, append_assoc. do 3 f_equal.
    rewrite (imap_ext (fun i => line (S nwin + i))
               ((fun i => line (nwin + i)) ∘ S) (windows st ls));
      [reflexivity|].
    intros i x _. cbn. f_equal. lia.
Qed.

(** X18: for a CCD whose windows exist, [format()] returns one line per
    window, in the order of the windows and numbered from 1, each
    ["Window <number> = "] followed by the format of the window and a
    newline, and the empty string for a CCD without windows.
    [str(ccd)] returns the text of the header when there is one, then
    the line of the dimensions, the window count and the validity flag,
    then one block per window, numbered from 1.  Neither raises and
    neither changes anything. *)
Theorem X18_format_and_str (st : store) (self : cref) (c : CCD) :
  ccds st !! self = Some c -> valid st (_data c) ->
  format self st
  = (Ok (joined (imap format_line (windows st (_data c)))), st) /\
  __str__ self st
  = (Ok (match head c with
         | Some h => head_str h
         | None => EmptyString
         end
         ++ dimensions_line c (length (windows st (_data c)))
         ++ joined (imap str_block (windows st (_data c))))%string, st) /\
  (_data c = [] -> format self st = (Ok EmptyString, st)).
Proof.
  intros Ec V.
  assert (format self st
          = (Ok (joined (imap format_line (windows st (_data c)))), st))
    as F.
  { unfold format. run_get Ec.
    rewrite (text_loop_spec format_line format_loop) by (auto; reflexivity).
    reflexivity. }
  split; [exact F|]. split.
  - unfold __str__, __len__. run_get Ec. unfold bind at 1.
    run_get Ec. unfold ret at 1.
    rewrite (text_loop_spec str_block str_loop) by (auto; reflexivity).
    rewrite (windows_length _ _ V), append_assoc. reflexivity.
  - intros D. rewrite F, D. reflexivity.
Qed.

End Proofs.

(** ** The theorems at concrete CCDs *)

Lemma valid_ex_01 : valid SpecWindow.ex_store [0; 1].
Proof. repeat constructor. Qed.

(** C4 at CCDs 0 and 1 of the example store, two CCDs of equal Windows. *)
Lemma C4_witness :
  exists r,
    __eq__ 0 1 SpecWindow.ex_store = (Ok r, SpecWindow.ex_store) /\
    __ne__ 0 1 SpecWindow.ex_store = (Ok (negb r), SpecWindow.ex_store) /\
    (r = true <->
     100%Z = 100%Z /\ 100%Z = 100%Z /\ 2 = 2 /\
     forall (i : nat) (la lb : loc) (wa wb : SpecWindow.Window),
       [0; 1] !! i = Some la -> [2; 3] !! i = Some lb ->
       SpecWindow.ex_heap !! la = Some wa ->
       SpecWindow.ex_heap !! lb = Some wb ->
       w_eq wa wb = true).
Proof.
  apply (C4_eq_iff_and_ne_negates SpecWindow.ex_store 0 1
           (mkCCD [0; 1] 0 100 100 true None)
           (mkCCD [2; 3] 0 100 100 true None));
    [reflexivity | reflexivity | |]; repeat constructor.
Defined.

(** C2 fails as stated: CCD 0 has two Windows and CCD 2 has one, its
    first; comparing the paired Windows and the dimensions alone would
    answer [True] where [__eq__] answers [False]. *)
Lemma C2_counterexample :
  length [0; 1] <> length [0] /\
  eq_truncating 0 2 SpecWindow.ex_store = (Ok true, SpecWindow.ex_store) /\
  __eq__ 0 2 SpecWindow.ex_store = (Ok false, SpecWindow.ex_store).
Proof. repeat split. cbn. lia. Qed.

(** C2, as amended, at CCDs 0 and 2 of the example store. *)
Lemma C2_witness :
  length [0; 1] <> length [0] /\
  __eq__ 0 2 SpecWindow.ex_store = (Ok false, SpecWindow.ex_store) /\
  __ne__ 0 2 SpecWindow.ex_store = (Ok true, SpecWindow.ex_store).
Proof.
  split; [cbn; lia|].
  apply (C2_eq_count_mismatch_is_false SpecWindow.ex_store 0 2
           (mkCCD [0; 1] 0 100 100 true None)
           (mkCCD [0] 0 100 100 true None));
    [reflexivity | reflexivity | cbn; lia].
Defined.

Lemma valid_ex_0 : valid SpecWindow.ex_store [0].
Proof. repeat constructor. Qed.

(** *** Scalar operands *)

(** C1 fails on the code: on a CCD whose validity flag is true, here CCD 2
    of the example store with the scalar 10, each of the eight
    value-returning operators raises [AttributeError] for the attribute
    [good] of the scalar, after it built the Windows of the result. *)
Theorem C1_scalar_operand_raises_on_good_ccd :
  good <$> ccds SpecWindow.ex_store !! 2 = Some true /\
  fst (__add__ 2 (OScalar 10) SpecWindow.ex_store)
  = Raise (AttributeError "good") /\
  fst (__sub__ 2 (OScalar 10) SpecWindow.ex_store)
  = Raise (AttributeError "good") /\
  fst (__mul__ 2 (OScalar 10) SpecWindow.ex_store)
  = Raise (AttributeError "good") /\
  fst (__div__ 2 (OScalar 10) SpecWindow.ex_store)
  = Raise (AttributeError "good") /\
  fst (__radd__ 2 10 SpecWindow.ex_store) = Raise (AttributeError "good") /\
  fst (__rsub__ 2 10 SpecWindow.ex_store) = Raise (AttributeError "good") /\
  fst (__rmul__ 2 10 SpecWindow.ex_store) = Raise (AttributeError "good") /\
  fst (__rdiv__ 2 10 SpecWindow.ex_store) = Raise (AttributeError "good").
Proof. repeat split. Qed.

(** The in-place operators take the same scalar: [ccd += 10] raises
    nothing, returns the CCD and leaves every pixel at 510. *)
Example iadd_scalar_scenario :
  exists st',
    __iadd__ 2 (OScalar 10) SpecWindow.ex_store = (Ok 2, st') /\
    min 2 st' = (Ok (Some 510%Q), st') /\
    max 2 st' = (Ok (Some 510%Q), st') /\
    mean 2 st' = (Ok (Finite 510), st').
Proof.
  eexists. split; [reflexivity|]. split; [reflexivity|].
  split; [reflexivity|]. vm_compute. reflexivity.
Qed.

(** One CCD on both sides: [ccd -= ccd] reads and writes the same Window
    objects and leaves every pixel at 0. *)
Example isub_self_scenario :
  exists st',
    __isub__ 2 (OCCD 2) SpecWindow.ex_store = (Ok 2, st') /\
    windows st' [0] = [SpecWindow.window 0 0 [[0; 0]; [0; 0]]%Q].
Proof. eexists. split; reflexivity. Qed.

(** *** Statistics *)


(** The mean of CCD 0 is the float nearest to 2007/5; the average of the
    two per-window means would be 507/2. *)
Example mean_is_not_the_mean_of_means :
  exists m,
    mean 0 SpecWindow.ex_store = (Ok (Finite m), SpecWindow.ex_store) /\
    round (2007 # 5) = Finite m /\ ~ (m == 507 # 2)%Q.
Proof.
  eexists. split; [vm_compute; reflexivity|].
  split; [vm_compute; reflexivity|]. discriminate.
Qed.

(** The float nearest to a number, on numbers whose float Python shows:
    [0.1], [1/3.], the tie between [2 ** 53] and [2 ** 53 + 2], the tie
    of [2 ** -1075] with 0, and [2 ** 1024]. *)
Example round_as_python_does :
  round (1 # 10) = Finite (3602879701896397 # 36028797018963968) /\
  round (1 # 3) = Finite (6004799503160661 # 18014398509481984) /\
  round (9007199254740993 # 1) = Finite (9007199254740992 # 1) /\
  round (pow2 (-1075)) = Finite 0 /\
  round (pow2 1024) = Infinity false.
Proof. repeat split; vm_compute; reflexivity. Qed.

(** C9 at CCD 3 of the example store, which has no window. *)
Lemma C9_witness :
  min 3 SpecWindow.ex_store = (Ok None, SpecWindow.ex_store) /\
  max 3 SpecWindow.ex_store = (Ok None, SpecWindow.ex_store) /\
  mean 3 SpecWindow.ex_store = (Raise ZeroDivisionError, SpecWindow.ex_store).
Proof.
  apply (C9_statistics_of_empty_ccd SpecWindow.ex_store 3
           (mkCCD [] 0 100 100 true None)); reflexivity.
Defined.

(** *** Conversion to integers *)

(** C7 fails as stated: CCD 3 has no window, [toInt()] has nothing to
    convert and [anyInt()] answers [False]. *)
Lemma C7_counterexample :
  _data <$> ccds SpecWindow.ex_store !! 3 = Some [] /\
  bind (toInt 3) (fun _ => anyInt 3) SpecWindow.ex_store
  = (Ok false, SpecWindow.ex_store).
Proof. split; reflexivity. Qed.

(** C7, as amended, at the CCD of [range_store]: one warning, for the
    second window, and both windows converted. *)
Lemma C7_witness :
  exists st',
    toInt 0 SpecWindow.range_store = (Ok tt, st') /\
    anyInt 0 st' = (Ok true, st') /\
    warnings st' = [toInt_warning] /\
    heap st'
    = [SpecWindow.wB;
       SpecWindow.mkWindow 0 0 1 1 uint16 [[65535; 4464]]%Q].
Proof.
  destruct (@C7_toInt_then_anyInt SpecWindow.Window nat string SpecWindow.ops
              (fun k w => eq_refl)
              SpecWindow.range_store 0 (mkCCD [0; 1] 0 100 100 true None))
    as (st' & E & A & _); [reflexivity | discriminate | repeat constructor |].
  exists st'. split; [exact E|]. split; [exact A|].
  vm_compute in E. injection E as <-. split; reflexivity.
Defined.

(** *** Cropping *)

(** C3 at the CCDs of [crop_store]: the crop succeeds, CCD 0 and its
    window are as before, and the new CCD 2 holds the cropped window.
    And C3 at CCDs 2 and 0 of the example store: the window of CCD 2 can
    be cropped to the first window of CCD 0 and not to the second, the
    error names window 2, and CCD 2 and its window are as before. *)
Lemma C3_witness :
  (exists r st',
     cropTo 0 1 SpecWindow.crop_store = (r, st') /\
     r = Ok 2 /\
     ccds st' !! 0 = Some (mkCCD [0] 0 100%Z 100%Z true None) /\
     windows st' [0] = [SpecWindow.wA] /\
     ccds st' !! 2 = Some (mkCCD [2] 0 100%Z 100%Z true None) /\
     windows st' [2] = [SpecWindow.window 1 1 [[500]]%Q]) /\
  (exists st',
     cropTo 2 0 SpecWindow.ex_store
     = (Raise (UltracamError
          ("CCD.crop: could not crop any window of CCD to match "
             ++ "window 2 of other.")%string),
        st') /\
     ccds st' !! 2 = Some (mkCCD [0] 0 100%Z 100%Z true None) /\
     windows st' [0] = [SpecWindow.wA]).
Proof.
  split.
  - destruct (C3_cropTo_errors_and_result SpecWindow.crop_store 0 1
                (mkCCD [0] 0 100 100 true None)
                (mkCCD [1] 0 100 100 true None))
      as (r & st' & E & (Ua & Uw & _) & _);
      [reflexivity | reflexivity | repeat constructor | repeat constructor |].
    exists r, st'. split; [exact E|].
    vm_compute in E. injection E as <- <-. repeat split.
  - destruct (C3_cropTo_errors_and_result SpecWindow.ex_store 2 0
                (mkCCD [0] 0 100 100 true None)
                (mkCCD [0; 1] 0 100 100 true None))
      as (r & st' & E & (Ua & Uw & _) & _ & _ & _ & Names & _);
      [reflexivity | reflexivity | exact valid_ex_0 | exact valid_ex_01 |].
    exists st'. split; [|split; [exact Ua|exact Uw]].
    rewrite E. f_equal.
    apply (Names eq_refl eq_refl 1 SpecWindow.wB); [reflexivity|reflexivity|].
    intros j wj Lt Ej. destruct j as [|j]; [|lia].
    cbn in Ej. injection Ej as <-. reflexivity.
Defined.

(** The other way round no window of CCD 1 can be cropped to the window
    of CCD 0, and the error names window 1. *)
Example cropTo_error_names_the_window :
  fst (cropTo 1 0 SpecWindow.crop_store)
  = Raise (UltracamError
      "CCD.crop: could not crop any window of CCD to match window 1 of other.").
Proof. reflexivity. Qed.

(** C8 fails as stated: the CCD of [ov_store] lists two windows on the
    same pixel; [canCropTo] holds, [cropTo] succeeds, and the second
    window of the result is the crop of the first window, which is not
    equal to the second. *)
Lemma C8_counterexample :
  canCropTo 0 0 SpecWindow.ov_store = (Ok true, SpecWindow.ov_store) /\
  windows SpecWindow.ov_store [0; 1] = [SpecWindow.ov1; SpecWindow.ov2] /\
  exists st',
    cropTo 0 0 SpecWindow.ov_store = (Ok 1, st') /\
    _data <$> ccds st' !! 1 = Some [2; 3] /\
    windows st' [2; 3] = [SpecWindow.ov1; SpecWindow.ov1] /\
    w_eq SpecWindow.ov1 SpecWindow.ov2 = false.
Proof.
  split; [reflexivity|]. split; [reflexivity|].
  eexists. split; [reflexivity|]. repeat split.
Qed.

(** C8, as amended, at CCD 0 of the example store, whose windows do not
    overlap. *)
Lemma C8_witness :
  exists c' st' wins,
    cropTo 0 0 SpecWindow.ex_store = (Ok c', st') /\
    ccds st' !! c' = Some (mkCCD wins 0 100%Z 100%Z true None) /\
    Forall2 (fun w' w => w_eq w' w = true)
      (windows st' wins) (windows SpecWindow.ex_store [0; 1]).
Proof.
  apply (C8_self_crop_identity SpecWindow.ex_store 0
           (mkCCD [0; 1] 0 100 100 true None));
    [reflexivity | exact valid_ex_01 | reflexivity | |].
  - intros w Hw. change (w ∈ [SpecWindow.wA; SpecWindow.wB]) in Hw.
    apply elem_of_cons in Hw as [->|Hw]; [split; reflexivity|].
    apply elem_of_cons in Hw as [->|Hw]; [split; reflexivity|].
    now apply elem_of_nil in Hw.
  - intros i j wi wj Lt Ei Ej.
    change (windows SpecWindow.ex_store [0; 1])
      with [SpecWindow.wA; SpecWindow.wB] in Ei, Ej.
    destruct i as [|[|i]]; [lia| |discriminate].
    destruct j as [|j]; [|lia].
    cbn in Ei, Ej. injection Ei as <-. injection Ej as <-. reflexivity.
Defined.

(** *** CCD-CCD arithmetic *)



(** *** Construction, the [data] property and the kinds *)

(** X2 at CCD 3 of the example store, which is given the Windows 0 and
    1. *)
Lemma X2_witness :
  exists st',
    data_setter 3 [VWindow 0; VWindow 1] SpecWindow.ex_store = (Ok tt, st') /\
    data 3 st' = (Ok [0; 1], st') /\
    nwin 3 st' = (Ok 2, st') /\
    heap st' = heap SpecWindow.ex_store.
Proof.
  destruct (X2_data_setter_getter SpecWindow.ex_store 3
              (mkCCD [] 0 100 100 true None) [VWindow 0; VWindow 1] eq_refl)
    as [_ Accepts].
  destruct (Accepts eq_refl) as (st' & E & D & _ & N & _ & _ & _ & Hp & _).
  exists st'. auto.
Defined.

(** A list with [None] in it is refused, by the constructor and by the
    setter, and a text is no header. *)
Example constructor_and_setter_refuse :
  fst (new_CCD [VWindow 0; VNone] 0 100 100 true VNone SpecWindow.ex_store)
  = Raise (UltracamError "CCD.__init__: all windows must be Windows.") /\
  fst (new_CCD [VWindow 0] 0 100 100 true (VOther "header")
         SpecWindow.ex_store)
  = Raise (UltracamError "CCD.__init__: head should be a Uhead (or None).") /\
  data_setter 3 [VWindow 0; VNone] SpecWindow.ex_store
  = (Raise (UltracamError "CCD.data: wins must be a list of Windows."),
     SpecWindow.ex_store).
Proof. repeat split. Qed.

(** X3 at the CCD of [range_store], of one integer and one float
    window. *)
Lemma X3_witness :
  anyInt 0 SpecWindow.range_store = (Ok true, SpecWindow.range_store) /\
  anyFloat 0 SpecWindow.range_store = (Ok true, SpecWindow.range_store).
Proof.
  destruct (X3_anyInt_anyFloat SpecWindow.range_store 0
              (mkCCD [0; 1] 0 100 100 true None))
    as (bi & bf & Ei & Ef & Hi & Hf & _);
    [reflexivity | repeat constructor |].
  assert (bi = true) as ->.
  { apply Hi. exists SpecWindow.wB. split; [|reflexivity].
    apply elem_of_cons. left. reflexivity. }
  assert (bf = true) as ->.
  { apply Hf. exists SpecWindow.wOut. split; [|reflexivity].
    apply elem_of_cons. right. apply elem_of_cons. left. reflexivity. }
  split; assumption.
Defined.

(** X4 at the CCD of [range_store]: both windows end up as 4-byte
    floats. *)
Lemma X4_witness :
  exists st',
    toFloat 0 true SpecWindow.range_store = (Ok tt, st') /\
    anyInt 0 st' = (Ok false, st') /\
    anyFloat 0 st' = (Ok true, st') /\
    warnings st' = [].
Proof.
  destruct (@X4_toFloat SpecWindow.Window nat string SpecWindow.ops
              SpecWindow.range_store 0 (mkCCD [0; 1] 0 100 100 true None)
              true)
    as (st' & E & _ & W & _ & _ & _ & Ai & Af);
    [reflexivity | repeat constructor | reflexivity |].
  exists st'. auto.
Defined.

(** *** Extrema and counts *)

(** X5 at CCD 0 of the example store. *)
Lemma X5_witness :
  exists lo hi,
    min 0 SpecWindow.ex_store = (Ok (Some lo), SpecWindow.ex_store) /\
    max 0 SpecWindow.ex_store = (Ok (Some hi), SpecWindow.ex_store) /\
    (exists w, w ∈ windows SpecWindow.ex_store [0; 1] /\ lo = w_min w) /\
    (forall w, w ∈ windows SpecWindow.ex_store [0; 1] -> (lo <= w_min w)%Q) /\
    (exists w, w ∈ windows SpecWindow.ex_store [0; 1] /\ hi = w_max w) /\
    (forall w, w ∈ windows SpecWindow.ex_store [0; 1] -> (w_max w <= hi)%Q).
Proof.
  apply (X5_min_max_are_attained_bounds SpecWindow.ex_store 0
           (mkCCD [0; 1] 0 100 100 true None));
    [reflexivity | exact valid_ex_01 | discriminate].
Defined.

(** X6 at the CCD of [blank_store], whose only window has no pixel:
    [npix()] is 0 and [mean()] returns nan. *)
Lemma X6_witness :
  npix 0 SpecWindow.blank_store = (Ok 0, SpecWindow.blank_store) /\
  mean 0 SpecWindow.blank_store = (Ok NaN, SpecWindow.blank_store).
Proof.
  destruct (X6_npix_and_mean SpecWindow.blank_store 0
              (mkCCD [0] 0 100 100 true None))
    as (n & r & En & Hn & Em & _ & _ & _ & Nan);
    [reflexivity | repeat constructor |].
  assert (n = 0) as -> by exact Hn.
  assert (r = Ok NaN) as ->.
  { apply Nan; [discriminate | reflexivity |].
    intros w Hw. change (w ∈ [SpecWindow.wNone]) in Hw.
    apply list_elem_of_singleton in Hw. subst w. reflexivity. }
  split; assumption.
Defined.

(** X7 at CCD 0 of the example store, four pixels at 500 and one at 7:
    numpy is handed the two flattened windows. *)
Lemma X7_witness :
  @median SpecWindow.Window nat string SpecWindow.ops SpecWindow.numpy 0
    SpecWindow.ex_store
  = (Ok (NpValue 500%Q), SpecWindow.ex_store) /\
  @centile SpecWindow.Window nat string SpecWindow.ops SpecWindow.numpy 0
    (PNumeric (PSequence [0; 100]%Q)) SpecWindow.ex_store
  = (Ok (NpValue (PSequence [7; 500]%Q)), SpecWindow.ex_store) /\
  @centile SpecWindow.Window nat string SpecWindow.ops SpecWindow.numpy 0
    (PText "50") SpecWindow.ex_store
  = (Raise (UltracamError centile_msg), SpecWindow.ex_store).
Proof.
  destruct (@X7_median_and_centile SpecWindow.Window nat string
              SpecWindow.ops SpecWindow.numpy SpecWindow.ex_store 0)
    as [Text Numbers].
  destruct (Numbers (mkCCD [0; 1] 0 100 100 true None) eq_refl valid_ex_01)
    as [Em Ec].
  split; [rewrite Em; reflexivity|].
  split; [rewrite Ec; reflexivity|]. apply Text.
Defined.

(** *** Cropping, asked and done *)

(** X8 at the CCDs of [crop_store]: the window of CCD 0 encloses the
    window of CCD 1. *)
Lemma X8_witness :
  exists r,
    canCropTo 0 1 SpecWindow.crop_store = (Ok r, SpecWindow.crop_store) /\
    (r = true <->
     100%Z = 100%Z /\ 100%Z = 100%Z /\
     forall wo, wo ∈ windows SpecWindow.crop_store [1] ->
       exists w, w ∈ windows SpecWindow.crop_store [0] /\
                 w_ge w wo = true) /\
    (100%Z = 100%Z -> 100%Z = 100%Z -> [1] = [] -> r = true).
Proof.
  destruct (X8_canCropTo SpecWindow.crop_store 0 1
              (mkCCD [0] 0 100 100 true None)
              (mkCCD [1] 0 100 100 true None) eq_refl eq_refl)
    as [_ Answer].
  apply Answer; repeat constructor.
Defined.

(** X9 at the CCDs of [crop_store], on whose windows the enclosure test
    and [canCropTo] of Window agree. *)
Lemma X9_witness :
  canCropTo 0 1 SpecWindow.crop_store = (Ok true, SpecWindow.crop_store) <->
  exists c' st', cropTo 0 1 SpecWindow.crop_store = (Ok c', st').
Proof.
  apply (X9_canCropTo_predicts_cropTo SpecWindow.crop_store 0 1
           (mkCCD [0] 0 100 100 true None)
           (mkCCD [1] 0 100 100 true None));
    [reflexivity | reflexivity | repeat constructor | repeat constructor |].
  intros w wo Hw Hwo.
  change (w ∈ [SpecWindow.wA]) in Hw. change (wo ∈ [SpecWindow.wT]) in Hwo.
  apply list_elem_of_singleton in Hw, Hwo. subst. reflexivity.
Defined.

(** *** In-place arithmetic, window by window *)

Lemma nodup_01 : NoDup [0; 1].
Proof. compute_done. Qed.

(** X10 at CCD 0 of the example store and the number 10. *)
Lemma X10_witness :
  exists r st' k,
    inplace Add 0 (OScalar 10) SpecWindow.ex_store = (r, st') /\
    k <= 2 /\
    (forall i l w,
       i < k -> [0; 1] !! i = Some l ->
       heap SpecWindow.ex_store !! l = Some w ->
       exists w', w_iarith Add w (WScalar 10%Q) = Ok w' /\
                  heap st' !! l = Some w') /\
    (forall l, l ∉ take k [0; 1] ->
       heap st' !! l = heap SpecWindow.ex_store !! l) /\
    ccds st' = ccds SpecWindow.ex_store /\
    (r = Ok 0 /\ k = 2 \/
     exists e l w,
       r = Raise e /\ [0; 1] !! k = Some l /\
       heap SpecWindow.ex_store !! l = Some w /\
       w_iarith Add w (WScalar 10%Q) = Raise e).
Proof.
  apply (X10_inplace_scalar_window_by_window Add SpecWindow.ex_store 0
           (mkCCD [0; 1] 0 100 100 true None) 10%Q);
    [reflexivity | exact valid_ex_01 | exact nodup_01].
Defined.

(** X11 at the CCDs of [mismatch_store]: the first pair is added, the
    second pair differs in shape and raises, and the first window stays
    as the addition left it. *)
Lemma X11_witness :
  exists st',
    __iadd__ 0 (OCCD 1) SpecWindow.mismatch_store
    = (Raise (WindowError SpecWindow.shape_msg), st') /\
    heap st' !! 0
    = Some (SpecWindow.window 0 0 [[1000; 1000]; [1000; 1000]]%Q) /\
    heap st' !! 1 = Some SpecWindow.wB /\
    heap st' !! 2 = Some SpecWindow.wA.
Proof.
  destruct (X11_inplace_ccd_pair_by_pair Add SpecWindow.mismatch_store 0 1
              (mkCCD [0; 1] 0 100 100 true None)
              (mkCCD [2; 2] 0 100 100 true None))
    as (r & st' & k & E & _);
    [reflexivity | reflexivity | repeat constructor | repeat constructor
    | exact nodup_01 | |].
  { intros l Hl. apply list_elem_of_In in Hl.
    destruct Hl as [<-|[<-|[]]]; compute_done. }
  exists st'. unfold __iadd__. rewrite E.
  vm_compute in E. injection E as <- <-. repeat split.
Defined.

(** X12 at CCD 0 of the example store: each window loses its own
    median, 500 and 7. *)
Lemma X12_witness :
  exists st',
    rback 0 SpecWindow.ex_store = (Ok tt, st') /\
    heap st' !! 0 = Some (SpecWindow.window 0 0 [[0; 0]; [0; 0]]%Q) /\
    heap st' !! 1 = Some (SpecWindow.window 10 0 [[0]]%Q).
Proof.
  destruct (X12_rback_window_by_window SpecWindow.ex_store 0
              (mkCCD [0; 1] 0 100 100 true None))
    as (r & st' & k & E & _);
    [reflexivity | exact valid_ex_01 | exact nodup_01 |].
  exists st'. rewrite E.
  vm_compute in E. injection E as <- <-. repeat split.
Defined.

(** X13 at CCDs 0 and 1 of the example store: the windows of [a + b]
    are what [a += b] leaves in [a]. *)
Lemma X13_witness :
  exists r1 st1 r2 st2,
    inplace Add 0 (OCCD 1) SpecWindow.ex_store = (r1, st1) /\
    binary Add 0 (OCCD 1) SpecWindow.ex_store = (r2, st2) /\
    (r1 = Ok 0 /\
     (exists c' cc,
        r2 = Ok c' /\ ccds st2 !! c' = Some cc /\
        windows st2 (_data cc) = windows st1 (take (Nat.min 2 2) [0; 1])) \/
     exists e, r1 = Raise e /\ r2 = Raise e).
Proof.
  apply (X13_inplace_agrees_with_value_returning Add SpecWindow.ex_store 0 1
           (mkCCD [0; 1] 0 100 100 true None)
           (mkCCD [2; 3] 0 100 100 true None));
    [reflexivity | reflexivity | exact valid_ex_01 | repeat constructor
    | exact nodup_01 | | reflexivity].
  intros l Hl. apply list_elem_of_In in Hl.
  destruct Hl as [<-|[<-|[]]]; compute_done.
Defined.

(** *** Arithmetic with a number *)

(** X14 at the CCD of [flagged_store]: twice the CCD, from either side,
    is a new CCD of two new Windows, with the flag false. *)
Lemma X14_witness :
  (exists c' wins st',
     binary Mul 0 (OScalar 2) SpecWindow.flagged_store = (Ok c', st') /\
     ccds st' !! c' = Some (mkCCD wins 0 100%Z 100%Z false None) /\
     Forall2 (fun w w' => w_arith Mul w (WScalar 2%Q) = Ok w')
       (windows SpecWindow.flagged_store [0; 1]) (windows st' wins)) /\
  (exists c' wins st',
     reflected Mul 0 2 SpecWindow.flagged_store = (Ok c', st') /\
     ccds st' !! c' = Some (mkCCD wins 0 100%Z 100%Z false None) /\
     Forall2 (fun w w' => w_rarith Mul 2%Q w = Ok w')
       (windows SpecWindow.flagged_store [0; 1]) (windows st' wins)).
Proof.
  destruct (X14_scalar_arithmetic_on_flagged_ccd Mul
              SpecWindow.flagged_store 0
              (mkCCD [0; 1] 0 100 100 false None) 2%Q)
    as [Right Left]; [reflexivity | repeat constructor | reflexivity |].
  split.
  - destruct Right as (c' & wins & st' & E & _ & Ec & Ws & _).
    { intros w _. eexists. reflexivity. }
    exists c', wins, st'. auto.
  - destruct Left as (c' & wins & st' & E & _ & Ec & Ws & _).
    { intros w _. eexists. reflexivity. }
    exists c', wins, st'. auto.
Defined.

(** *** Equality and text *)

(** X17 at the CCDs of [meta_store]: CCD 1 differs from CCD 0 in time,
    flag and header only and compares as CCD 0 does, and comparing CCD 0
    with CCD 2 gives the same answer from either side. *)
Lemma X17_witness :
  __eq__ 1 2 SpecWindow.meta_store = __eq__ 0 2 SpecWindow.meta_store /\
  __eq__ 2 1 SpecWindow.meta_store = __eq__ 2 0 SpecWindow.meta_store /\
  __ne__ 1 2 SpecWindow.meta_store = __ne__ 0 2 SpecWindow.meta_store /\
  __eq__ 0 2 SpecWindow.meta_store = __eq__ 2 0 SpecWindow.meta_store.
Proof.
  destruct (X17_eq_looks_at_dimensions_and_windows SpecWindow.meta_store
              0 1 2
              (mkCCD [0; 1] 0 100 100 true None)
              (mkCCD [0; 1] 7 100 100 false (Some "run045"%string))
              (mkCCD [1; 0] 0 100 100 true None))
    as (E1 & E2 & E3 & Sym); try reflexivity.
  split; [exact E1|]. split; [exact E2|]. split; [exact E3|].
  apply Sym; [repeat constructor | repeat constructor |].
  intros wa wb Ha Hb.
  change (wa ∈ [SpecWindow.wA; SpecWindow.wB]) in Ha.
  change (wb ∈ [SpecWindow.wB; SpecWindow.wA]) in Hb.
  apply list_elem_of_In in Ha, Hb.
  destruct Ha as [<-|[<-|[]]]; destruct Hb as [<-|[<-|[]]]; reflexivity.
Defined.

(** X18 at CCD 0 of the example store, with the texts of
    [SpecWindow]. *)
Lemma X18_witness :
  @format SpecWindow.Window nat string SpecWindow.texts 0
    SpecWindow.ex_store
  = (Ok ("Window 1 = 0,0 2x2" ++ newline
         ++ "Window 2 = 10,0 1x1" ++ newline)%string,
     SpecWindow.ex_store) /\
  @__str__ SpecWindow.Window nat string SpecWindow.texts 0
    SpecWindow.ex_store
  = (Ok (newline
         ++ "Dimensions = 100, 100, number of windows = 2, status = True"
         ++ newline
         ++ newline ++ "Window number 1:" ++ newline
         ++ "0,0 2x2" ++ newline
         ++ newline ++ "Window number 2:" ++ newline
         ++ "10,0 1x1" ++ newline)%string,
     SpecWindow.ex_store).
Proof.
  destruct (@X18_format_and_str SpecWindow.Window nat string
              SpecWindow.texts SpecWindow.ex_store 0
              (mkCCD [0; 1] 0 100 100 true None) eq_refl valid_ex_01)
    as (F & S & _).
  split; [rewrite F|rewrite S]; reflexivity.
Defined.
